(** * Tic Tac Toe: the computer opponent of [script.js]

    A shallow embedding of the move-selection code of the class
    [TicTacToeGame] (the three difficulty policies, the win and draw tests
    and the alpha-beta search), with the properties of its specification.

    The board is the JavaScript array [this.state.board].  The search and
    the fork heuristics write tentative marks into that very array and take
    them back; the embedding threads the array through every function that
    writes to it, so that what is left in it on return is part of each
    result. *)

From Stdlib Require Import ZArith Lia Bool Sorted.
From stdpp Require Import base list strings.

Local Open Scope nat_scope.
Local Open Scope list_scope.

(** ** Data model *)

(** The two marks, ['x'] and ['o']. *)
Inductive player : Type := PLAYER_X | PLAYER_O.

(** A board cell as the code can tell cells apart: it only ever compares
    a cell with [null] and with a player's mark, so every other value
    ([undefined] read past the end of the array, or a stray value in a
    malformed board) behaves alike and is [Other]. *)
Inductive cell : Type := Null | Mark (p : player) | Other.

Abbreviation Board := (list cell).

Definition player_eqb (p q : player) : bool :=
  match p, q with
  | PLAYER_X, PLAYER_X | PLAYER_O, PLAYER_O => true
  | _, _ => false
  end.

(** [board[index]]; reading past the end of an array gives [undefined]. *)
Definition get (b : Board) (index : nat) : cell := default Other (b !! index).

(** [c === player] and [c === null]. *)
Definition is_player (p : player) (c : cell) : bool :=
  match c with Mark q => player_eqb q p | _ => false end.

Definition is_null (c : cell) : bool :=
  match c with Null => true | _ => false end.

(** [board[index] = v].  Every write of the modelled code is at an index
    taken from [getEmptyIndices] or found [null] in a winning combination,
    hence inside the array; the embedding leaves the array alone on a
    write past its end (where JavaScript would extend it). *)
Definition set (b : Board) (index : nat) (v : cell) : Board := <[index := v]> b.

Definition WINNING_COMBINATIONS : list (list nat) :=
  [ [0;1;2]; [3;4;5]; [6;7;8];
    [0;3;6]; [1;4;7]; [2;5;8];
    [0;4;8]; [2;4;6] ].

Definition CENTER : nat := 4.
Definition CORNERS : list nat := [0; 2; 6; 8].
Definition EDGES : list nat := [1; 3; 5; 7].

(** [Array.prototype.includes] on arrays of indices. *)
Definition includes (l : list nat) (i : nat) : bool := existsb (Nat.eqb i) l.

(** JavaScript numbers as the search uses them: integers and the two
    infinities that start the alpha-beta window. *)
Inductive num : Type := NegInf | Fin (z : Z) | PosInf.

Definition num_ltb (a b : num) : bool :=
  match a, b with
  | NegInf, NegInf => false
  | NegInf, _ => true
  | Fin _, NegInf => false
  | Fin x, Fin y => (x <? y)%Z
  | Fin _, PosInf => true
  | PosInf, _ => false
  end.

Definition num_leb (a b : num) : bool := negb (num_ltb b a).

(** [Math.max] and [Math.min]. *)
Definition num_max (a b : num) : num := if num_ltb a b then b else a.
Definition num_min (a b : num) : num := if num_ltb b a then b else a.

(** The object [{ score, index }] returned by [minimax]; [index] is
    [None] for [null]. *)
Record move : Type := mkMove { score : num; index : option nat }.

(** ** Evaluator *)

(** [checkForWin(player, board)]. *)
Definition checkForWin (p : player) (b : Board) : bool :=
  existsb (fun combo => forallb (fun index => is_player p (get b index)) combo)
          WINNING_COMBINATIONS.

(** [getEmptyIndices(board)]: [map] to the index or [null], then [filter]. *)
Definition getEmptyIndices (b : Board) : list nat :=
  omap id (imap (fun index c => if is_null c then Some index else None) b).

(** [checkForDraw()]. *)
Definition checkForDraw (b : Board) : bool :=
  forallb (fun c => negb (is_null c)) b
  && negb (checkForWin PLAYER_X b) && negb (checkForWin PLAYER_O b).

(** [evaluateBoard(board)], with [this.state.aiPlayer] and
    [this.state.humanPlayer] as [ai] and [human]. *)
Definition evaluateBoard (ai human : player) (b : Board) : Z :=
  if checkForWin ai b then 10%Z
  else if checkForWin human b then (-10)%Z
  else 0%Z.

(** ** Search player: [minimax] *)

Section Minimax.
Variables ai human : player.

(** The [for (const index of emptyIndices)] loop of [minimax], with the
    recursive call abstracted as [rec].  It threads the array, the best
    move so far and the window, and stops at [beta <= alpha]. *)
Fixpoint minimax_loop (rec : Board -> num -> num -> option (move * Board))
    (player : player) (isMaximizing : bool)
    (l : list nat) (b : Board) (bestMove : move) (alpha beta : num)
    : option (move * Board) :=
  match l with
  | [] => Some (bestMove, b)
  | index :: rest =>
      let b := set b index (Mark player) in
      match rec b alpha beta with
      | None => None
      | Some (result, b) =>
          let b := set b index Null in
          let bestMove :=
            if isMaximizing
            then (if num_ltb (score bestMove) (score result)
                  then mkMove (score result) (Some index) else bestMove)
            else (if num_ltb (score result) (score bestMove)
                  then mkMove (score result) (Some index) else bestMove) in
          let alpha := if isMaximizing then num_max alpha (score result) else alpha in
          let beta := if isMaximizing then beta else num_min beta (score result) in
          if num_leb beta alpha then Some (bestMove, b)
          else minimax_loop rec player isMaximizing rest b bestMove alpha beta
      end
  end.

(** [minimax(board, player, isMaximizing, depth, alpha, beta)].  The
    recursion is on [fuel]; [None] means the fuel ran out, which
    [minimax_total] below excludes for the fuel [minimax] passes. *)
Fixpoint minimax_fuel (fuel : nat) (b : Board) (player : player)
    (isMaximizing : bool) (depth : nat) (alpha beta : num)
    : option (move * Board) :=
  match fuel with
  | O => None
  | S fuel =>
      let score := evaluateBoard ai human b in
      if (score =? 10)%Z then Some (mkMove (Fin (score - Z.of_nat depth)) None, b)
      else if (score =? -10)%Z then Some (mkMove (Fin (score + Z.of_nat depth)) None, b)
      else if length (getEmptyIndices b) =? 0 then Some (mkMove (Fin 0) None, b)
      else if 8 <? depth then Some (mkMove (Fin 0) None, b)
      else
        let emptyIndices := getEmptyIndices b in
        let bestMove :=
          mkMove (if isMaximizing then NegInf else PosInf) (head emptyIndices) in
        minimax_loop
          (fun b alpha beta =>
             minimax_fuel fuel b (if isMaximizing then human else ai)
                          (negb isMaximizing) (S depth) alpha beta)
          player isMaximizing emptyIndices b bestMove alpha beta
  end.

(** [minimax] as called: the guard [depth > 8] stops the recursion at
    depth 9, so ten levels of fuel are enough from depth 0 and one level
    from depth 9 on.  The fuel never runs out ([minimax_total] below), so
    the default is never used. *)
Definition minimax (b : Board) (player : player) (isMaximizing : bool)
    (depth : nat) (alpha beta : num) : move * Board :=
  default (mkMove (Fin 0) None, b)
          (minimax_fuel (S (9 - depth)) b player isMaximizing depth alpha beta).

(** [getOptimalMove()]: the index of the root result, and the array as
    the search leaves it. *)
Definition getOptimalMove (b : Board) : option nat * Board :=
  let (result, b) := minimax b ai true 0 NegInf PosInf in
  (index result, b).
End Minimax.

(** ** Random source

    [Math.random()] returns a binary64 number that is at least 0 and less
    than 1.  A binary64 number that is finite and not negative is
    [significand * 2 ^ exponent] with [0 <= significand < 2 ^ 53] and
    [-1074 <= exponent]; the embedding takes the draws as such pairs, one
    after the other from [rng].  ([unit_float] below says which pairs are
    numbers that [Math.random()] can return.) *)
Record float : Type := mkFloat { significand : Z; exponent : Z }.

Definition rng : Type := nat → float.

Definition random (g : rng) : float * rng := (g 0, fun n => g (S n)).

(** [x < y] on two such numbers; the comparison of binary64 numbers is
    exact. *)
Definition float_ltb (x y : float) : bool :=
  let e := Z.min (exponent x) (exponent y) in
  (significand x * 2 ^ (exponent x - e) <? significand y * 2 ^ (exponent y - e))%Z.

(** The literal [0.3]: the binary64 number nearest to 3/10, which is
    [5404319552844595 / 2 ^ 54]. *)
Definition literal_0_3 : float := mkFloat 5404319552844595 (-54).

(** The binary64 number for the exact value [m * 2 ^ e], [0 <= m]: when
    [m] has more than 53 bits it is cut to 53, rounding to nearest and a
    tie to the even significand, as every binary64 operation rounds its
    exact result.  With [-1074 <= e] the result is a binary64 number,
    normal or subnormal.  A significand that rounding carries to
    [2 ^ 53] is left as it is, the value being the same.  Overflow to
    [Infinity] is left out: it does not arise for the product of a
    number below 1 and an array length. *)
Definition round_binary64 (m e : Z) : float :=
  let s := (Z.log2 m - 52)%Z in
  if (s <=? 0)%Z then mkFloat m e
  else
    let q := (m / 2 ^ s)%Z in
    let rest := (m mod 2 ^ s)%Z in
    let half := (2 ^ (s - 1))%Z in
    let up := (half <? rest)%Z || ((rest =? half)%Z && Z.odd q) in
    mkFloat (if up then q + 1 else q)%Z (e + s).

(** [x * l.length]: an array length is an integer below [2 ^ 32], which
    binary64 holds exactly, so the exact product is
    [significand x * n * 2 ^ exponent x]; the operation rounds it. *)
Definition times_length (x : float) (n : nat) : float :=
  round_binary64 (significand x * Z.of_nat n) (exponent x).

(** [Math.floor(x)]. *)
Definition floor (x : float) : Z :=
  if (0 <=? exponent x)%Z then (significand x * 2 ^ exponent x)%Z
  else (significand x / 2 ^ (- exponent x))%Z.

(** [l[Math.floor(r * l.length)]]; [None] stands for [undefined]. *)
Definition pick (l : list nat) (r : float) : option nat :=
  let k := floor (times_length r (length l)) in
  if (k <? 0)%Z then None else l !! Z.to_nat k.

(** ** Casual player: [getRandomMove] *)

Definition preferred (index : nat) : bool :=
  (index =? CENTER) || includes CORNERS index.

Definition getRandomMove (emptyIndices : list nat) (g : rng) : option nat * rng :=
  let (r, g) := random g in
  if float_ltb r literal_0_3 then
    let preferredMoves := List.filter preferred emptyIndices in
    if 0 <? length preferredMoves then
      let (r, g) := random g in (pick preferredMoves r, g)
    else
      let (r, g) := random g in (pick emptyIndices r, g)
  else
    let (r, g) := random g in (pick emptyIndices r, g).

(** ** Heuristic player: the rule cascade *)

Section Strategic.
Variables ai human : player.

(** [positions.filter(pos => ...).length]. *)
Definition count (f : cell → bool) (positions : list cell) : nat :=
  length (List.filter f positions).

(** [positions.indexOf(null)]; [None] stands for [-1]. *)
Fixpoint indexOf_null (positions : list cell) : option nat :=
  match positions with
  | [] => None
  | c :: rest => if is_null c then Some 0 else S <$> indexOf_null rest
  end.

(** The test [playerCount === 2 && emptyCount === 1] on a combination. *)
Definition completable (player : player) (b : Board) (combo : list nat) : bool :=
  let positions := List.map (get b) combo in
  (count (is_player player) positions =? 2) && (count is_null positions =? 1).

Fixpoint findWinningMove_in (combos : list (list nat)) (player : player)
    (b : Board) : option nat :=
  match combos with
  | [] => None
  | combo :: rest =>
      if completable player b combo
      then indexOf_null (List.map (get b) combo) ≫= (fun k => combo !! k)
      else findWinningMove_in rest player b
  end.

(** [findWinningMove(player)]. *)
Definition findWinningMove (player : player) (b : Board) : option nat :=
  findWinningMove_in WINNING_COMBINATIONS player b.

(** The loop of [findForkMove] over the empty indices. *)
Fixpoint findForkMove_loop (player : player) (l : list nat) (b : Board)
    : option nat * Board :=
  match l with
  | [] => (None, b)
  | index :: rest =>
      let b := set b index (Mark player) in
      let winningMoves :=
        length (List.filter (completable player b) WINNING_COMBINATIONS) in
      let b := set b index Null in
      if 2 <=? winningMoves then (Some index, b)
      else findForkMove_loop player rest b
  end.

(** [findForkMove(player)]. *)
Definition findForkMove (player : player) (b : Board) : option nat * Board :=
  findForkMove_loop player (getEmptyIndices b) b.

(** The second loop of [findBlockForkMove]. *)
Fixpoint findBlockForkMove_loop (l : list nat) (b : Board) : option nat * Board :=
  match l with
  | [] => (None, b)
  | index :: rest =>
      let b := set b index (Mark ai) in
      match findWinningMove ai b with
      | Some forcedDefense =>
          let b := set b forcedDefense (Mark human) in
          let (remainingForks, b) := findForkMove human b in
          let b := set b forcedDefense Null in
          match remainingForks with
          | None => let b := set b index Null in (Some index, b)
          | Some _ =>
              let b := set b index Null in findBlockForkMove_loop rest b
          end
      | None =>
          let b := set b index Null in findBlockForkMove_loop rest b
      end
  end.

(** [findBlockForkMove()]. *)
Definition findBlockForkMove (b : Board) : option nat * Board :=
  let (humanFork, b) := findForkMove human b in
  match humanFork with
  | Some i => (Some i, b)
  | None => findBlockForkMove_loop (getEmptyIndices b) b
  end.

Definition opposites : list (nat * nat) := [(0, 8); (2, 6); (6, 2); (8, 0)].

(** [findOppositeCorner()]. *)
Definition findOppositeCorner (b : Board) : option nat :=
  snd <$> List.find (fun '(corner, opposite) =>
                       is_player human (get b corner) && is_null (get b opposite))
                    opposites.

(** The last three rules of [getStrategicMove]: a random free corner,
    a random free edge, a random empty cell. *)
Definition cornerEdgeMove (emptyIndices : list nat) (g : rng) : option nat * rng :=
  let availableCorners := List.filter (includes emptyIndices) CORNERS in
  if 0 <? length availableCorners then
    let (r, g) := random g in (pick availableCorners r, g)
  else
    let availableEdges := List.filter (includes emptyIndices) EDGES in
    if 0 <? length availableEdges then
      let (r, g) := random g in (pick availableEdges r, g)
    else
      let (r, g) := random g in (pick emptyIndices r, g).

(** [getStrategicMove(emptyIndices)]: the move, the array as the fork
    heuristics leave it, and the rest of the random source. *)
Definition getStrategicMove (emptyIndices : list nat) (b : Board) (g : rng)
    : option nat * Board * rng :=
  match findWinningMove ai b with
  | Some winMove => (Some winMove, b, g)
  | None =>
  match findWinningMove human b with
  | Some blockMove => (Some blockMove, b, g)
  | None =>
  let (forkMove, b) := findForkMove ai b in
  match forkMove with
  | Some forkMove => (Some forkMove, b, g)
  | None =>
  let (blockForkMove, b) := findBlockForkMove b in
  match blockForkMove with
  | Some blockForkMove => (Some blockForkMove, b, g)
  | None =>
  if includes emptyIndices CENTER then (Some CENTER, b, g)
  else
    let rest := let (m, g) := cornerEdgeMove emptyIndices g in (m, b, g) in
    match findOppositeCorner b with
    | Some oppositeCorner =>
        if includes emptyIndices oppositeCorner then (Some oppositeCorner, b, g)
        else rest
    | None => rest
    end
  end end end end.
End Strategic.

(** ** Move selector and the round

    The fields of [this.state] that the move selection and the turn
    handling read or write; the scores, the keyboard focus and the page
    are left out. *)
Inductive GAME_STATES : Type := PLAYING | X_WINS | O_WINS | DRAW.

Record state : Type := mkState {
  gameState : GAME_STATES;
  humanPlayer : player;
  aiPlayer : player;
  currentPlayer : player;
  difficulty : string;
  board : Board
}.

Definition with_board (st : state) (b : Board) : state :=
  mkState (gameState st) (humanPlayer st) (aiPlayer st) (currentPlayer st)
          (difficulty st) b.

Definition with_gameState (st : state) (s : GAME_STATES) : state :=
  mkState s (humanPlayer st) (aiPlayer st) (currentPlayer st)
          (difficulty st) (board st).

(** How a JavaScript call completes: it returns a value or throws. *)
Inductive completion (A : Type) : Type :=
  | Normal (v : A)
  | Throw (e : string).
Arguments Normal {A} v.
Arguments Throw {A} e.

(** [getBestAIMove()]: the completion (no path of the code throws; the
    value is [None] for [null]), the state with the array as the policy
    leaves it, and the rest of the random source. *)
Definition getBestAIMove (st : state) (g : rng) : completion (option nat) * state * rng :=
  let emptyIndices := getEmptyIndices (board st) in
  if length emptyIndices =? 0 then (Normal None, st, g)
  else if String.eqb (difficulty st) "easy" then
    let (m, g) := getRandomMove emptyIndices g in (Normal m, st, g)
  else if String.eqb (difficulty st) "medium" then
    let '(m, b, g) := getStrategicMove (aiPlayer st) (humanPlayer st)
                                       emptyIndices (board st) g in
    (Normal m, with_board st b, g)
  else if String.eqb (difficulty st) "hard" then
    let (m, b) := getOptimalMove (aiPlayer st) (humanPlayer st) (board st) in
    (Normal m, with_board st b, g)
  else
    let (m, g) := getRandomMove emptyIndices g in (Normal m, st, g).

Definition other (p : player) : player :=
  match p with PLAYER_X => PLAYER_O | PLAYER_O => PLAYER_X end.

(** [initializeState()]. *)
Definition initializeState : state :=
  mkState PLAYING PLAYER_X PLAYER_O PLAYER_X "easy" (replicate 9 Null).

(** [startNewRound()]; when the engine is to open, the page schedules a
    call of [makeAIMove]. *)
Definition startNewRound (st : state) : state :=
  mkState PLAYING (humanPlayer st) (aiPlayer st) PLAYER_X (difficulty st)
          (List.map (fun _ => Null) (board st)).

(** [handleDifficultyChange()] with the checked radio's value (an empty
    value is falsy and changes nothing). *)
Definition handleDifficultyChange (st : state) (selectedDifficulty : string) : state :=
  if negb (String.eqb selectedDifficulty "")
     && negb (String.eqb selectedDifficulty (difficulty st)) then
    mkState (gameState st) (humanPlayer st) (aiPlayer st) (currentPlayer st)
            selectedDifficulty (board st)
  else st.

(** [handleHumanPlayerChange()] with the checked radio's value. *)
Definition handleHumanPlayerChange (st : state) (selectedPlayer : player) : state :=
  if existsb (fun c => negb (is_null c)) (board st) then st
  else if negb (player_eqb selectedPlayer (humanPlayer st)) then
    startNewRound
      (mkState (gameState st) selectedPlayer (other selectedPlayer)
               (currentPlayer st) (difficulty st) (board st))
  else st.

(** [makeMove(index, player)], without the rendering: the state and the
    returned boolean. *)
Definition makeMove (st : state) (index : nat) (p : player) : state * bool :=
  if (8 <? index) || negb (is_null (get (board st) index)) then (st, false)
  else (with_board st (set (board st) index (Mark p)), true).

(** [endGame(isDraw, winner)], without the scores. *)
Definition endGame (st : state) (isDraw : bool) (winner : player) : state :=
  if isDraw then with_gameState st DRAW
  else with_gameState st (match winner with PLAYER_X => X_WINS | PLAYER_O => O_WINS end).

(** [switchTurns()]. *)
Definition switchTurns (st : state) : state :=
  mkState (gameState st) (humanPlayer st) (aiPlayer st)
          (other (currentPlayer st)) (difficulty st) (board st).

Definition is_playing (s : GAME_STATES) : bool :=
  match s with PLAYING => true | _ => false end.

(** What [makeAIMove] and [handlePlayerInput] do after the mark is
    placed. *)
Definition afterMove (st : state) (p : player) : state :=
  if checkForWin p (board st) then endGame st false p
  else if checkForDraw (board st) then endGame st true p
  else switchTurns st.

(** [makeAIMove()].  No call of [getBestAIMove] throws, so the last
    branch is never taken. *)
Definition makeAIMove (st : state) (g : rng) : state * rng :=
  if negb (is_playing (gameState st))
     || negb (player_eqb (currentPlayer st) (aiPlayer st)) then (st, g)
  else
    let '(c, st, g) := getBestAIMove st g in
    match c with
    | Normal (Some bestMove) =>
        let (st, _) := makeMove st bestMove (aiPlayer st) in
        (afterMove st (aiPlayer st), g)
    | Normal None => (st, g)
    | Throw _ => (st, g)
    end.

(** [handlePlayerInput(event)] for a click on the cell [cellIndex]; the
    engine's reply is scheduled by the page and is a separate call of
    [makeAIMove]. *)
Definition handlePlayerInput (st : state) (cellIndex : nat) : state :=
  if negb (is_playing (gameState st)) then st
  else if 8 <? cellIndex then st
  else if negb (player_eqb (currentPlayer st) (humanPlayer st)) then st
  else if negb (is_null (get (board st) cellIndex)) then st
  else
    let (st, _) := makeMove st cellIndex (humanPlayer st) in
    afterMove st (humanPlayer st).

(** ** Expert rounds opened by the engine

    The round as the page runs it when the human chose O and the
    difficulty ['hard']: the engine plays X and opens. *)
Definition expertStart : state :=
  handleHumanPlayerChange (handleDifficultyChange initializeState "hard") PLAYER_O.

(** [engine_turn_from st st']: from [st] the round can come to [st'] by
    exchanges of a move of the engine ([makeAIMove]) and a click of the
    human on any cell ([handlePlayerInput]) after which the round is still
    on and the engine is to move. *)
Inductive engine_turn_from : state → state → Prop :=
  | turn_here (st : state) : engine_turn_from st st
  | turn_later (st : state) (g : rng) (i : nat) (st' : state) :
      gameState (handlePlayerInput (makeAIMove st g).1 i) = PLAYING →
      currentPlayer (handlePlayerInput (makeAIMove st g).1 i)
      = aiPlayer (handlePlayerInput (makeAIMove st g).1 i) →
      engine_turn_from (handlePlayerInput (makeAIMove st g).1 i) st' →
      engine_turn_from st st'.

(** The score of the root call of [minimax] in [getOptimalMove]. *)
Definition rootScore (st : state) : num :=
  score (minimax (aiPlayer st) (humanPlayer st) (board st) (aiPlayer st)
                 true 0 NegInf PosInf).1.

(** The human side played by the Expert policy: a click on the cell that
    [getOptimalMove] returns when asked for the human's mark. *)
Definition expertReply (st : state) : state :=
  match (getOptimalMove (humanPlayer st) (aiPlayer st) (board st)).1 with
  | Some i => handlePlayerInput st i
  | None => st
  end.

(** [rounds] exchanges of an engine move and an Expert reply. *)
Fixpoint expertGame (rounds : nat) (st : state) (g : rng) : state :=
  match rounds with
  | O => st
  | S rounds => let (st, g) := makeAIMove st g in expertGame rounds (expertReply st) g
  end.

(** ** Unpruned minimax, as the specification describes the search

    This definition follows the words of the specification, not the code.
    Terminal scoring with the depth adjustment ([10 - d] for an engine win
    found at depth [d], [-10 + d] for a win of the opponent, [0] when no
    move is left or the cap of nine plies is reached); at a maximizing ply
    the engine's mark is placed in every empty cell in ascending order and
    the largest child score is taken, at a minimizing ply the opponent's
    mark and the smallest; the move is the first index, in ascending scan
    order, whose child achieves the optimal score. *)

Section Unpruned.
Variables ai human : player.

Definition mover (isMaximizing : bool) : player :=
  if isMaximizing then ai else human.

Definition optimum (isMaximizing : bool) (v : Z) (vs : list Z) : Z :=
  foldl (if isMaximizing then Z.max else Z.min) v vs.

Fixpoint unpruned_score (plies : nat) (b : Board) (isMaximizing : bool)
    (depth : nat) : Z :=
  if checkForWin ai b then (10 - Z.of_nat depth)%Z
  else if checkForWin human b then (-10 + Z.of_nat depth)%Z
  else match plies with
       | O => 0%Z
       | S plies =>
           match List.map (fun i => unpruned_score plies
                                 (set b i (Mark (mover isMaximizing)))
                                 (negb isMaximizing) (S depth))
                          (getEmptyIndices b) with
           | [] => 0%Z
           | v :: vs => optimum isMaximizing v vs
           end
       end.

Definition unpruned_index (plies : nat) (b : Board) (isMaximizing : bool)
    (depth : nat) : option nat :=
  if checkForWin ai b then None
  else if checkForWin human b then None
  else match plies with
       | O => None
       | S plies' =>
           List.find (fun i => (unpruned_score plies'
                                  (set b i (Mark (mover isMaximizing)))
                                  (negb isMaximizing) (S depth)
                                =? unpruned_score plies b isMaximizing depth)%Z)
                     (getEmptyIndices b)
       end.

(** The move of the unpruned search from the position handed to
    [getOptimalMove]: the engine to move, depth 0, nine plies at most. *)
Definition unpruned_move (b : Board) : option nat := unpruned_index 9 b true 0.
End Unpruned.

(** ** Definitions that the proofs use *)

(** The order on [num], as propositions. *)
Definition num_lt (a b : num) : Prop := num_ltb a b = true.
Definition num_le (a b : num) : Prop := num_ltb b a = false.

(** The order and the equality of [num] as propositions that compute to
    integer comparisons once the numbers are known to be finite or not. *)
Definition num_ltP (a b : num) : Prop :=
  match a, b with
  | NegInf, NegInf => False
  | NegInf, _ => True
  | Fin _, NegInf => False
  | Fin x, Fin y => (x < y)%Z
  | Fin _, PosInf => True
  | PosInf, _ => False
  end.

Definition num_leP (a b : num) : Prop :=
  match a, b with
  | NegInf, _ => True
  | Fin _, NegInf => False
  | Fin x, Fin y => (x <= y)%Z
  | Fin _, PosInf => True
  | PosInf, PosInf => True
  | PosInf, _ => False
  end.

Definition num_eqP (a b : num) : Prop :=
  match a, b with
  | NegInf, NegInf | PosInf, PosInf => True
  | Fin x, Fin y => x = y
  | _, _ => False
  end.

(** The running best of a scan that replaces the best move on strict
    improvement only; [minimax_loop] without the window. *)
Fixpoint first_best (isMaximizing : bool) (best : move) (l : list (nat * num)) : move :=
  match l with
  | [] => best
  | (i, s) :: rest =>
      first_best isMaximizing
        (if (if isMaximizing then num_ltb (score best) s else num_ltb s (score best))
         then mkMove s (Some i) else best)
        rest
  end.

(** What a fail-soft alpha-beta search owes its caller about a node of
    exact value [u], searched with the window [(alpha, beta)]. *)
Definition window_ok (alpha beta : num) (u r : move) : Prop :=
  (num_le (score u) alpha → num_le (score r) alpha)
  ∧ (num_lt alpha (score u) → num_lt (score u) beta → r = u)
  ∧ (num_le beta (score u) → num_le beta (score r)).

(** The recursive call of [minimax_loop], on the array with the mark of
    [p] at [i], returns the array as it was and a score that stands to the
    exact child score [cv i] as a fail-soft search owes. *)
Definition rec_ok (rec : Board → num → num → option (move * Board))
    (p : player) (cv : nat → num) (b : Board) (i : nat) : Prop :=
  ∀ a c, num_lt a c →
    ∃ r1, rec (set b i (Mark p)) a c = Some (r1, set b i (Mark p))
          ∧ (num_le (cv i) a → num_le (score r1) a)
          ∧ (num_lt a (cv i) → num_lt (cv i) c → score r1 = cv i)
          ∧ (num_le c (cv i) → num_le c (score r1)).

(** The unpruned result as a [move]. *)
Definition unpruned (ai human : player) (plies : nat) (b : Board)
    (isMaximizing : bool) (depth : nat) : move :=
  mkMove (Fin (unpruned_score ai human plies b isMaximizing depth))
         (unpruned_index ai human plies b isMaximizing depth).

(** The unpruned score of the child reached by placing the mover's mark
    at [i]. *)
Definition child_score (ai human : player) (plies : nat) (b : Board)
    (isMax : bool) (depth : nat) (i : nat) : Z :=
  unpruned_score ai human plies (set b i (Mark (mover ai human isMax)))
                 (negb isMax) (S depth).

(** [can_complete p b k]: the cell [k] is the empty cell of a winning
    combination that holds two marks of [p] and one empty cell. *)
Definition can_complete (p : player) (b : Board) (k : nat) : bool :=
  is_null (get b k)
  && existsb (fun combo => completable p b combo && includes combo k)
             WINNING_COMBINATIONS.

(** [wins_at p b k]: placing [p]'s mark in the empty cell [k] completes a
    combination. *)
Definition wins_at (p : player) (b : Board) (k : nat) : bool :=
  is_null (get b k) && checkForWin p (set b k (Mark p)).

(** ** Boards used as examples *)

(** The two marks as cells. *)
Definition MX : cell := Mark PLAYER_X.
Definition MO : cell := Mark PLAYER_O.

(** X (the engine) wins at once at 6, and in three moves from 0, 2, 4
    or 5. *)
Definition board_fast_and_slow_win : Board :=
  [Null; MO; Null;
   MO; Null; Null;
   Null; MX; MX].

(** O can complete the row 3-4-5 at 5, X the row 0-1-2 at 2. *)
Definition board_win_or_block : Board :=
  [MX; MX; Null;
   MO; MO; Null;
   Null; Null; Null].

(** X can complete nothing, O the row 3-4-5 at 5 only. *)
Definition board_single_threat : Board :=
  [MX; Null; Null;
   MO; MO; Null;
   Null; Null; MX].

(** X can complete nothing, O the diagonal 2-4-6 at 2 and the row 6-7-8
    at 7. *)
Definition board_double_threat : Board :=
  [MX; Null; Null;
   MX; MO; MX;
   MO; Null; MO].

(** X has completed the row 0-1-2; O could still fill the row 3-4-5. *)
Definition board_decided : Board :=
  [MX; MX; MX;
   MO; MO; Null;
   Null; Null; Null].

(** A board without an empty cell and without a completed combination. *)
Definition board_full : Board :=
  [MX; MO; MX;
   MX; MO; MO;
   MO; MX; MX].

(** The numbers that [Math.random()] returns: the binary64 numbers that are
    at least 0 and less than 1.  The last condition is
    [significand * 2 ^ exponent < 1]. *)
Definition unit_float (x : float) : Prop :=
  (0 <= significand x < 2 ^ 53)%Z ∧ (-1074 <= exponent x)%Z
  ∧ (significand x < 2 ^ (- exponent x))%Z.

(** The numbers 0, 0.25, 0.375 and 0.5. *)
Definition float_0 : float := mkFloat 0 (-1074).
Definition float_1_4 : float := mkFloat 1 (-2).
Definition float_3_8 : float := mkFloat 3 (-3).
Definition float_1_2 : float := mkFloat 1 (-1).

(** A binary64 number just below 4/7: [2573485501354569 / 2 ^ 52], whose
    exact product with 7 is [4 - 2 ^ -52]. *)
Definition float_below_4_7 : float := mkFloat 2573485501354569 (-52).

(** A source of random numbers that returns the numbers of [l] in turn and
    0 after them. *)
Definition rng_of (l : list float) : rng := fun n => default float_0 (l !! n).

(** A source of random numbers that keeps returning [r]. *)
Definition constant_rng (r : float) : rng := fun _ => r.

(** The candidate set of [getRandomMove]: the empty center and corners
    when the first draw is below 0.3 and there is one, all the empty cells
    otherwise. *)
Definition casual_candidates (b : Board) (r : float) : list nat :=
  if float_ltb r literal_0_3
     && (0 <? length (List.filter preferred (getEmptyIndices b)))
  then List.filter preferred (getEmptyIndices b)
  else getEmptyIndices b.

(** [r] lies in the [k]-th of [n] intervals of equal length that make up
    [0, 1): [k / n <= r < (k + 1) / n], that is [k <= r * n < k + 1] for
    the exact product, written for [r = significand * 2 ^ exponent]
    without the division. *)
Definition in_slot (k n : nat) (r : float) : Prop :=
  (Z.of_nat k * 2 ^ (- exponent r) <= significand r * Z.of_nat n
   < (Z.of_nat k + 1) * 2 ^ (- exponent r))%Z.

(** [r] is so close to the upper end of its interval that the exact
    product is above [(k + 1) * (1 - 2 ^ -53)]; only then can the
    binary64 product round up to [k + 1]. *)
Definition rounds_up (k n : nat) (r : float) : Prop :=
  ((Z.of_nat k + 1) * (2 ^ 53 - 1) * 2 ^ (- exponent r)
   < significand r * Z.of_nat n * 2 ^ 53)%Z.

(** The board after the first two moves: X in a corner, O in the
    center. *)
Definition board_opened : Board :=
  [MX; Null; Null;
   Null; MO; Null;
   Null; Null; Null].

(** A board with three cells only, and a board of nine cells of which one
    holds neither [null] nor a mark. *)
Definition board_short : Board := [Null; Null; Null].

Definition board_stray_value : Board :=
  [Other; Null; Null;
   Null; Null; Null;
   Null; Null; Null].

(** A round in play on the board [b] at difficulty [d], the engine
    playing X and about to move. *)
Definition state_on (d : string) (b : Board) : state :=
  mkState PLAYING PLAYER_O PLAYER_X PLAYER_X d b.

(** Whether a call completed by throwing. *)
Definition is_thrown {A : Type} (c : completion A) : bool :=
  match c with Throw _ => true | Normal _ => false end.

(** ** Exploring the Expert rounds *)

(** The root score of the search at [st] is a number at least 0. *)
Definition score_nonneg (st : state) : bool :=
  match rootScore st with Fin z => (0 <=? z)%Z | _ => false end.

(** [check_turns n st]: at [st] and at every engine turn that follows
    within [n] exchanges the difficulty is ['hard'] and the root score is
    not negative, the engine's move passes the turn or ends the round, and
    no turn is left unexplored after [n] exchanges. *)
Fixpoint check_turns (n : nat) (st : state) : bool :=
  match n with
  | O => false
  | S n =>
      String.eqb (difficulty st) "hard" && score_nonneg st
      && let st1 := (makeAIMove st (constant_rng float_0)).1 in
         if is_playing (gameState st1) then
           negb (player_eqb (currentPlayer st1) (aiPlayer st1))
           && forallb (fun i =>
                let st2 := handlePlayerInput st1 i in
                if is_playing (gameState st2)
                   && player_eqb (currentPlayer st2) (aiPlayer st2)
                then check_turns n st2 else true)
              (getEmptyIndices (board st1))
         else true
  end.

(** ** Keyboard focus

    [this.state.keyboardIndex] is not part of [state] above; the two
    functions that compute it are modelled on the index itself. *)

Definition navigationKeys : list string :=
  ["ArrowUp"; "ArrowDown"; "ArrowLeft"; "ArrowRight";
   "Home"; "End"; "PageUp"; "PageDown"; "Enter"; " "].

(** [handleKeyboardNavigation(event)]: the value of
    [this.state.keyboardIndex] after the key [key].  ([Enter] and the
    space bar click the focused cell and leave the index alone.) *)
Definition handleKeyboardNavigation (key : string) (keyboardIndex : nat) : nat :=
  if negb (existsb (String.eqb key) navigationKeys) then keyboardIndex
  else
    let currentRow := keyboardIndex / 3 in
    let currentCol := keyboardIndex mod 3 in
    let moved (newRow newCol : nat) := newRow * 3 + newCol in
    if String.eqb key "ArrowUp" then moved ((currentRow + 2) mod 3) currentCol
    else if String.eqb key "ArrowDown" then moved ((currentRow + 1) mod 3) currentCol
    else if String.eqb key "ArrowLeft" then moved currentRow ((currentCol + 2) mod 3)
    else if String.eqb key "ArrowRight" then moved currentRow ((currentCol + 1) mod 3)
    else if String.eqb key "Home" then moved 0 0
    else if String.eqb key "End" then moved 2 2
    else if String.eqb key "PageUp" then moved 0 currentCol
    else if String.eqb key "PageDown" then moved 2 currentCol
    else keyboardIndex.

(** [focusNextEmptyCell(fromIndex)]: the new [keyboardIndex], or [None]
    when the function returns without setting it. *)
Definition focusNextEmptyCell (b : Board) (fromIndex : nat) : option nat :=
  let emptyIndices := getEmptyIndices b in
  if length emptyIndices =? 0 then None
  else
    match List.find (fun index => fromIndex <? index) emptyIndices with
    | Some targetIndex => Some targetIndex
    | None => head emptyIndices
    end.

(** ** Definitions for the further properties *)

(** The test of [findForkMove] on the cell [i], evaluated on a copy of the
    array: placing [p]'s mark there leaves at least two combinations with
    two marks of [p] and one empty cell. *)
Definition fork_at (p : player) (b : Board) (i : nat) : bool :=
  2 <=? length (List.filter (completable p (set b i (Mark p))) WINNING_COMBINATIONS).

(** The test of the second loop of [findBlockForkMove] on the cell [i],
    evaluated on copies of the array: the engine's mark at [i] makes a
    combination completable, and once the opponent has filled its empty
    cell the opponent has no fork. *)
Definition forces_defense (ai human : player) (b : Board) (i : nat) : bool :=
  match findWinningMove ai (set b i (Mark ai)) with
  | Some forcedDefense =>
      let b' := set (set b i (Mark ai)) forcedDefense (Mark human) in
      match List.find (fork_at human b') (getEmptyIndices b') with
      | None => true
      | Some _ => false
      end
  | None => false
  end.

(** X at two opposite corners, O in the centre:
    [[X,null,null,null,O,null,null,null,X]]. *)
Definition board_diagonal : Board :=
  [Mark PLAYER_X; Null; Null; Null; Mark PLAYER_O; Null; Null; Null; Mark PLAYER_X].

(** The number of marks of [p] on the board. *)
Definition marks (p : player) (b : Board) : nat := count (is_player p) b.

(** The recorded game state agrees with the board. *)
Definition outcome_ok (st : state) : Prop :=
  match gameState st with
  | PLAYING => checkForWin PLAYER_X (board st) = false
               ∧ checkForWin PLAYER_O (board st) = false
               ∧ getEmptyIndices (board st) ≠ []
  | X_WINS => checkForWin PLAYER_X (board st) = true
              ∧ checkForWin PLAYER_O (board st) = false
  | O_WINS => checkForWin PLAYER_O (board st) = true
              ∧ checkForWin PLAYER_X (board st) = false
  | DRAW => checkForDraw (board st) = true
  end.

(** The marks alternate, X first: while the round is on, X has as many
    marks as O when X is to move and one more when O is to move; after it
    X has as many as O or one more. *)
Definition balanced (st : state) : Prop :=
  if is_playing (gameState st) then
    marks PLAYER_X (board st)
    = marks PLAYER_O (board st)
      + (match currentPlayer st with PLAYER_X => 0 | PLAYER_O => 1 end)
  else
    marks PLAYER_O (board st) ≤ marks PLAYER_X (board st)
    ∧ marks PLAYER_X (board st) ≤ marks PLAYER_O (board st) + 1.

(** The board with the two marks exchanged. *)
Definition swap_cell (c : cell) : cell :=
  match c with Mark p => Mark (other p) | c => c end.

Definition swap_board (b : Board) : Board := List.map swap_cell b.

(** A result of [minimax] with the marks of its board exchanged. *)
Definition swap_result (r : move * Board) : move * Board := (r.1, swap_board r.2).

(** ** Rounds at difficulty ['hard'] *)

(** A fresh round at difficulty ['hard'] in which the human plays
    [human]; X opens. *)
Definition hardRound (human : player) : state :=
  handleHumanPlayerChange (handleDifficultyChange initializeState "hard") human.

(** [round_from st st']: the round can come from [st] to [st'] by calls of
    [makeAIMove] and clicks of the human on any cell, in any order. *)
Inductive round_from : state → state → Prop :=
  | round_here (st : state) : round_from st st
  | round_ai (st : state) (g : rng) (st' : state) :
      round_from (makeAIMove st g).1 st' → round_from st st'
  | round_click (st : state) (i : nat) (st' : state) :
      round_from (handlePlayerInput st i) st' → round_from st st'.

(** The game state that [endGame] records for a win of [p]. *)
Definition won_by (p : player) : GAME_STATES :=
  match p with PLAYER_X => X_WINS | PLAYER_O => O_WINS end.

(** The human has not won: no combination holds three marks of the human
    and the recorded state is not the human's win. *)
Definition not_lost (st : state) : bool :=
  negb (checkForWin (humanPlayer st) (board st))
  && match gameState st, humanPlayer st with
     | X_WINS, PLAYER_X | O_WINS, PLAYER_O => false
     | _, _ => true
     end.

(** [explore n st]: in [st] and in every state that [n] more moves of a
    'hard' round can lead to, the human has not won, and after [n] moves
    the round is over. *)
Fixpoint explore (n : nat) (st : state) : bool :=
  not_lost st
  && String.eqb (difficulty st) "hard"
  && negb (player_eqb (humanPlayer st) (aiPlayer st))
  && if is_playing (gameState st) then
       match n with
       | O => false
       | S n =>
           if player_eqb (currentPlayer st) (aiPlayer st)
           then explore n (makeAIMove st (constant_rng float_0)).1
           else forallb (fun i => explore n (handlePlayerInput st i))
                        (getEmptyIndices (board st))
       end
     else true.

(** ** The states of the page *)

(** The states that the handlers of the page lead to from the initial
    one: a change of the difficulty or of the human's mark, a new round,
    a call of [makeAIMove], a click on a cell. *)
Inductive reachable : state → Prop :=
  | reach_init : reachable initializeState
  | reach_difficulty (st : state) (selectedDifficulty : string) :
      reachable st → reachable (handleDifficultyChange st selectedDifficulty)
  | reach_human (st : state) (selectedPlayer : player) :
      reachable st → reachable (handleHumanPlayerChange st selectedPlayer)
  | reach_round (st : state) :
      reachable st → reachable (startNewRound st)
  | reach_ai (st : state) (g : rng) :
      reachable st → reachable (makeAIMove st g).1
  | reach_click (st : state) (i : nat) :
      reachable st → reachable (handlePlayerInput st i).

(** Every number drawn from [g] is in [0, 1), as [Math.random]
    promises. *)
Definition unit_rng (g : rng) : Prop := ∀ n, unit_float (g n).

(** A round that the page reaches at difficulty ['hard'] with moves played
    at ['easy']: the human chooses O, the engine, at the initial
    difficulty ['easy'], plays 0, 3 and 5 against the clicks on 4, 6 and
    8, and then the difficulty is changed to ['hard']
    ([handleDifficultyChange] accepts the change in the middle of a
    round). *)
Definition switchedRound : state :=
  handleDifficultyChange
    (handlePlayerInput
       (makeAIMove
          (handlePlayerInput
             (makeAIMove
                (handlePlayerInput
                   (makeAIMove (handleHumanPlayerChange initializeState PLAYER_O)
                               (constant_rng float_0)).1 4)
                (constant_rng float_3_8)).1 6)
          (constant_rng float_1_2)).1 8)
    "hard".

(** * Proofs *)

(** ** Order on [num] *)

Lemma num_ltb_true_iff a b : num_ltb a b = true ↔ num_ltP a b.
Proof. destruct a, b; cbn; rewrite ?Z.ltb_lt; intuition congruence. Qed.

Lemma num_ltb_false_iff a b : num_ltb a b = false ↔ num_leP b a.
Proof. destruct a, b; cbn; rewrite ?Z.ltb_ge; intuition congruence. Qed.

Lemma num_eq_iff (a b : num) : a = b ↔ num_eqP a b.
Proof. destruct a, b; cbn; intuition congruence. Qed.

Ltac num_unfold :=
  unfold num_le, num_lt, num_leb, num_max, num_min in *.

(** Order goals over [num]: split on the comparisons that guard an [if],
    then on each number being finite or infinite, and finish by [lia]. *)
Ltac num_lia :=
  repeat match goal with
         | m : move |- _ => destruct m
         end;
  num_unfold; cbn [score index] in *;
  rewrite ?negb_true_iff, ?negb_false_iff in *;
  rewrite ?num_ltb_true_iff, ?num_ltb_false_iff, ?num_eq_iff in *;
  repeat match goal with
         | |- context [if num_ltb ?a ?b then _ else _] =>
             let E := fresh "E" in
             destruct (num_ltb a b) eqn:E;
             rewrite ?num_ltb_true_iff, ?num_ltb_false_iff in E
         | H : context [if num_ltb ?a ?b then _ else _] |- _ =>
             let E := fresh "E" in
             destruct (num_ltb a b) eqn:E;
             rewrite ?num_ltb_true_iff, ?num_ltb_false_iff in E
         end;
  cbn [score index] in *;
  repeat match goal with
         | x : num |- _ => destruct x
         end;
  cbn [num_ltP num_leP num_eqP] in *;
  first [ done | lia ].

(** ** Facts about the array operations *)

Lemma omap_id_cons (x : option nat) (l : list (option nat)) :
  omap id (x :: l) = match x with Some y => y :: omap id l | None => omap id l end.
Proof. destruct x; reflexivity. Qed.

Lemma getEmptyIndices_shift (k : nat) (b : Board) :
  omap id (imap (fun index c => if is_null c then Some (k + index) else None) b)
  = List.filter (fun i => is_null (get b (i - k))) (seq k (length b)).
Proof.
  revert k. induction b as [|c b IH]; intros k; [reflexivity|].
  rewrite imap_cons, omap_id_cons.
  assert (Hrest :
    omap id (imap ((fun index c0 => if is_null c0 then Some (k + index) else None) ∘ S) b)
    = List.filter (fun i => is_null (get (c :: b) (i - k))) (seq (S k) (length b))).
  { transitivity (omap id (imap
      (fun index c0 => if is_null c0 then Some (S k + index) else None) b)).
    - f_equal. apply imap_ext. intros i x _. cbn.
      replace (k + S i) with (S (k + i)) by lia. reflexivity.
    - rewrite (IH (S k)). apply List.filter_ext_in. intros i Hi%in_seq.
      replace (i - k) with (S (i - S k)) by lia. reflexivity. }
  rewrite Hrest. cbn [length seq List.filter].
  replace (k - k) with 0 by lia. replace (k + 0) with k by lia.
  destruct c; reflexivity.
Qed.

(** [getEmptyIndices] lists, in ascending order, the indices that hold
    [null]. *)
Lemma getEmptyIndices_filter (b : Board) :
  getEmptyIndices b = List.filter (fun i => is_null (get b i)) (seq 0 (length b)).
Proof.
  unfold getEmptyIndices. rewrite <- (List.filter_ext_in
    (fun i => is_null (get b (i - 0))) (fun i => is_null (get b i))).
  - apply (getEmptyIndices_shift 0).
  - intros i _. replace (i - 0) with i by lia. reflexivity.
Qed.

Lemma get_null (b : Board) (i : nat) : is_null (get b i) = true ↔ b !! i = Some Null.
Proof.
  unfold get. destruct (b !! i) as [[]|]; cbn; split; intros; congruence.
Qed.

Lemma elem_of_getEmptyIndices (b : Board) (i : nat) :
  i ∈ getEmptyIndices b ↔ b !! i = Some Null.
Proof.
  rewrite getEmptyIndices_filter, list_elem_of_In, filter_In, in_seq, get_null.
  split; [tauto|]. intros H. split; [|done]. apply lookup_lt_Some in H. lia.
Qed.

Lemma set_get_eq (b : Board) (i : nat) (v : cell) :
  i < length b → get (set b i v) i = v.
Proof. intros H. unfold get, set. by rewrite list_lookup_insert_eq. Qed.

Lemma set_get_ne (b : Board) (i j : nat) (v : cell) :
  i ≠ j → get (set b i v) j = get b j.
Proof. intros H. unfold get, set. by rewrite list_lookup_insert_ne. Qed.

(** Writing a mark into an empty cell and then [null] again gives the
    array back. *)
Lemma set_revert (b : Board) (i : nat) (v : cell) :
  b !! i = Some Null → set (set b i v) i Null = b.
Proof.
  intros H. unfold set. rewrite list_insert_insert_eq. by apply list_insert_id.
Qed.

(** ** The search leaves the array as it found it, and returns *)

Section MinimaxFrame.
Variables ai human : player.

Lemma minimax_loop_frame rec p isMax l (b : Board) best alpha beta r b' :
  (∀ i, i ∈ l → b !! i = Some Null) →
  (∀ i a c r1 b1, i ∈ l →
     rec (set b i (Mark p)) a c = Some (r1, b1) → b1 = set b i (Mark p)) →
  minimax_loop rec p isMax l b best alpha beta = Some (r, b') → b' = b.
Proof.
  revert best alpha beta. induction l as [|i l IH]; intros best alpha beta Hnull Hrec.
  - cbn. congruence.
  - cbn [minimax_loop].
    destruct (rec (set b i (Mark p)) alpha beta) as [[r1 b1]|] eqn:E; [|done].
    apply Hrec in E; [|left]. subst b1.
    rewrite set_revert by (apply Hnull; left).
    destruct (num_leb _ _); [congruence|].
    apply IH.
    + intros j Hj. apply Hnull. by right.
    + intros j a c r2 b2 Hj. apply Hrec. by right.
Qed.

Lemma minimax_fuel_frame fuel (b : Board) p isMax depth alpha beta r b' :
  minimax_fuel ai human fuel b p isMax depth alpha beta = Some (r, b') → b' = b.
Proof.
  revert b p isMax depth alpha beta r b'.
  induction fuel as [|fuel IH]; intros b p isMax depth alpha beta r b'; [done|].
  cbn [minimax_fuel].
  repeat (case_match; [congruence|]).
  apply minimax_loop_frame.
  - intros i. apply elem_of_getEmptyIndices.
  - intros i a c r1 b1 _. apply IH.
Qed.

Lemma minimax_loop_total rec p isMax l (b : Board) best alpha beta :
  (∀ i, i ∈ l → b !! i = Some Null) →
  (∀ i a c, i ∈ l → ∃ r1, rec (set b i (Mark p)) a c = Some (r1, set b i (Mark p))) →
  ∃ r, minimax_loop rec p isMax l b best alpha beta = Some (r, b).
Proof.
  revert best alpha beta. induction l as [|i l IH]; intros best alpha beta Hnull Hrec.
  - cbn. eauto.
  - cbn [minimax_loop].
    destruct (Hrec i alpha beta) as [r1 ->]; [left|].
    rewrite set_revert by (apply Hnull; left).
    destruct (num_leb _ _); [eauto|].
    apply IH.
    + intros j Hj. apply Hnull. by right.
    + intros j a c Hj. apply Hrec. by right.
Qed.

(** With at least [10 - depth] levels of fuel, and at least one, the
    search returns. *)
Lemma minimax_fuel_total fuel (b : Board) p isMax depth alpha beta :
  0 < fuel → 10 ≤ fuel + depth →
  ∃ r, minimax_fuel ai human fuel b p isMax depth alpha beta = Some (r, b).
Proof.
  revert b p isMax depth alpha beta.
  induction fuel as [|fuel IH]; intros b p isMax depth alpha beta Hpos Hfuel; [lia|].
  cbn [minimax_fuel].
  repeat (case_match; [by eauto|]).
  apply minimax_loop_total.
  - intros i. apply elem_of_getEmptyIndices.
  - intros i a c _. apply IH.
    + match goal with H : (8 <? depth) = false |- _ => apply Nat.ltb_ge in H end. lia.
    + lia.
Qed.

Lemma minimax_total (b : Board) p isMax depth alpha beta :
  ∃ r, minimax_fuel ai human (S (9 - depth)) b p isMax depth alpha beta = Some (r, b)
       ∧ minimax ai human b p isMax depth alpha beta = (r, b).
Proof.
  destruct (minimax_fuel_total (S (9 - depth)) b p isMax depth alpha beta)
    as [r Hr]; [lia..|].
  exists r. split; [done|]. unfold minimax. by rewrite Hr.
Qed.
End MinimaxFrame.

(** ** The fork heuristics leave the array as they found it *)

Lemma indexOf_null_lookup (positions : list cell) (k : nat) :
  indexOf_null positions = Some k → positions !! k = Some Null.
Proof.
  revert k. induction positions as [|c rest IH]; intros k; cbn; [done|].
  destruct c; cbn; try (intros [= <-]; done);
    destruct (indexOf_null rest) as [j|]; cbn; try done;
    intros [= <-]; cbn; by apply IH.
Qed.

Lemma findWinningMove_in_null combos p (b : Board) (k : nat) :
  findWinningMove_in combos p b = Some k → b !! k = Some Null.
Proof.
  induction combos as [|combo rest IH]; cbn; [done|].
  destruct (completable p b combo); [|done].
  destruct (indexOf_null (List.map (get b) combo)) as [j|] eqn:Ej; cbn; [|done].
  intros Hk. apply indexOf_null_lookup in Ej.
  change (List.map (get b) combo) with (get b <$> combo) in Ej.
  rewrite list_lookup_fmap, Hk in Ej. cbn in Ej.
  apply get_null. by injection Ej as ->.
Qed.

(** The cell returned by [findWinningMove] holds [null]. *)
Lemma findWinningMove_null p (b : Board) (k : nat) :
  findWinningMove p b = Some k → b !! k = Some Null.
Proof. apply findWinningMove_in_null. Qed.

Lemma findForkMove_loop_frame p l (b : Board) :
  (∀ i, i ∈ l → b !! i = Some Null) → (findForkMove_loop p l b).2 = b.
Proof.
  induction l as [|i l IH]; intros Hnull; cbn [findForkMove_loop]; [done|].
  rewrite set_revert by (apply Hnull; left).
  destruct (2 <=? _); [done|]. apply IH. intros j Hj. apply Hnull. by right.
Qed.

Lemma findForkMove_frame p (b : Board) : (findForkMove p b).2 = b.
Proof. apply findForkMove_loop_frame. intros i. apply elem_of_getEmptyIndices. Qed.

Lemma findBlockForkMove_loop_frame ai human l (b : Board) :
  (∀ i, i ∈ l → b !! i = Some Null) → (findBlockForkMove_loop ai human l b).2 = b.
Proof.
  induction l as [|i l IH]; intros Hnull; cbn [findBlockForkMove_loop]; [done|].
  assert (Hi : b !! i = Some Null) by (apply Hnull; left).
  assert (Hl : (findBlockForkMove_loop ai human l b).2 = b).
  { apply IH. intros j Hj. apply Hnull. by right. }
  destruct (findWinningMove ai (set b i (Mark ai))) as [fd|] eqn:Efd.
  - apply findWinningMove_null in Efd.
    pose proof (findForkMove_frame human (set (set b i (Mark ai)) fd (Mark human))) as Hf.
    destruct (findForkMove human _) as [remainingForks b'].
    cbn in Hf. subst b'. rewrite (set_revert _ _ _ Efd), (set_revert _ _ _ Hi).
    by destruct remainingForks.
  - by rewrite (set_revert _ _ _ Hi).
Qed.

Lemma findBlockForkMove_frame ai human (b : Board) :
  (findBlockForkMove ai human b).2 = b.
Proof.
  unfold findBlockForkMove.
  pose proof (findForkMove_frame human b) as Hf.
  destruct (findForkMove human b) as [humanFork b']. cbn in Hf. subst b'.
  destruct humanFork; [done|].
  apply findBlockForkMove_loop_frame. intros i. apply elem_of_getEmptyIndices.
Qed.

Lemma getStrategicMove_frame ai human l (b : Board) g :
  (getStrategicMove ai human l b g).1.2 = b.
Proof.
  unfold getStrategicMove.
  destruct (findWinningMove ai b); [done|].
  destruct (findWinningMove human b); [done|].
  pose proof (findForkMove_frame ai b) as Hf.
  destruct (findForkMove ai b) as [forkMove b']. cbn in Hf. subst b'.
  destruct forkMove; [done|].
  pose proof (findBlockForkMove_frame ai human b) as Hf.
  destruct (findBlockForkMove ai human b) as [blockForkMove b']. cbn in Hf. subst b'.
  destruct blockForkMove; [done|].
  destruct (includes l CENTER); [done|].
  destruct (cornerEdgeMove l g) as [m g'].
  destruct (findOppositeCorner human b) as [oc|]; [|done].
  by destruct (includes l oc).
Qed.

Lemma minimax_frame ai human (b : Board) p isMax depth alpha beta :
  (minimax ai human b p isMax depth alpha beta).2 = b.
Proof.
  destruct (minimax_total ai human b p isMax depth alpha beta) as (r & _ & ->). done.
Qed.

Lemma getOptimalMove_frame ai human (b : Board) : (getOptimalMove ai human b).2 = b.
Proof.
  unfold getOptimalMove.
  pose proof (minimax_frame ai human b ai true 0 NegInf PosInf) as Hf.
  by destruct (minimax ai human b ai true 0 NegInf PosInf).
Qed.

Lemma first_best_max_ge best l :
  num_le (score best) (score (first_best true best l)).
Proof.
  revert best. induction l as [|[i s] l IH]; intros best; cbn [first_best].
  - num_lia.
  - match goal with |- context [first_best true ?b l] => specialize (IH b) end.
    destruct best as [bs bi]. revert IH.
    generalize (first_best true (if num_ltb (score (mkMove bs bi)) s
                                 then mkMove s (Some i) else mkMove bs bi) l).
    intros [us ui]. cbn [score].
    destruct (num_ltb bs s) eqn:E; cbn [score]; intros; num_lia.
Qed.

Lemma first_best_min_le best l :
  num_le (score (first_best false best l)) (score best).
Proof.
  revert best. induction l as [|[i s] l IH]; intros best; cbn [first_best].
  - num_lia.
  - match goal with |- context [first_best false ?b l] => specialize (IH b) end.
    destruct best as [bs bi]. revert IH.
    generalize (first_best false (if num_ltb s (score (mkMove bs bi))
                                  then mkMove s (Some i) else mkMove bs bi) l).
    intros [us ui]. cbn [score].
    destruct (num_ltb s bs) eqn:E; cbn [score]; intros; num_lia.
Qed.

(** ** Alpha-beta against the unpruned scan *)

Section LoopSpec.
Variable rec : Board → num → num → option (move * Board).
Variable p : player.
Variable cv : nat → num.

Lemma minimax_loop_max l (b : Board) best ub a beta alpha0 :
  (∀ i, i ∈ l → b !! i = Some Null) →
  (∀ i, i ∈ l → rec_ok rec p cv b i) →
  num_lt a beta →
  a = num_max alpha0 (score best) →
  (num_lt alpha0 (score ub) → best = ub) →
  (num_le (score ub) alpha0 → num_le (score best) alpha0) →
  ∃ r, minimax_loop rec p true l b best a beta = Some (r, b)
       ∧ window_ok alpha0 beta
           (first_best true ub (List.map (fun i => (i, cv i)) l)) r.
Proof.
  revert best ub a.
  induction l as [|i l IH]; intros best ub a Hnull Hrec Hab Ha Hgt Hle.
  - cbn. eexists; split; [done|]. subst a. unfold window_ok.
    split; [done|]. split; [auto|].
    intros Hb. rewrite Hgt; [done|]. clear -Hab Hb. num_lia.
  - cbn [minimax_loop List.map first_best].
    destruct (Hrec i (list_elem_of_here _ _) a beta Hab) as (r1 & -> & F1 & F2 & F3).
    rewrite set_revert by (apply Hnull; left).
    assert (Hnull' : ∀ j, j ∈ l → b !! j = Some Null)
      by (intros j Hj; apply Hnull; by right).
    assert (Hrec' : ∀ j, j ∈ l → rec_ok rec p cv b j)
      by (intros j Hj; apply Hrec; by right).
    clear Hnull Hrec.
    destruct ub as [us ui], best as [bs bi], r1 as [rs ri]. cbn [score] in *.
    assert (Hgt' : num_lt alpha0 us → bs = us ∧ bi = ui).
    { intros Hx. specialize (Hgt Hx). by inversion Hgt. }
    clear Hgt. revert F1 F2 F3. generalize (cv i). intros v F1 F2 F3.
    destruct (num_leb beta (num_max a rs)) eqn:Ecut.
    + (* cutoff *)
      eexists; split; [done|].
      pose proof (first_best_max_ge
        (if num_ltb us v then mkMove v (Some i) else mkMove us ui)
        (List.map (fun i => (i, cv i)) l)) as Hmono.
      revert Hmono.
      generalize (first_best true
        (if num_ltb us v then mkMove v (Some i) else mkMove us ui)
        (List.map (fun i => (i, cv i)) l)).
      intros [Us Ui] Hmono. subst a. clear IH Hrec' Hnull'.
      assert (Hv : num_le beta v) by (clear -Hab Ecut F1 F2; num_lia).
      assert (Hrs : num_le beta rs) by auto.
      assert (HUs : num_le beta Us) by (clear -Hv Hmono; num_lia).
      unfold window_ok. cbn [score].
      split; [|split].
      * intros Hx. exfalso. clear -Hx HUs Hab. num_lia.
      * intros _ Hx. exfalso. clear -Hx HUs. num_lia.
      * intros _. clear -Hrs. num_lia.
    + apply negb_false_iff in Ecut. subst a. apply IH; try done.
      * clear -Ecut. num_lia.
      * intros Hx.
        destruct (num_ltb us v) eqn:E2; cbn [score] in *.
        -- assert (rs = v) as ->.
           { apply F2; [|clear -Ecut F3; num_lia].
             destruct (num_ltb alpha0 us) eqn:Ex.
             - destruct (Hgt' Ex) as [-> _]. clear -E2 Ex. num_lia.
             - specialize (Hle Ex). clear -Hle Hx. num_lia. }
           assert (num_ltb bs v = true) as ->; [|done].
           destruct (num_ltb alpha0 us) eqn:Ex.
           ++ destruct (Hgt' Ex) as [-> _]. done.
           ++ specialize (Hle Ex). clear -Hle Hx. num_lia.
        -- destruct (Hgt' Hx) as [-> ->].
           assert (num_ltb us rs = false) as ->; [|done].
           assert (H1 : num_le rs (num_max alpha0 us)).
           { apply F1. clear -E2 Hx. num_lia. }
           clear -H1 Hx. num_lia.
      * intros Hx.
        assert (H1 : num_le us alpha0) by (clear -Hx; num_lia).
        assert (H2 : num_le v alpha0) by (clear -Hx; num_lia).
        specialize (Hle H1).
        assert (H3 : num_le rs (num_max alpha0 bs)).
        { apply F1. clear -H2. num_lia. }
        clear -Hle H3. num_lia.
Qed.

Lemma minimax_loop_min l (b : Board) best ub alpha c beta0 :
  (∀ i, i ∈ l → b !! i = Some Null) →
  (∀ i, i ∈ l → rec_ok rec p cv b i) →
  num_lt alpha c →
  c = num_min beta0 (score best) →
  (num_lt (score ub) beta0 → best = ub) →
  (num_le beta0 (score ub) → num_le beta0 (score best)) →
  ∃ r, minimax_loop rec p false l b best alpha c = Some (r, b)
       ∧ window_ok alpha beta0
           (first_best false ub (List.map (fun i => (i, cv i)) l)) r.
Proof.
  revert best ub c.
  induction l as [|i l IH]; intros best ub c Hnull Hrec Hab Hc Hlt Hge.
  - cbn. eexists; split; [done|]. subst c. unfold window_ok.
    split; [|split; [auto|done]].
    intros Hb. rewrite Hlt; [done|]. clear -Hab Hb. num_lia.
  - cbn [minimax_loop List.map first_best].
    destruct (Hrec i (list_elem_of_here _ _) alpha c Hab) as (r1 & -> & F1 & F2 & F3).
    rewrite set_revert by (apply Hnull; left).
    assert (Hnull' : ∀ j, j ∈ l → b !! j = Some Null)
      by (intros j Hj; apply Hnull; by right).
    assert (Hrec' : ∀ j, j ∈ l → rec_ok rec p cv b j)
      by (intros j Hj; apply Hrec; by right).
    clear Hnull Hrec.
    destruct ub as [us ui], best as [bs bi], r1 as [rs ri]. cbn [score] in *.
    assert (Hlt' : num_lt us beta0 → bs = us ∧ bi = ui).
    { intros Hx. specialize (Hlt Hx). by inversion Hlt. }
    clear Hlt. revert F1 F2 F3. generalize (cv i). intros v F1 F2 F3.
    destruct (num_leb (num_min c rs) alpha) eqn:Ecut.
    + (* cutoff *)
      eexists; split; [done|].
      pose proof (first_best_min_le
        (if num_ltb v us then mkMove v (Some i) else mkMove us ui)
        (List.map (fun i => (i, cv i)) l)) as Hmono.
      revert Hmono.
      generalize (first_best false
        (if num_ltb v us then mkMove v (Some i) else mkMove us ui)
        (List.map (fun i => (i, cv i)) l)).
      intros [Us Ui] Hmono. subst c. clear IH Hrec' Hnull'.
      assert (Hv : num_le v alpha) by (clear -Hab Ecut F2 F3; num_lia).
      assert (Hrs : num_le rs alpha) by auto.
      assert (HUs : num_le Us alpha) by (clear -Hv Hmono; num_lia).
      unfold window_ok. cbn [score].
      split; [|split].
      * intros _. clear -Hrs. num_lia.
      * intros Hx. exfalso. clear -Hx HUs. num_lia.
      * intros Hx. exfalso. clear -Hx HUs Hab. num_lia.
    + apply negb_false_iff in Ecut. subst c. apply IH; try done.
      * clear -Ecut. num_lia.
      * intros Hx.
        destruct (num_ltb v us) eqn:E2; cbn [score] in *.
        -- assert (rs = v) as ->.
           { apply F2; [clear -Ecut F1; num_lia|].
             destruct (num_ltb us beta0) eqn:Ex.
             - destruct (Hlt' Ex) as [-> _]. clear -E2 Ex. num_lia.
             - specialize (Hge Ex). clear -Hge Hx. num_lia. }
           assert (num_ltb v bs = true) as ->; [|done].
           destruct (num_ltb us beta0) eqn:Ex.
           ++ destruct (Hlt' Ex) as [-> _]. done.
           ++ specialize (Hge Ex). clear -Hge Hx. num_lia.
        -- destruct (Hlt' Hx) as [-> ->].
           assert (num_ltb rs us = false) as ->; [|done].
           assert (H1 : num_le (num_min beta0 us) rs).
           { apply F3. clear -E2 Hx. num_lia. }
           clear -H1 Hx. num_lia.
      * intros Hx.
        assert (H1 : num_le beta0 us) by (clear -Hx; num_lia).
        assert (H2 : num_le beta0 v) by (clear -Hx; num_lia).
        specialize (Hge H1).
        assert (H3 : num_le (num_min beta0 bs) rs).
        { apply F3. clear -H2. num_lia. }
        clear -Hge H3. num_lia.
Qed.
End LoopSpec.

(** The running best over finite scores is the optimum, at the first index
    that achieves it. *)
Lemma foldl_max_ge (m : Z) (l : list Z) : (m <= foldl Z.max m l)%Z.
Proof.
  revert m. induction l as [|x l IH]; intros m; cbn; [lia|].
  specialize (IH (Z.max m x)). lia.
Qed.

Lemma foldl_min_le (m : Z) (l : list Z) : (foldl Z.min m l <= m)%Z.
Proof.
  revert m. induction l as [|x l IH]; intros m; cbn; [lia|].
  specialize (IH (Z.min m x)). lia.
Qed.

Lemma first_best_max_fin (f : nat → Z) (l : list nat) (j : nat) (m : Z) :
  first_best true (mkMove (Fin m) (Some j)) (List.map (fun i => (i, Fin (f i))) l)
  = mkMove (Fin (foldl Z.max m (List.map f l)))
           (if (m =? foldl Z.max m (List.map f l))%Z then Some j
            else List.find (fun i => (f i =? foldl Z.max m (List.map f l))%Z) l).
Proof.
  revert j m. induction l as [|i l IH]; intros j m.
  - cbn. by rewrite Z.eqb_refl.
  - cbn [List.map first_best foldl List.find score num_ltb].
    pose proof (foldl_max_ge (Z.max m (f i)) (List.map f l)) as Hge.
    destruct (Z.ltb_spec m (f i)) as [Hlt|Hle].
    + rewrite IH. replace (Z.max m (f i)) with (f i) in * by lia.
      f_equal. destruct (Z.eqb_spec m (foldl Z.max (f i) (List.map f l))); [lia|done].
    + rewrite IH. replace (Z.max m (f i)) with m in * by lia.
      f_equal. destruct (Z.eqb_spec m (foldl Z.max m (List.map f l))); [done|].
      destruct (Z.eqb_spec (f i) (foldl Z.max m (List.map f l))); [lia|done].
Qed.

Lemma first_best_min_fin (f : nat → Z) (l : list nat) (j : nat) (m : Z) :
  first_best false (mkMove (Fin m) (Some j)) (List.map (fun i => (i, Fin (f i))) l)
  = mkMove (Fin (foldl Z.min m (List.map f l)))
           (if (m =? foldl Z.min m (List.map f l))%Z then Some j
            else List.find (fun i => (f i =? foldl Z.min m (List.map f l))%Z) l).
Proof.
  revert j m. induction l as [|i l IH]; intros j m.
  - cbn. by rewrite Z.eqb_refl.
  - cbn [List.map first_best foldl List.find score num_ltb].
    pose proof (foldl_min_le (Z.min m (f i)) (List.map f l)) as Hge.
    destruct (Z.ltb_spec (f i) m) as [Hlt|Hle].
    + rewrite IH. replace (Z.min m (f i)) with (f i) in * by lia.
      f_equal. destruct (Z.eqb_spec m (foldl Z.min (f i) (List.map f l))); [lia|done].
    + rewrite IH. replace (Z.min m (f i)) with m in * by lia.
      f_equal. destruct (Z.eqb_spec m (foldl Z.min m (List.map f l))); [done|].
      destruct (Z.eqb_spec (f i) (foldl Z.min m (List.map f l))); [lia|done].
Qed.

Lemma window_ok_refl alpha beta u : window_ok alpha beta u u.
Proof. unfold window_ok. auto. Qed.

Section MinimaxSpec.
Variables ai human : player.

Lemma evaluateBoard_cases (b : Board) :
  (checkForWin ai b = true ∧ evaluateBoard ai human b = 10%Z)
  ∨ (checkForWin ai b = false ∧ checkForWin human b = true
     ∧ evaluateBoard ai human b = (-10)%Z)
  ∨ (checkForWin ai b = false ∧ checkForWin human b = false
     ∧ evaluateBoard ai human b = 0%Z).
Proof.
  unfold evaluateBoard.
  destruct (checkForWin ai b), (checkForWin human b); auto.
Qed.

Lemma minimax_fuel_S fuel (b : Board) p isMax depth alpha beta :
  minimax_fuel ai human (S fuel) b p isMax depth alpha beta
  = let score := evaluateBoard ai human b in
    if (score =? 10)%Z then Some (mkMove (Fin (score - Z.of_nat depth)) None, b)
    else if (score =? -10)%Z then Some (mkMove (Fin (score + Z.of_nat depth)) None, b)
    else if length (getEmptyIndices b) =? 0 then Some (mkMove (Fin 0) None, b)
    else if 8 <? depth then Some (mkMove (Fin 0) None, b)
    else minimax_loop
           (fun b alpha beta =>
              minimax_fuel ai human fuel b (if isMax then human else ai)
                           (negb isMax) (S depth) alpha beta)
           p isMax (getEmptyIndices b) b
           (mkMove (if isMax then NegInf else PosInf) (head (getEmptyIndices b)))
           alpha beta.
Proof. reflexivity. Qed.

(** Fail-soft correctness of the alpha-beta search: it returns, leaves
    the array as it was, and its result stands to the unpruned result as
    [window_ok] says; inside the window the two are equal, index
    included. *)
Lemma minimax_fuel_spec (plies : nat) :
  ∀ (b : Board) isMax depth alpha beta,
    depth + plies = 9 → num_lt alpha beta →
    ∃ r, minimax_fuel ai human (S plies) b (mover ai human isMax) isMax
                      depth alpha beta = Some (r, b)
         ∧ window_ok alpha beta (unpruned ai human plies b isMax depth) r.
Proof.
  induction plies as [|plies IH]; intros b isMax depth alpha beta Hd Hab.
  - rewrite minimax_fuel_S. unfold unpruned, unpruned_index.
    cbn [unpruned_score]. cbv zeta.
    destruct (evaluateBoard_cases b) as [(-> & ->)|[(-> & -> & ->)|(-> & -> & ->)]];
      cbn [Z.eqb Pos.eqb].
    + eexists; split; [done|]. replace (10 - Z.of_nat depth)%Z
        with (10 - Z.of_nat depth)%Z by lia. apply window_ok_refl.
    + eexists; split; [done|]. apply window_ok_refl.
    + destruct (length (getEmptyIndices b) =? 0).
      * eexists; split; [done|]. apply window_ok_refl.
      * replace (8 <? depth) with true by (symmetry; apply Nat.ltb_lt; lia).
        eexists; split; [done|]. apply window_ok_refl.
  - rewrite minimax_fuel_S. unfold unpruned, unpruned_index.
    cbn [unpruned_score]. cbv zeta.
    destruct (evaluateBoard_cases b) as [(-> & ->)|[(-> & -> & ->)|(-> & -> & ->)]];
      cbn [Z.eqb Pos.eqb].
    + eexists; split; [done|]. apply window_ok_refl.
    + eexists; split; [done|]. apply window_ok_refl.
    + replace (8 <? depth) with false by (symmetry; apply Nat.ltb_ge; lia).
      pose proof (elem_of_getEmptyIndices b) as Hempty.
      destruct (getEmptyIndices b) as [|i0 rest] eqn:Hl.
      { cbn. eexists; split; [done|]. apply window_ok_refl. }
      cbn [length Nat.eqb head].
      set (f := fun i => unpruned_score ai human plies
                           (set b i (Mark (mover ai human isMax)))
                           (negb isMax) (S depth)).
      assert (Hrec : ∀ i, i ∈ i0 :: rest →
        rec_ok (fun b alpha beta =>
                  minimax_fuel ai human (S plies) b
                    (if isMax then human else ai) (negb isMax) (S depth) alpha beta)
               (mover ai human isMax) (fun i => Fin (f i)) b i).
      { intros i _ a c Hac.
        destruct (IH (set b i (Mark (mover ai human isMax))) (negb isMax)
                     (S depth) a c ltac:(lia) Hac) as (r1 & Hr1 & W1 & W2 & W3).
        exists r1. split.
        - rewrite <- Hr1. by destruct isMax.
        - cbn [unpruned score] in *. fold (f i) in W1, W2, W3.
          split; [done|]. split; [|done].
          intros H1 H2. by rewrite (W2 H1 H2). }
      destruct isMax.
      * destruct (minimax_loop_max _ _ _
                    (i0 :: rest) b (mkMove NegInf (Some i0)) (mkMove NegInf (Some i0))
                    alpha beta alpha (fun i Hi => proj1 (Hempty i) Hi) Hrec Hab)
          as (r & Hr & Hw); try done.
        -- clear. num_lia.
        -- exists r. split; [done|].
           cbn [List.map first_best score num_ltb] in Hw.
           rewrite first_best_max_fin in Hw.
           exact Hw.
      * destruct (minimax_loop_min _ _ _
                    (i0 :: rest) b (mkMove PosInf (Some i0)) (mkMove PosInf (Some i0))
                    alpha beta beta (fun i Hi => proj1 (Hempty i) Hi) Hrec Hab)
          as (r & Hr & Hw); try done.
        exists r. split; [done|].
        cbn [List.map first_best score num_ltb] in Hw.
        rewrite first_best_min_fin in Hw.
        exact Hw.
Qed.
End MinimaxSpec.

(** ** The search at the root *)

Section Root.
Variables ai human : player.

(** From the root the window is unbounded, so the search returns exactly
    the unpruned result. *)
Lemma minimax_fuel_root (b : Board) :
  minimax_fuel ai human 10 b ai true 0 NegInf PosInf
  = Some (unpruned ai human 9 b true 0, b).
Proof.
  destruct (minimax_fuel_spec ai human 9 b true 0 NegInf PosInf)
    as (r & Hr & _ & Hw & _); [done..|].
  cbn [mover] in Hr. rewrite Hr. by rewrite Hw.
Qed.

Lemma minimax_root (b : Board) :
  minimax ai human b ai true 0 NegInf PosInf = (unpruned ai human 9 b true 0, b).
Proof. unfold minimax. cbn [Nat.sub]. by rewrite minimax_fuel_root. Qed.

Lemma getOptimalMove_unpruned (b : Board) :
  getOptimalMove ai human b = (unpruned_move ai human b, b).
Proof. unfold getOptimalMove. by rewrite minimax_root. Qed.
End Root.

(** ** Facts about the unpruned scores *)

Lemma find_filter_seq (f g : nat → bool) (s n k : nat) :
  List.find f (List.filter g (seq s n)) = Some k →
  f k = true ∧ g k = true ∧ s ≤ k < s + n
  ∧ ∀ j, s ≤ j < k → g j = true → f j = false.
Proof.
  revert s. induction n as [|n IH]; intros s; cbn [seq List.filter List.find]; [done|].
  destruct (g s) eqn:Eg; cbn [List.find].
  - destruct (f s) eqn:Ef.
    + intros [= <-]. repeat split; try done; try lia.
    + intros Hk. destruct (IH _ Hk) as (H1 & H2 & H3 & H4).
      repeat split; try done; try lia.
      intros j Hj Hgj. destruct (decide (j = s)) as [->|Hne]; [done|].
      apply H4; [lia|done].
  - intros Hk. destruct (IH _ Hk) as (H1 & H2 & H3 & H4).
    repeat split; try done; try lia.
    intros j Hj Hgj. destruct (decide (j = s)) as [->|Hne]; [congruence|].
    apply H4; [lia|done].
Qed.

Lemma find_getEmptyIndices (f : nat → bool) (b : Board) (k : nat) :
  List.find f (getEmptyIndices b) = Some k →
  f k = true ∧ b !! k = Some Null
  ∧ ∀ j, j < k → b !! j = Some Null → f j = false.
Proof.
  rewrite getEmptyIndices_filter. intros Hk.
  destruct (find_filter_seq _ _ _ _ _ Hk) as (H1 & H2 & _ & H4).
  split; [done|]. split; [by apply get_null|].
  intros j Hj Hnull. apply H4; [lia|]. by apply get_null.
Qed.

Lemma optimum_max_spec (v : Z) (vs : list Z) :
  In (optimum true v vs) (v :: vs) ∧ ∀ x, In x (v :: vs) → (x <= optimum true v vs)%Z.
Proof.
  unfold optimum. revert v. induction vs as [|w vs IH]; intros v; cbn [foldl].
  - split; [by left|]. intros x [->|[]]. lia.
  - destruct (IH (Z.max v w)) as [Hin Hle]. split.
    + destruct Hin as [Hin|Hin]; [|by right; right].
      rewrite <- Hin. destruct (Z.max_spec v w) as [[_ ->]|[_ ->]]; cbn; auto.
    + intros x [->|[->|Hx]].
      * etrans; [|apply Hle; by left]. lia.
      * etrans; [|apply Hle; by left]. lia.
      * apply Hle. by right.
Qed.

Lemma optimum_min_spec (v : Z) (vs : list Z) :
  In (optimum false v vs) (v :: vs) ∧ ∀ x, In x (v :: vs) → (optimum false v vs <= x)%Z.
Proof.
  unfold optimum. revert v. induction vs as [|w vs IH]; intros v; cbn [foldl].
  - split; [by left|]. intros x [->|[]]. lia.
  - destruct (IH (Z.min v w)) as [Hin Hle]. split.
    + destruct Hin as [Hin|Hin]; [|by right; right].
      rewrite <- Hin. destruct (Z.min_spec v w) as [[_ ->]|[_ ->]]; cbn; auto.
    + intros x [->|[->|Hx]].
      * etrans; [apply Hle; by left|]. lia.
      * etrans; [apply Hle; by left|]. lia.
      * apply Hle. by right.
Qed.

Section ScoreFacts.
Variables ai human : player.

Lemma unpruned_score_S plies (b : Board) isMax depth :
  unpruned_score ai human (S plies) b isMax depth
  = if checkForWin ai b then (10 - Z.of_nat depth)%Z
    else if checkForWin human b then (-10 + Z.of_nat depth)%Z
    else match List.map (child_score ai human plies b isMax depth)
                        (getEmptyIndices b) with
         | [] => 0%Z
         | v :: vs => optimum isMax v vs
         end.
Proof. reflexivity. Qed.

Lemma unpruned_score_ai_win plies (b : Board) isMax depth :
  checkForWin ai b = true →
  unpruned_score ai human plies b isMax depth = (10 - Z.of_nat depth)%Z.
Proof. intros H. destruct plies; cbn [unpruned_score]; by rewrite H. Qed.

Lemma unpruned_score_human_win plies (b : Board) isMax depth :
  checkForWin ai b = false → checkForWin human b = true →
  unpruned_score ai human plies b isMax depth = (-10 + Z.of_nat depth)%Z.
Proof. intros H1 H2. destruct plies; cbn [unpruned_score]; by rewrite H1, H2. Qed.

Lemma unpruned_score_full plies (b : Board) isMax depth :
  checkForWin ai b = false → checkForWin human b = false →
  getEmptyIndices b = [] →
  unpruned_score ai human plies b isMax depth = 0%Z.
Proof.
  intros H1 H2 H3. destruct plies; cbn [unpruned_score]; rewrite H1, H2; [done|].
  by rewrite H3.
Qed.

(** The score of an inner node is the score of one of its children and
    bounds the scores of all of them. *)
Lemma unpruned_score_inner plies (b : Board) isMax depth :
  checkForWin ai b = false → checkForWin human b = false →
  getEmptyIndices b ≠ [] →
  let s := unpruned_score ai human (S plies) b isMax depth in
  (∃ i, b !! i = Some Null ∧ child_score ai human plies b isMax depth i = s)
  ∧ ∀ i, b !! i = Some Null →
      if isMax then (child_score ai human plies b isMax depth i <= s)%Z
      else (s <= child_score ai human plies b isMax depth i)%Z.
Proof.
  intros H1 H2 H3. cbv zeta. rewrite unpruned_score_S, H1, H2.
  pose proof (elem_of_getEmptyIndices b) as Hempty.
  destruct (getEmptyIndices b) as [|i0 rest]; [done|]. clear H3.
  cbn [List.map].
  set (f := child_score ai human plies b isMax depth).
  assert (Hin : ∀ x, In x (f i0 :: List.map f rest) ↔ ∃ i, b !! i = Some Null ∧ f i = x).
  { intros x. change (f i0 :: List.map f rest) with (List.map f (i0 :: rest)).
    rewrite in_map_iff. split; intros (i & Ha & Hb).
    - exists i. split; [|done]. apply Hempty. by apply list_elem_of_In.
    - exists i. split; [done|]. apply list_elem_of_In. by apply Hempty. }
  destruct isMax.
  - destruct (optimum_max_spec (f i0) (List.map f rest)) as [Ho1 Ho2].
    split; [by apply Hin|]. intros i Hi. apply Ho2, Hin. eauto.
  - destruct (optimum_min_spec (f i0) (List.map f rest)) as [Ho1 Ho2].
    split; [by apply Hin|]. intros i Hi. apply Ho2, Hin. eauto.
Qed.

(** Depth-adjusted scores at depth [d] lie between [-10 + d] and
    [10 - d]. *)
Lemma unpruned_score_bounds plies :
  ∀ (b : Board) isMax depth, depth + plies ≤ 10 →
    (-10 + Z.of_nat depth <= unpruned_score ai human plies b isMax depth
     <= 10 - Z.of_nat depth)%Z.
Proof.
  induction plies as [|plies IH]; intros b isMax depth Hd.
  - cbn [unpruned_score].
    destruct (checkForWin ai b), (checkForWin human b); lia.
  - destruct (checkForWin ai b) eqn:H1.
    { rewrite unpruned_score_ai_win by done. lia. }
    destruct (checkForWin human b) eqn:H2.
    { rewrite unpruned_score_human_win by done. lia. }
    destruct (getEmptyIndices b) as [|i0 rest] eqn:H3.
    { rewrite unpruned_score_full by done. lia. }
    destruct (unpruned_score_inner plies b isMax depth H1 H2) as [(i & Hi & <-) _].
    { by rewrite H3. }
    unfold child_score.
    specialize (IH (set b i (Mark (mover ai human isMax))) (negb isMax) (S depth)).
    lia.
Qed.

(** The unpruned index at an inner node: an empty cell whose child
    achieves the score of the node, and the first such. *)
Lemma unpruned_index_inner plies (b : Board) isMax depth :
  checkForWin ai b = false → checkForWin human b = false →
  getEmptyIndices b ≠ [] →
  ∃ k, unpruned_index ai human (S plies) b isMax depth = Some k
       ∧ b !! k = Some Null
       ∧ child_score ai human plies b isMax depth k
         = unpruned_score ai human (S plies) b isMax depth
       ∧ ∀ j, j < k → b !! j = Some Null →
           child_score ai human plies b isMax depth j
           ≠ unpruned_score ai human (S plies) b isMax depth.
Proof.
  intros H1 H2 H3.
  destruct (unpruned_score_inner plies b isMax depth H1 H2 H3) as [(i & Hi & Hs) _].
  pose proof (proj2 (Z.eqb_eq _ _) Hs) as Hs'. unfold child_score in Hs'.
  unfold unpruned_index. rewrite H1, H2.
  fold (child_score ai human plies b isMax depth).
  destruct (List.find _ (getEmptyIndices b)) as [k|] eqn:Hk.
  - exists k. split; [done|].
    destruct (find_getEmptyIndices _ _ _ Hk) as (Ha & Hb & Hc).
    split; [done|]. split; [by apply Z.eqb_eq|].
    intros j Hj Hnull. apply Z.eqb_neq. by apply Hc.
  - exfalso. pose proof (find_none _ _ Hk i) as Hn. cbn beta in Hn.
    rewrite Hn in Hs'; [done|].
    apply list_elem_of_In, elem_of_getEmptyIndices, Hi.
Qed.
End ScoreFacts.

(** ** Winning combinations: completed, completable, completed by a move *)

Lemma includes_In (l : list nat) (k : nat) : includes l k = true ↔ In k l.
Proof.
  unfold includes. rewrite existsb_exists. split.
  - intros (x & Hx & ->%Nat.eqb_eq). done.
  - intros H. exists k. split; [done|]. apply Nat.eqb_refl.
Qed.

Lemma player_eqb_eq (p q : player) : player_eqb p q = true ↔ p = q.
Proof. destruct p, q; cbn; split; congruence. Qed.

Lemma is_player_Mark (p : player) (c : cell) : is_player p c = true ↔ c = Mark p.
Proof.
  destruct c as [|q|]; cbn; [split; congruence| |split; congruence].
  rewrite player_eqb_eq. split; congruence.
Qed.

Lemma get_Null (b : Board) (i : nat) : b !! i = Some Null → get b i = Null.
Proof. intros H. unfold get. by rewrite H. Qed.

Lemma get_set (b : Board) (i j : nat) (v : cell) :
  b !! j = Some Null → get (set b j v) i = if i =? j then v else get b i.
Proof.
  intros Hj. destruct (Nat.eqb_spec i j) as [->|Hne].
  - apply set_get_eq. by apply lookup_lt_Some in Hj.
  - by apply set_get_ne.
Qed.

Lemma WINNING_COMBINATIONS_triple (combo : list nat) :
  In combo WINNING_COMBINATIONS →
  ∃ x y z, combo = [x; y; z] ∧ x ≠ y ∧ y ≠ z ∧ x ≠ z.
Proof.
  cbn. intros H.
  repeat (destruct H as [<-|H]; [do 3 eexists; split; [reflexivity|lia]|]).
  done.
Qed.

Lemma checkForWin_true (p : player) (b : Board) :
  checkForWin p b = true
  ↔ ∃ combo, In combo WINNING_COMBINATIONS
             ∧ ∀ i, In i combo → get b i = Mark p.
Proof.
  unfold checkForWin. rewrite existsb_exists.
  split; intros (combo & Hin & H); exists combo; (split; [done|]).
  - intros i Hi. apply is_player_Mark. revert i Hi. by apply forallb_forall.
  - apply forallb_forall. intros i Hi. by apply is_player_Mark, H.
Qed.

(** A completed combination stays completed when an empty cell is
    written. *)
Lemma checkForWin_set (q : player) (b : Board) (j : nat) (v : cell) :
  b !! j = Some Null → checkForWin q b = true → checkForWin q (set b j v) = true.
Proof.
  intros Hj. rewrite !checkForWin_true. intros (combo & Hin & H).
  exists combo. split; [done|]. intros i Hi. rewrite get_set by done.
  destruct (Nat.eqb_spec i j) as [Heq|Hne]; [|by apply H].
  subst i. specialize (H j Hi). apply get_Null in Hj. congruence.
Qed.

(** A mark that is not [q]'s completes no combination of [q]. *)
Lemma checkForWin_set_inv (q : player) (b : Board) (j : nat) (v : cell) :
  b !! j = Some Null → v ≠ Mark q →
  checkForWin q (set b j v) = true → checkForWin q b = true.
Proof.
  intros Hj Hv. rewrite !checkForWin_true. intros (combo & Hin & H).
  exists combo. split; [done|]. intros i Hi. specialize (H i Hi).
  rewrite get_set in H by done.
  destruct (Nat.eqb_spec i j) as [Heq|Hne]; [congruence|done].
Qed.

Lemma completable_triple (p : player) (b : Board) (x y z : nat) :
  completable p b [x; y; z] = true
  ↔ (get b x = Null ∧ get b y = Mark p ∧ get b z = Mark p)
    ∨ (get b x = Mark p ∧ get b y = Null ∧ get b z = Mark p)
    ∨ (get b x = Mark p ∧ get b y = Mark p ∧ get b z = Null).
Proof.
  unfold completable, count. cbn [List.map].
  destruct (get b x) as [|[]|], (get b y) as [|[]|], (get b z) as [|[]|], p;
    cbn; split; intros H; try done; try tauto;
    try (destruct H as [(?&?&?)|[(?&?&?)|(?&?&?)]]; congruence).
Qed.

(** Placing [p]'s mark in the empty cell of a completable combination
    completes it. *)
Lemma completable_win (p : player) (b : Board) (combo : list nat) (k : nat) :
  In combo WINNING_COMBINATIONS → completable p b combo = true →
  In k combo → b !! k = Some Null →
  checkForWin p (set b k (Mark p)) = true.
Proof.
  intros Hin Hc Hk Hnull. apply checkForWin_true. exists combo. split; [done|].
  destruct (WINNING_COMBINATIONS_triple _ Hin) as (x & y & z & -> & Hxy & Hyz & Hxz).
  apply completable_triple in Hc. pose proof (get_Null _ _ Hnull) as Hgk.
  intros i Hi. rewrite get_set by done.
  destruct (Nat.eqb_spec i k) as [Heq|Hne]; [done|].
  cbn in Hi, Hk.
  destruct Hc as [(?&?&?)|[(?&?&?)|(?&?&?)]];
    destruct Hk as [<-|[<-|[<-|[]]]]; destruct Hi as [<-|[<-|[<-|[]]]];
    congruence.
Qed.

(** A move that completes a combination fills the empty cell of a
    completable one. *)
Lemma win_completable (p : player) (b : Board) (k : nat) :
  b !! k = Some Null → checkForWin p b = false →
  checkForWin p (set b k (Mark p)) = true →
  ∃ combo, In combo WINNING_COMBINATIONS ∧ completable p b combo = true
           ∧ In k combo.
Proof.
  intros Hnull Hno Hwin. apply checkForWin_true in Hwin as (combo & Hin & H).
  exists combo. split; [done|].
  assert (Hk : In k combo).
  { destruct (in_dec Nat.eq_dec k combo) as [|Hnk]; [done|]. exfalso.
    assert (checkForWin p b = true); [|congruence].
    apply checkForWin_true. exists combo. split; [done|].
    intros i Hi. specialize (H i Hi). rewrite get_set in H by done.
    destruct (Nat.eqb_spec i k) as [Heq|Hne]; [congruence|done]. }
  split; [|done].
  destruct (WINNING_COMBINATIONS_triple _ Hin) as (x & y & z & -> & Hxy & Hyz & Hxz).
  apply completable_triple. pose proof (get_Null _ _ Hnull) as Hgk.
  assert (Hget : ∀ i, In i [x; y; z] → i ≠ k → get b i = Mark p).
  { intros i Hi Hne. specialize (H i Hi). rewrite get_set in H by done.
    destruct (Nat.eqb_spec i k); [done|exact H]. }
  cbn in Hk. destruct Hk as [<-|[<-|[<-|[]]]].
  - left. split; [done|]. split; apply Hget; cbn; auto.
  - right; left. split; [|split; [done|]]; apply Hget; cbn; auto.
  - right; right. split; [|split; [|done]]; apply Hget; cbn; auto.
Qed.

(** The empty indices after a mark is placed. *)
Lemma elem_of_getEmptyIndices_set (b : Board) (j i : nat) (p : player) :
  b !! j = Some Null →
  (set b j (Mark p)) !! i = Some Null ↔ i ≠ j ∧ b !! i = Some Null.
Proof.
  intros Hj. unfold set. destruct (decide (i = j)) as [->|Hne].
  - rewrite list_lookup_insert_eq by (by apply lookup_lt_Some in Hj).
    split; [done|]. by intros [].
  - rewrite list_lookup_insert_ne by done. tauto.
Qed.

(** ** Drawing an element with [Math.random] *)

(** What rounding does to [M * 2 ^ e]: nothing when [M] has at most 53
    bits; otherwise the exponent grows by [s], the significand is the
    quotient by [2 ^ s] or the next integer, and the next integer only
    when the remainder is at least half of [2 ^ s]. *)
Lemma round_binary64_cases (M e : Z) :
  (0 <= M)%Z →
  round_binary64 M e = mkFloat M e
  ∨ ∃ s m', (0 < s)%Z ∧ round_binary64 M e = mkFloat m' (e + s)
            ∧ (2 ^ (s + 52) <= M)%Z
            ∧ (m' = (M / 2 ^ s)%Z
               ∨ (m' = (M / 2 ^ s + 1)%Z ∧ (2 ^ (s - 1) <= M mod 2 ^ s)%Z)).
Proof.
  intros HM. unfold round_binary64.
  destruct (Z.leb_spec (Z.log2 M - 52) 0%Z) as [Hs|Hs]; [by left|]. right.
  exists (Z.log2 M - 52)%Z,
    (if (2 ^ (Z.log2 M - 52 - 1) <? M mod 2 ^ (Z.log2 M - 52))%Z
        || ((M mod 2 ^ (Z.log2 M - 52) =? 2 ^ (Z.log2 M - 52 - 1))%Z
            && Z.odd (M / 2 ^ (Z.log2 M - 52)))
     then (M / 2 ^ (Z.log2 M - 52) + 1)%Z else (M / 2 ^ (Z.log2 M - 52))%Z).
  split; [done|]. split; [done|].
  assert (0 < M)%Z by (destruct (Z.eq_dec M 0%Z) as [->|]; [cbn in Hs; lia|lia]).
  split.
  { replace (Z.log2 M - 52 + 52)%Z with (Z.log2 M) by lia. by apply Z.log2_spec. }
  destruct (_ || _) eqn:E; [right|by left]. split; [done|].
  apply orb_true_iff in E as [E|[E _]%andb_true_iff];
    [apply Z.ltb_lt in E|apply Z.eqb_eq in E]; lia.
Qed.

(** The rounded significand, scaled back, exceeds the exact one by at most
    half a unit in the last place, which is at most [M / 2 ^ 53]. *)
Lemma round_up_bound (M s m' : Z) :
  (0 < s)%Z → (2 ^ (s + 52) <= M)%Z →
  (m' = (M / 2 ^ s)%Z ∨ (m' = (M / 2 ^ s + 1)%Z ∧ (2 ^ (s - 1) <= M mod 2 ^ s)%Z)) →
  (M / 2 ^ s <= m')%Z ∧ (m' * 2 ^ s <= M + 2 ^ (s - 1))%Z
  ∧ (2 ^ (s - 1) * 2 ^ 53 <= M)%Z.
Proof.
  intros Hs HM Hm.
  assert (Hp : (0 < 2 ^ s)%Z) by (apply Z.pow_pos_nonneg; lia).
  assert (H2 : (2 ^ s = 2 * 2 ^ (s - 1))%Z).
  { rewrite <- Z.pow_succ_r by lia. f_equal. lia. }
  assert (H3 : (2 ^ (s - 1) * 2 ^ 53 = 2 ^ (s + 52))%Z).
  { rewrite <- Z.pow_add_r by lia. f_equal. lia. }
  pose proof (Z.div_mod M (2 ^ s)%Z ltac:(lia)) as Hdm.
  pose proof (Z.mod_pos_bound M (2 ^ s)%Z Hp) as Hmod.
  split; [lia|]. split; [|lia].
  destruct Hm as [->|[-> Hr]]; nia.
Qed.

Lemma floor_lt (m' e' n E : Z) :
  (0 <= m')%Z → (0 < E)%Z → (m' * 2 ^ (e' + E) < n * 2 ^ E)%Z → (0 <= e' + E)%Z →
  (0 <= floor (mkFloat m' e') < n)%Z.
Proof.
  intros Hm HE Hlt Hs. unfold floor. cbn [significand exponent].
  assert (HpE : (0 < 2 ^ E)%Z) by (apply Z.pow_pos_nonneg; lia).
  destruct (Z.leb_spec 0%Z e') as [He|He].
  - assert (Hp : (0 < 2 ^ e')%Z) by (apply Z.pow_pos_nonneg; lia).
    rewrite Z.pow_add_r in Hlt by lia. split; [nia|nia].
  - assert (Hp : (0 < 2 ^ (- e'))%Z) by (apply Z.pow_pos_nonneg; lia).
    assert (H2 : (2 ^ E = 2 ^ (e' + E) * 2 ^ (- e'))%Z).
    { rewrite <- Z.pow_add_r by lia. f_equal. lia. }
    assert (Hq : (0 < 2 ^ (e' + E))%Z) by (apply Z.pow_pos_nonneg; lia).
    split; [apply Z.div_pos; lia|].
    apply Z.div_lt_upper_bound; [lia|]. nia.
Qed.

(** A number of [Math.random] other than 0 has a negative exponent. *)
Lemma unit_float_exponent (m e : Z) :
  (0 <= m)%Z → m ≠ 0%Z → (m < 2 ^ (- e))%Z → (0 < - e)%Z.
Proof.
  intros Hm0 Hmne Hm1.
  destruct (Z.le_gt_cases (- e)%Z 0%Z) as [H|H]; [|done].
  destruct (Z.eq_dec (- e)%Z 0%Z) as [E0|E0].
  - rewrite E0 in Hm1. change (2 ^ 0)%Z with 1%Z in Hm1. lia.
  - rewrite Z.pow_neg_r in Hm1 by lia. lia.
Qed.

(** For a number [r] of [Math.random] and a length [n], the index
    [Math.floor(r * n)] is among [0 .. n - 1]: the binary64 product
    never rounds up to [n]. *)
Lemma floor_times_length_bound (r : float) (n : nat) :
  unit_float r → 0 < n → (0 <= floor (times_length r n) < Z.of_nat n)%Z.
Proof.
  intros ([Hm0 Hm53] & He & Hm1) Hn. unfold times_length.
  destruct r as [m e]. cbn [significand exponent] in *.
  destruct (Z.eq_dec m 0%Z) as [->|Hmne].
  { rewrite Z.mul_0_l. change (round_binary64 0 e) with (mkFloat 0 e).
    unfold floor. cbn [significand exponent].
    destruct (Z.leb_spec 0%Z e); [rewrite Z.mul_0_l; lia|].
    rewrite Z.div_0_l by (apply Z.pow_nonzero; lia). lia. }
  pose proof (unit_float_exponent m e Hm0 Hmne Hm1) as HE.
  remember (- e)%Z as E eqn:HeqE. remember (Z.of_nat n) as N eqn:HeqN.
  assert (HN : (0 < N)%Z) by lia.
  assert (HpE : (0 < 2 ^ E)%Z) by (apply Z.pow_pos_nonneg; lia).
  destruct (round_binary64_cases (m * N)%Z e ltac:(nia))
    as [->|(s & m' & Hs & -> & HM & Hm')].
  - apply (floor_lt _ _ _ E); [nia|lia| |lia].
    replace (e + E)%Z with 0%Z by lia. rewrite Z.pow_0_r. nia.
  - destruct (round_up_bound _ _ _ Hs HM Hm') as (Hq & Hup & Hhalf).
    assert (Hps : (0 < 2 ^ s)%Z) by (apply Z.pow_pos_nonneg; lia).
    assert (Hph : (0 < 2 ^ (s - 1))%Z) by (apply Z.pow_pos_nonneg; lia).
    assert (Hq0 : (0 <= m * N / 2 ^ s)%Z) by (apply Z.div_pos; nia).
    apply (floor_lt _ _ _ E); [lia|lia| |lia].
    replace (e + s + E)%Z with s by lia.
    assert (2 ^ (s - 1) < N)%Z by nia. nia.
Qed.

(** For [r] in the [k]-th interval, [k] below [2 ^ 53], the index is [k],
    or [k + 1] when the product rounds up to it, which takes an exact
    product above [(k + 1) * (1 - 2 ^ -53)]. *)
Lemma floor_times_length_slot (r : float) (n k : nat) :
  unit_float r → (Z.of_nat k < 2 ^ 53)%Z → in_slot k n r →
  floor (times_length r n) = Z.of_nat k
  ∨ (floor (times_length r n) = (Z.of_nat k + 1)%Z ∧ rounds_up k n r).
Proof.
  intros ([Hm0 Hm53] & He & Hm1) Hk [Hlo Hhi]. unfold times_length, rounds_up.
  destruct r as [m e]. cbn [significand exponent] in *.
  remember (Z.of_nat k) as K eqn:HeqK. remember (Z.of_nat n) as N eqn:HeqN.
  assert (HK : (0 <= K)%Z) by lia.
  destruct (Z.eq_dec m 0%Z) as [->|Hmne].
  { left. rewrite Z.mul_0_l in *. change (round_binary64 0 e) with (mkFloat 0 e).
    unfold floor. cbn [significand exponent].
    assert (K = 0%Z) by nia. subst K.
    destruct (Z.leb_spec 0%Z e); [lia|].
    rewrite Z.div_0_l by (apply Z.pow_nonzero; lia). lia. }
  pose proof (unit_float_exponent m e Hm0 Hmne Hm1) as HE.
  remember (- e)%Z as E eqn:HeqE.
  assert (HpE : (0 < 2 ^ E)%Z) by (apply Z.pow_pos_nonneg; lia).
  assert (HM : (0 <= m * N)%Z) by nia.
  destruct (round_binary64_cases (m * N)%Z e HM) as [->|(s & m' & Hs & -> & HM2 & Hm')].
  - left. unfold floor. cbn [significand exponent].
    destruct (Z.leb_spec 0%Z e); [lia|]. rewrite <- HeqE.
    symmetry. apply Z.div_unique with (m * N - K * 2 ^ E)%Z; [left; lia|lia].
  - destruct (round_up_bound _ _ _ Hs HM2 Hm') as (Hq & Hup & Hhalf).
    assert (Hps : (0 < 2 ^ s)%Z) by (apply Z.pow_pos_nonneg; lia).
    assert (Hph : (0 < 2 ^ (s - 1))%Z) by (apply Z.pow_pos_nonneg; lia).
    assert (HsE : (s <= E)%Z).
    { assert (Hlt : (2 ^ (s + 52) < 2 ^ (53 + E))%Z).
      { rewrite (Z.pow_add_r 2 53 E)%Z by lia. nia. }
      apply Z.pow_lt_mono_r_iff in Hlt; lia. }
    assert (H2E : (2 ^ E = 2 ^ (E - s) * 2 ^ s)%Z).
    { rewrite <- Z.pow_add_r by lia. f_equal. lia. }
    assert (HpP : (0 < 2 ^ (E - s))%Z) by (apply Z.pow_pos_nonneg; lia).
    remember (2 ^ (E - s))%Z as P eqn:HeqP. remember (2 ^ s)%Z as S2 eqn:HeqS.
    pose proof (Z.div_mod (m * N)%Z S2 ltac:(lia)) as Hdm.
    pose proof (Z.mod_pos_bound (m * N)%Z S2 Hps) as Hmod.
    assert (Hqlo : (K * P <= m * N / S2)%Z) by (apply Z.div_le_lower_bound; nia).
    assert (Hqhi : (m * N / S2 < (K + 1) * P)%Z) by (apply Z.div_lt_upper_bound; nia).
    assert (Hm'lo : (K * P <= m')%Z) by lia.
    assert (Hm'hi : (m' <= (K + 1) * P)%Z) by (destruct Hm' as [->|[-> _]]; lia).
    assert (Hfl : floor (mkFloat m' (e + s)) = (m' / P)%Z).
    { unfold floor. cbn [significand exponent].
      destruct (Z.leb_spec 0%Z (e + s)%Z) as [H0|H0].
      - assert (H1 : (e + s = 0)%Z) by lia.
        replace (E - s)%Z with 0%Z in HeqP by lia. rewrite H1. subst P.
        change (2 ^ 0)%Z with 1%Z. rewrite Z.div_1_r. lia.
      - replace (- (e + s))%Z with (E - s)%Z by lia. by rewrite <- HeqP. }
    rewrite Hfl.
    destruct (Z.eq_dec m' ((K + 1) * P)%Z) as [Heq|Hne].
    + right. split.
      * rewrite Heq. by apply Z.div_mul; lia.
      * destruct Hm' as [Hm'|[Hm' Hr]]; [lia|].
        assert (H2 : (S2 = 2 * 2 ^ (s - 1))%Z).
        { rewrite HeqS. rewrite <- Z.pow_succ_r by lia. f_equal. lia. }
        assert (H3 : (2 ^ (s - 1) * 2 ^ 53 = 2 ^ (s + 52))%Z).
        { rewrite <- Z.pow_add_r by lia. f_equal. lia. }
        nia.
    + left. symmetry. apply Z.div_unique with (m' - K * P)%Z; [left; lia|lia].
Qed.

(** The element that [pick] returns is the one at the index
    [Math.floor(r * l.length)], which is in range for a number of
    [Math.random]. *)
Lemma pick_Some (l : list nat) (r : float) :
  unit_float r → l ≠ [] →
  ∃ k i, l !! k = Some i ∧ pick l r = Some i
         ∧ Z.of_nat k = floor (times_length r (length l)).
Proof.
  intros Hr Hl.
  assert (Hn : 0 < length l) by (destruct l; [done|cbn; lia]).
  pose proof (floor_times_length_bound r (length l) Hr Hn) as [H0 H1].
  destruct (lookup_lt_is_Some_2 l (Z.to_nat (floor (times_length r (length l)))))
    as [i Hi]; [lia|].
  exists (Z.to_nat (floor (times_length r (length l)))), i.
  split; [done|]. split; [|lia].
  unfold pick. cbv zeta. by destruct (Z.ltb_spec (floor (times_length r (length l))) 0%Z); [lia|].
Qed.

(** In the [k]-th interval [pick] returns the [k]-th element, or the next
    one when the product rounds up. *)
Lemma pick_slot (l : list nat) (r : float) (k : nat) :
  unit_float r → (Z.of_nat k < 2 ^ 53)%Z → in_slot k (length l) r →
  pick l r = l !! k ∨ (pick l r = l !! S k ∧ rounds_up k (length l) r).
Proof.
  intros Hr Hk Hs. unfold pick. cbv zeta.
  destruct (floor_times_length_slot r (length l) k Hr Hk Hs) as [->|[-> Hup]].
  - left. destruct (Z.ltb_spec (Z.of_nat k) 0%Z); [lia|]. by rewrite Nat2Z.id.
  - right. split; [|done].
    destruct (Z.ltb_spec (Z.of_nat k + 1)%Z 0%Z); [lia|]. f_equal. lia.
Qed.

Lemma elem_of_preferred (b : Board) (i : nat) :
  i ∈ List.filter preferred (getEmptyIndices b)
  ↔ b !! i = Some Null ∧ (i = CENTER ∨ In i CORNERS).
Proof.
  rewrite list_elem_of_In, filter_In, <- list_elem_of_In, elem_of_getEmptyIndices.
  unfold preferred. rewrite orb_true_iff, Nat.eqb_eq, includes_In. done.
Qed.

Lemma casual_candidates_empty (b : Board) (r : float) (i : nat) :
  i ∈ casual_candidates b r → b !! i = Some Null.
Proof.
  unfold casual_candidates. destruct (_ && _).
  - by intros [? _]%elem_of_preferred.
  - apply elem_of_getEmptyIndices.
Qed.

Lemma casual_candidates_nonempty (b : Board) (r : float) :
  getEmptyIndices b ≠ [] → casual_candidates b r ≠ [].
Proof.
  intros H. unfold casual_candidates.
  destruct (float_ltb r literal_0_3); cbn [andb]; [|done].
  destruct (List.filter preferred (getEmptyIndices b)) eqn:E; cbn; done.
Qed.

(** [getRandomMove] tests the first draw and picks with the second. *)
Lemma getRandomMove_pick (b : Board) (g : rng) :
  getRandomMove (getEmptyIndices b) g
  = (pick (casual_candidates b (g 0)) (g 1), fun n => g (S (S n))).
Proof.
  unfold getRandomMove, casual_candidates, random.
  destruct (float_ltb (g 0) literal_0_3); cbn [andb]; [|done].
  by destruct (0 <? length (List.filter preferred (getEmptyIndices b))).
Qed.

(** ** What the Expert search does with wins one move away *)

Lemma can_complete_true (p : player) (b : Board) (k : nat) :
  can_complete p b k = true
  ↔ b !! k = Some Null
    ∧ ∃ combo, In combo WINNING_COMBINATIONS ∧ completable p b combo = true
               ∧ In k combo.
Proof.
  unfold can_complete. rewrite andb_true_iff, get_null, existsb_exists.
  split; intros [H (combo & Hin & Hc)]; (split; [done|]); exists combo.
  - apply andb_true_iff in Hc as [? ?%includes_In]. done.
  - destruct Hc as [? ?%includes_In]. split; [done|]. by apply andb_true_iff.
Qed.

Lemma wins_at_true (p : player) (b : Board) (k : nat) :
  wins_at p b k = true
  ↔ b !! k = Some Null ∧ checkForWin p (set b k (Mark p)) = true.
Proof. unfold wins_at. by rewrite andb_true_iff, get_null. Qed.

(** On a board without a completed combination of [p], the cells where
    [p] wins at once are the empty cells of its completable
    combinations. *)
Lemma wins_at_can_complete (p : player) (b : Board) (k : nat) :
  checkForWin p b = false → wins_at p b k = can_complete p b k.
Proof.
  intros Hno. apply eq_true_iff_eq. rewrite wins_at_true, can_complete_true.
  split; intros [Hnull H]; (split; [done|]).
  - by apply win_completable.
  - destruct H as (combo & Hin & Hc & Hk). by eapply completable_win.
Qed.

Lemma can_complete_wins_at (p : player) (b : Board) (k : nat) :
  can_complete p b k = true → wins_at p b k = true.
Proof.
  rewrite wins_at_true, can_complete_true.
  intros [Hnull (combo & Hin & Hc & Hk)]. split; [done|]. by eapply completable_win.
Qed.

(** A combination completable for [p] after a mark of another player was
    placed was completable before. *)
Lemma completable_set_inv (p q : player) (b : Board) (c : nat) (combo : list nat) :
  In combo WINNING_COMBINATIONS → b !! c = Some Null → q ≠ p →
  completable p (set b c (Mark q)) combo = true →
  completable p b combo = true ∧ ¬ In c combo.
Proof.
  intros Hin Hc Hqp Hcomp.
  destruct (WINNING_COMBINATIONS_triple _ Hin) as (x & y & z & -> & _).
  assert (Hcell : ∀ i, get (set b c (Mark q)) i = Null ∨ get (set b c (Mark q)) i = Mark p
                       → i ≠ c ∧ get (set b c (Mark q)) i = get b i).
  { intros i Hi. rewrite get_set in * by done.
    destruct (Nat.eqb_spec i c); [|done]. destruct Hi; congruence. }
  apply completable_triple in Hcomp. rewrite completable_triple.
  destruct Hcomp as [(Hx&Hy&Hz)|[(Hx&Hy&Hz)|(Hx&Hy&Hz)]];
    destruct (Hcell x) as [Nx Ex]; auto;
    destruct (Hcell y) as [Ny Ey]; auto;
    destruct (Hcell z) as [Nz Ez]; auto;
    rewrite <- Ex, <- Ey, <- Ez;
    (split; [tauto|]); cbn; intros [?|[?|[?|[]]]]; congruence.
Qed.

Lemma can_complete_set_inv (p q : player) (b : Board) (c h : nat) :
  b !! c = Some Null → q ≠ p →
  can_complete p (set b c (Mark q)) h = true → can_complete p b h = true ∧ h ≠ c.
Proof.
  intros Hc Hqp. rewrite !can_complete_true.
  intros [Hh (combo & Hin & Hcomp & Hk)].
  apply elem_of_getEmptyIndices_set in Hh as [Hne Hh]; [|done].
  destruct (completable_set_inv p q b c combo Hin Hc Hqp Hcomp) as [Hcomp' _].
  split; [|done]. split; [done|]. by exists combo.
Qed.

Section ExpertFacts.
Variables ai human : player.

(** A node without a completed combination is not scored as a win or a
    loss at its own depth. *)
Lemma unpruned_score_live_bounds plies (b : Board) isMax depth :
  checkForWin ai b = false → checkForWin human b = false →
  S depth + plies ≤ 10 →
  (-10 + Z.of_nat depth + 1 <= unpruned_score ai human plies b isMax depth
   <= 10 - Z.of_nat depth - 1)%Z.
Proof.
  intros H1 H2 Hd.
  destruct (getEmptyIndices b) as [|i0 rest] eqn:H3.
  { rewrite unpruned_score_full by done. lia. }
  destruct plies as [|plies].
  { cbn [unpruned_score]. rewrite H1, H2. lia. }
  destruct (unpruned_score_inner ai human plies b isMax depth H1 H2)
    as [(i & Hi & <-) _]; [by rewrite H3|].
  pose proof (unpruned_score_bounds ai human plies
                (set b i (Mark (mover ai human isMax))) (negb isMax) (S depth)).
  unfold child_score. lia.
Qed.

(** The child of an immediate win of the engine scores [10 - (d + 1)],
    and only such a child does. *)
Lemma child_score_win plies (b : Board) depth (i : nat) :
  depth + S plies ≤ 9 →
  b !! i = Some Null →
  (child_score ai human plies b true depth i = 10 - Z.of_nat (S depth))%Z
  ↔ checkForWin ai (set b i (Mark ai)) = true.
Proof.
  intros Hd Hi. unfold child_score. cbn [mover]. split.
  - intros Hs. destruct (checkForWin ai (set b i (Mark ai))) eqn:H1; [done|].
    exfalso. destruct (checkForWin human (set b i (Mark ai))) eqn:H2.
    + rewrite unpruned_score_human_win in Hs by done. lia.
    + pose proof (unpruned_score_live_bounds plies (set b i (Mark ai))
                    (negb true) (S depth) H1 H2). lia.
  - intros H. by rewrite unpruned_score_ai_win.
Qed.

Lemma getEmptyIndices_nonempty (b : Board) (i : nat) :
  b !! i = Some Null → getEmptyIndices b ≠ [].
Proof.
  intros Hi%elem_of_getEmptyIndices E. rewrite E in Hi. by apply not_elem_of_nil in Hi.
Qed.

(** The index of the unpruned search at the root is an empty cell whose
    child has the largest score, and the first such cell in scan order. *)
Lemma unpruned_move_first_optimal (b : Board) (k : nat) :
  unpruned_move ai human b = Some k →
  b !! k = Some Null
  ∧ child_score ai human 8 b true 0 k = unpruned_score ai human 9 b true 0
  ∧ (∀ i, b !! i = Some Null →
          (child_score ai human 8 b true 0 i <= child_score ai human 8 b true 0 k)%Z)
  ∧ (∀ j, j < k → b !! j = Some Null →
          (child_score ai human 8 b true 0 j < child_score ai human 8 b true 0 k)%Z).
Proof.
  unfold unpruned_move, unpruned_index.
  destruct (checkForWin ai b) eqn:H1; [done|].
  destruct (checkForWin human b) eqn:H2; [done|].
  fold (child_score ai human 8 b true 0). intros Hk.
  destruct (find_getEmptyIndices _ _ _ Hk) as (Hs%Z.eqb_eq & Hnull & Hfirst).
  destruct (unpruned_score_inner ai human 8 b true 0 H1 H2
              (getEmptyIndices_nonempty b k Hnull)) as [_ Hmax].
  cbn beta iota in Hmax. unfold child_score in *.
  split; [done|]. split; [done|]. split.
  - intros i Hi. specialize (Hmax i Hi). lia.
  - intros j Hj Hjn. specialize (Hfirst j Hj Hjn). apply Z.eqb_neq in Hfirst.
    specialize (Hmax j Hjn). lia.
Qed.

(** With a win one move away on a board still in play, the search
    returns the first cell, in scan order, that wins at once. *)
Lemma getOptimalMove_immediate_win (b : Board) (i : nat) :
  checkForWin ai b = false → checkForWin human b = false →
  wins_at ai b i = true →
  ∃ k, (getOptimalMove ai human b).1 = Some k
       ∧ wins_at ai b k = true
       ∧ ∀ j, j < k → wins_at ai b j = false.
Proof.
  intros H1 H2 [Hi Hwin]%wins_at_true.
  pose proof (getEmptyIndices_nonempty b i Hi) as H3.
  destruct (unpruned_index_inner ai human 8 b true 0 H1 H2 H3)
    as (k & Hk & Hnull & Hs & Hfirst).
  destruct (unpruned_score_inner ai human 8 b true 0 H1 H2 H3) as [_ Hmax].
  specialize (Hmax i Hi). cbn beta iota in Hmax.
  pose proof (proj2 (child_score_win 8 b 0 i ltac:(lia) Hi) Hwin) as Hsi.
  pose proof (unpruned_score_bounds ai human 8 (set b k (Mark ai)) false 1
                ltac:(lia)) as Hb.
  assert (Hsk : (child_score ai human 8 b true 0 k = 10 - Z.of_nat 1)%Z).
  { unfold child_score in *. cbn [mover negb] in *. lia. }
  exists k. rewrite getOptimalMove_unpruned. split; [done|]. split.
  - apply wins_at_true. split; [done|].
    by apply (child_score_win 8 b 0 k ltac:(lia) Hnull).
  - intros j Hj. destruct (wins_at ai b j) eqn:Hw; [|done]. exfalso.
    apply wins_at_true in Hw as [Hjn Hjw].
    apply (Hfirst j Hj Hjn). rewrite <- Hs, Hsk.
    by apply (child_score_win 8 b 0 j ltac:(lia) Hjn).
Qed.

(** With no win of its own one move away and the opponent able to
    complete a combination at the cell [c] only, the search returns
    [c]. *)
Lemma getOptimalMove_block (b : Board) (c : nat) :
  ai ≠ human →
  checkForWin ai b = false → checkForWin human b = false →
  (∀ k, can_complete ai b k = false) →
  can_complete human b c = true →
  (∀ k, can_complete human b k = true → k = c) →
  (getOptimalMove ai human b).1 = Some c.
Proof.
  intros Hne H1 H2 Hnoai Hc Huniq.
  pose proof (proj1 (can_complete_true _ _ _) Hc) as [Hcn _].
  pose proof (getEmptyIndices_nonempty b c Hcn) as H3.
  destruct (unpruned_index_inner ai human 8 b true 0 H1 H2 H3)
    as (k & Hk & Hnull & Hs & _).
  destruct (unpruned_score_inner ai human 8 b true 0 H1 H2 H3) as [_ Hmax].
  specialize (Hmax c Hcn). cbn beta iota in Hmax.
  rewrite getOptimalMove_unpruned. cbn [fst]. unfold unpruned_move. rewrite Hk.
  f_equal. destruct (decide (k = c)) as [|Hkc]; [done|]. exfalso.
  (* no move of the engine completes a combination *)
  assert (Hai : ∀ j, b !! j = Some Null → checkForWin ai (set b j (Mark ai)) = false).
  { intros j Hj. destruct (checkForWin ai (set b j (Mark ai))) eqn:E; [|done].
    rewrite <- (Hnoai j), <- wins_at_can_complete by done.
    symmetry. by apply wins_at_true. }
  assert (Hhu : ∀ j, b !! j = Some Null → checkForWin human (set b j (Mark ai)) = false).
  { intros j Hj. destruct (checkForWin human (set b j (Mark ai))) eqn:E; [|done].
    apply checkForWin_set_inv in E; [congruence|done|congruence]. }
  (* the child at [c] scores at least [-7] *)
  assert (Hlow : (-7 <= child_score ai human 8 b true 0 c)%Z).
  { unfold child_score. cbn [mover negb].
    set (bc := set b c (Mark ai)).
    destruct (getEmptyIndices bc) as [|h0 rest] eqn:Hec.
    { rewrite unpruned_score_full; [lia|by apply Hai|by apply Hhu|done]. }
    destruct (unpruned_score_inner ai human 7 bc false 1) as [(h & Hh & <-) _];
      [by apply Hai|by apply Hhu|by rewrite Hec|].
    unfold child_score. cbn [mover negb].
    apply elem_of_getEmptyIndices_set in Hh as Hh'; [|done]. destruct Hh' as [Hhc Hhn].
    pose proof (unpruned_score_live_bounds 7 (set bc h (Mark human)) true 2) as Hb.
    cut (checkForWin ai (set bc h (Mark human)) = false
         ∧ checkForWin human (set bc h (Mark human)) = false).
    { intros [Ha Hb']. specialize (Hb Ha Hb'). lia. }
    split.
    - destruct (checkForWin ai (set bc h (Mark human))) eqn:E; [|done].
      apply checkForWin_set_inv in E; [|done|congruence].
      unfold bc in E. by rewrite Hai in E.
    - destruct (checkForWin human (set bc h (Mark human))) eqn:E; [|done].
      exfalso. apply Hhc, Huniq.
      assert (Hw : wins_at human bc h = true) by (by apply wins_at_true).
      rewrite wins_at_can_complete in Hw by (by apply Hhu).
      by apply (can_complete_set_inv human ai b c h) in Hw as [Hw _]. }
  (* every other child scores [-8] *)
  assert (Hk8 : (child_score ai human 8 b true 0 k = -8)%Z).
  { unfold child_score. cbn [mover negb].
    set (bk := set b k (Mark ai)).
    assert (Hck : bk !! c = Some Null).
    { apply elem_of_getEmptyIndices_set; [done|]. split; [congruence|done]. }
    destruct (unpruned_score_inner ai human 7 bk false 1) as [(h & Hh & Hhs) Hmin];
      [by apply Hai|by apply Hhu|by apply (getEmptyIndices_nonempty bk c)|].
    specialize (Hmin c Hck). cbn beta iota in Hmin.
    pose proof (unpruned_score_bounds ai human 7 (set bk h (Mark human)) true 2
                  ltac:(lia)) as Hb.
    unfold child_score in Hhs, Hmin. cbn [mover negb] in Hhs, Hmin.
    rewrite (unpruned_score_human_win ai human 7 (set bk c (Mark human)) true 2) in Hmin.
    - lia.
    - destruct (checkForWin ai (set bk c (Mark human))) eqn:E; [|done].
      apply checkForWin_set_inv in E; [|done|congruence].
      unfold bk in E. by rewrite Hai in E.
    - unfold bk, set. rewrite list_insert_insert_ne by done.
      apply checkForWin_set.
      + apply elem_of_getEmptyIndices_set; [done|]. split; [done|done].
      + apply can_complete_wins_at in Hc. by apply wins_at_true in Hc as [_ Hc]. }
  lia.
Qed.
End ExpertFacts.

(** ** What the rule cascade does with wins one move away *)

Lemma get_Null_inv (b : Board) (i : nat) : get b i = Null → b !! i = Some Null.
Proof. intros H. apply get_null. by rewrite H. Qed.

Lemma findWinningMove_in_spec (combos : list (list nat)) (p : player) (b : Board) :
  (∀ combo, In combo combos → In combo WINNING_COMBINATIONS) →
  match findWinningMove_in combos p b with
  | Some k => b !! k = Some Null
              ∧ ∃ combo, In combo combos ∧ completable p b combo = true ∧ In k combo
  | None => ∀ combo, In combo combos → completable p b combo = false
  end.
Proof.
  induction combos as [|combo rest IH]; intros Hsub; cbn [findWinningMove_in]; [done|].
  destruct (completable p b combo) eqn:Hc.
  - destruct (WINNING_COMBINATIONS_triple combo) as (x & y & z & -> & _);
      [apply Hsub; by left|].
    pose proof Hc as Hc'. apply completable_triple in Hc'. cbn [List.map].
    destruct Hc' as [(Hx&Hy&Hz)|[(Hx&Hy&Hz)|(Hx&Hy&Hz)]]; rewrite Hx, Hy, Hz; cbn.
    + split; [by apply get_Null_inv|]. exists [x; y; z]. cbn. auto.
    + split; [by apply get_Null_inv|]. exists [x; y; z]. cbn. auto.
    + split; [by apply get_Null_inv|]. exists [x; y; z]. cbn. auto 6.
  - assert (Hsub' : ∀ c, In c rest → In c WINNING_COMBINATIONS)
      by (intros c Hin; apply Hsub; by right).
    specialize (IH Hsub'). destruct (findWinningMove_in rest p b) as [k|].
    + destruct IH as [Hk (c & Hin & Hcc & Hkc)]. split; [done|].
      exists c. split; [by right|done].
    + intros c [<-|Hin]; [done|by apply IH].
Qed.

(** [findWinningMove] returns the empty cell of a completable combination
    when there is one, and [null] otherwise. *)
Lemma findWinningMove_spec (p : player) (b : Board) :
  match findWinningMove p b with
  | Some k => can_complete p b k = true
  | None => ∀ k, can_complete p b k = false
  end.
Proof.
  pose proof (findWinningMove_in_spec WINNING_COMBINATIONS p b (fun _ H => H)) as H.
  unfold findWinningMove. destruct (findWinningMove_in _ p b) as [k|].
  - apply can_complete_true. destruct H as [Hk (c & Hc)]. eauto.
  - intros k. destruct (can_complete p b k) eqn:E; [|done].
    apply can_complete_true in E as [_ (c & Hin & Hc & _)].
    rewrite (H c Hin) in Hc. done.
Qed.

Lemma getStrategicMove_win ai human l (b : Board) g (i : nat) :
  can_complete ai b i = true →
  ∃ k, (getStrategicMove ai human l b g).1.1 = Some k ∧ can_complete ai b k = true.
Proof.
  intros Hi. unfold getStrategicMove.
  pose proof (findWinningMove_spec ai b) as H.
  destruct (findWinningMove ai b) as [k|]; [by exists k|].
  rewrite H in Hi. done.
Qed.

Lemma getStrategicMove_block ai human l (b : Board) g (i : nat) :
  (∀ k, can_complete ai b k = false) →
  can_complete human b i = true →
  ∃ k, (getStrategicMove ai human l b g).1.1 = Some k ∧ can_complete human b k = true.
Proof.
  intros Hno Hi. unfold getStrategicMove.
  pose proof (findWinningMove_spec ai b) as Ha.
  destruct (findWinningMove ai b) as [k|]; [by rewrite Hno in Ha|].
  pose proof (findWinningMove_spec human b) as Hh.
  destruct (findWinningMove human b) as [k|]; [by exists k|].
  rewrite Hh in Hi. done.
Qed.

(** ** Every engine turn of an Expert round is explored *)

Lemma makeAIMove_hard (st : state) (g g' : rng) :
  difficulty st = "hard" → (makeAIMove st g).1 = (makeAIMove st g').1.
Proof.
  intros Hd. unfold makeAIMove, getBestAIMove. rewrite Hd.
  destruct (_ || _); [done|].
  destruct (length (getEmptyIndices (board st)) =? 0); [done|].
  cbn [String.eqb Ascii.eqb Bool.eqb andb].
  destruct (getOptimalMove _ _ _) as [[m|] b']; [|done].
  by destruct (makeMove _ m _).
Qed.

Lemma handlePlayerInput_cases (st : state) (i : nat) :
  handlePlayerInput st i = st ∨ i ∈ getEmptyIndices (board st).
Proof.
  unfold handlePlayerInput.
  destruct (negb (is_playing (gameState st))); [by left|].
  destruct (8 <? i); [by left|].
  destruct (negb (player_eqb (currentPlayer st) (humanPlayer st))); [by left|].
  destruct (is_null (get (board st) i)) eqn:E; [|by left].
  right. by apply elem_of_getEmptyIndices, get_null.
Qed.

Lemma check_turns_sound (n : nat) (st : state) :
  check_turns n st = true →
  ∀ st', engine_turn_from st st' → score_nonneg st' = true.
Proof.
  intros Hc st' Hturn. revert n Hc.
  induction Hturn as [st|st g i st' Hplay Hcur _ IH]; intros n Hc.
  - destruct n as [|n]; [done|]. cbn [check_turns] in Hc.
    by apply andb_true_iff in Hc as [[_ ?]%andb_true_iff _].
  - destruct n as [|n]; [done|]. apply (IH n). clear IH.
    cbn [check_turns] in Hc.
    apply andb_true_iff in Hc as [[Hd _]%andb_true_iff Hc].
    apply String.eqb_eq in Hd.
    rewrite (makeAIMove_hard st g (constant_rng float_0) Hd) in *.
    set (st1 := (makeAIMove st (constant_rng float_0)).1) in *.
    destruct (handlePlayerInput_cases st1 i) as [Hsame|Hi].
    + rewrite Hsame in *. rewrite Hplay in Hc. cbn [is_playing] in Hc.
      apply andb_true_iff in Hc as [Hc _]. rewrite Hcur in Hc.
      by destruct (aiPlayer st1).
    + destruct (is_playing (gameState st1)) eqn:E1.
      * apply andb_true_iff in Hc as [_ Hc].
        rewrite forallb_forall in Hc. specialize (Hc i).
        cbv zeta in Hc. rewrite Hplay, Hcur in Hc. cbn [is_playing andb] in Hc.
        assert (Hpp : ∀ p, player_eqb p p = true) by (by intros []).
        rewrite Hpp in Hc. apply Hc. by apply list_elem_of_In.
      * exfalso. unfold handlePlayerInput in Hplay. rewrite E1 in Hplay.
        cbn [negb] in Hplay. rewrite Hplay in E1. done.
Qed.

(** The exploration from the opening position succeeds within five
    exchanges. *)
Lemma expert_turns_explored : check_turns 5 expertStart = true.
Proof. vm_compute. reflexivity. Qed.

Lemma expert_game_drawn (g : rng) : gameState (expertGame 5 expertStart g) = DRAW.
Proof. vm_compute. reflexivity. Qed.

Lemma expert_game_board (g : rng) :
  checkForDraw (board (expertGame 5 expertStart g)) = true.
Proof. vm_compute. reflexivity. Qed.

(** The restriction to rounds in which the engine played the Expert moves
    matters: in a position that X reached by other moves (0, 3 and 5
    against 4, 6 and 8) the opponent threatens twice and the root score is
    negative. *)
Lemma rootScore_of_lost_position :
  rootScore (state_on "hard" board_double_threat) = Fin (-8).
Proof. vm_compute. reflexivity. Qed.

(** * The properties of the specification *)

(** C1, as amended.  In a round that the engine opens and that is played
    at difficulty ['hard'] from the first move, at every turn of the
    engine, whatever the human played, the root call of [minimax] in
    [getOptimalMove] returns a score that is not negative; and the round
    in which the human side too plays the move of the Expert policy ends
    in a draw. *)
Theorem expert_never_loses :
  (∀ st, engine_turn_from expertStart st →
         ∃ z, rootScore st = Fin z ∧ (0 <= z)%Z)
  ∧ (∀ g, gameState (expertGame 5 expertStart g) = DRAW
          ∧ checkForDraw (board (expertGame 5 expertStart g)) = true).
Proof.
  split.
  - intros st Hturn.
    pose proof (check_turns_sound 5 expertStart expert_turns_explored st Hturn) as Hs.
    unfold score_nonneg in Hs. destruct (rootScore st) as [|z|]; try done.
    exists z. split; [done|]. by apply Z.leb_le.
  - intros g. split; [exact (expert_game_drawn g)|exact (expert_game_board g)].
Qed.

Lemma expert_never_loses_witness :
  engine_turn_from expertStart
    (handlePlayerInput (makeAIMove expertStart (constant_rng float_0)).1 4)
  ∧ ∃ z, rootScore (handlePlayerInput (makeAIMove expertStart (constant_rng float_0)).1 4)
         = Fin z ∧ (0 <= z)%Z.
Proof.
  assert (H1 : gameState (handlePlayerInput (makeAIMove expertStart (constant_rng float_0)).1 4)
               = PLAYING) by (vm_compute; reflexivity).
  assert (H2 : currentPlayer (handlePlayerInput (makeAIMove expertStart (constant_rng float_0)).1 4)
               = aiPlayer (handlePlayerInput (makeAIMove expertStart (constant_rng float_0)).1 4))
    by (vm_compute; reflexivity).
  pose proof (turn_later expertStart (constant_rng float_0) 4 _ H1 H2 (turn_here _)) as H.
  split; [exact H|]. exact (proj1 expert_never_loses _ H).
Defined.

(** C1, as stated, fails.  The page reaches boards at difficulty ['hard']
    through moves that the engine played at another difficulty, since the
    difficulty can be changed in the middle of a round.  In
    [switchedRound] the engine opened and is to move, the round is on, the
    root score is [-8], and after the engine's move the human completes
    the diagonal 2-4-6. *)
Lemma expert_loses_after_difficulty_switch :
  reachable switchedRound
  ∧ difficulty switchedRound = "hard"
  ∧ gameState switchedRound = PLAYING
  ∧ aiPlayer switchedRound = PLAYER_X
  ∧ currentPlayer switchedRound = PLAYER_X
  ∧ board switchedRound = board_double_threat
  ∧ rootScore switchedRound = Fin (-8)
  ∧ gameState (handlePlayerInput (makeAIMove switchedRound (constant_rng float_0)).1 2)
    = O_WINS.
Proof.
  split.
  { unfold switchedRound.
    apply reach_difficulty, reach_click, reach_ai, reach_click, reach_ai,
      reach_click, reach_ai, reach_human, reach_init. }
  repeat split; by vm_compute.
Qed.

(** C2.  Every policy that places tentative marks leaves the array exactly
    as it received it: [findForkMove], [findBlockForkMove] and [minimax]
    (from any depth and window, so on early returns and cutoffs too, and
    the search does return), hence the Strategic and Expert policies and
    the move selector. *)
Theorem hypothetical_placements_reverted (ai human : player) (b : Board) :
  (∀ p, (findForkMove p b).2 = b)
  ∧ (findBlockForkMove ai human b).2 = b
  ∧ (∀ p isMax depth alpha beta,
       ∃ r, minimax_fuel ai human (S (9 - depth)) b p isMax depth alpha beta
            = Some (r, b)
            ∧ minimax ai human b p isMax depth alpha beta = (r, b))
  ∧ (∀ l g, (getStrategicMove ai human l b g).1.2 = b)
  ∧ (getOptimalMove ai human b).2 = b
  ∧ (∀ gs cur d g,
       board (getBestAIMove (mkState gs human ai cur d b) g).1.2 = b).
Proof.
  split; [intros p; apply findForkMove_frame|].
  split; [apply findBlockForkMove_frame|].
  split; [intros; apply minimax_total|].
  split; [intros; apply getStrategicMove_frame|].
  split; [apply getOptimalMove_frame|].
  intros gs cur d g. unfold getBestAIMove. cbn [board difficulty aiPlayer humanPlayer].
  destruct (length (getEmptyIndices b) =? 0); [done|].
  destruct (String.eqb d "easy"); [by destruct (getRandomMove _ g)|].
  destruct (String.eqb d "medium").
  { pose proof (getStrategicMove_frame ai human (getEmptyIndices b) b g) as Hf.
    by destruct (getStrategicMove ai human (getEmptyIndices b) b g) as [[m b'] g']. }
  destruct (String.eqb d "hard").
  { pose proof (getOptimalMove_frame ai human b) as Hf.
    by destruct (getOptimalMove ai human b) as [m b']. }
  by destruct (getRandomMove _ g).
Qed.

(** C3.  For every board the alpha-beta search returns at the top ply the
    result of the unpruned search over the same depth-adjusted scores: the
    same score and the same index.  That index is an empty cell whose child
    has the largest unpruned score, and the first such cell in ascending
    scan order: the children of the empty cells before it score strictly
    less. *)
Theorem alpha_beta_selects_unpruned_move (ai human : player) (b : Board) :
  minimax_fuel ai human 10 b ai true 0 NegInf PosInf
  = Some (mkMove (Fin (unpruned_score ai human 9 b true 0))
                 (unpruned_move ai human b), b)
  ∧ (getOptimalMove ai human b).1 = unpruned_move ai human b
  ∧ (∀ k, (getOptimalMove ai human b).1 = Some k →
       b !! k = Some Null
       ∧ (∀ i, b !! i = Some Null →
            (child_score ai human 8 b true 0 i
             <= child_score ai human 8 b true 0 k)%Z)
       ∧ (∀ j, j < k → b !! j = Some Null →
            (child_score ai human 8 b true 0 j
             < child_score ai human 8 b true 0 k)%Z)).
Proof.
  split; [apply minimax_fuel_root|].
  split; [by rewrite getOptimalMove_unpruned|].
  intros k. rewrite getOptimalMove_unpruned. cbn [fst]. intros Hk.
  destruct (unpruned_move_first_optimal ai human b k Hk) as (H1 & _ & H3 & H4).
  done.
Qed.

Lemma alpha_beta_selects_unpruned_move_witness :
  (getOptimalMove PLAYER_X PLAYER_O board_fast_and_slow_win).1 = Some 6
  ∧ board_fast_and_slow_win !! 6 = Some Null
  ∧ (∀ i, board_fast_and_slow_win !! i = Some Null →
       (child_score PLAYER_X PLAYER_O 8 board_fast_and_slow_win true 0 i
        <= child_score PLAYER_X PLAYER_O 8 board_fast_and_slow_win true 0 6)%Z)
  ∧ (∀ j, j < 6 → board_fast_and_slow_win !! j = Some Null →
       (child_score PLAYER_X PLAYER_O 8 board_fast_and_slow_win true 0 j
        < child_score PLAYER_X PLAYER_O 8 board_fast_and_slow_win true 0 6)%Z).
Proof.
  assert (H : (getOptimalMove PLAYER_X PLAYER_O board_fast_and_slow_win).1 = Some 6)
    by (vm_compute; reflexivity).
  split; [exact H|].
  exact (proj2 (proj2 (alpha_beta_selects_unpruned_move PLAYER_X PLAYER_O
                         board_fast_and_slow_win)) 6 H).
Defined.

(** C4.  In the search a board on which the engine has completed a
    combination is scored [10 - depth] and one on which the opponent has
    is scored [-10 + depth]; consequently, on a board where the engine can
    win at once at some cell and has a slower forced win through another
    cell (a cell that does not win at once and whose child still has a
    positive score), [getOptimalMove] returns a cell that wins at once,
    the first one in scan order. *)
Theorem depth_adjusted_scores_prefer_fastest_win (ai human : player) :
  (∀ fuel (b : Board) p isMax depth alpha beta,
     checkForWin ai b = true →
     minimax_fuel ai human (S fuel) b p isMax depth alpha beta
     = Some (mkMove (Fin (10 - Z.of_nat depth)) None, b))
  ∧ (∀ fuel (b : Board) p isMax depth alpha beta,
       checkForWin ai b = false → checkForWin human b = true →
       minimax_fuel ai human (S fuel) b p isMax depth alpha beta
       = Some (mkMove (Fin (-10 + Z.of_nat depth)) None, b))
  ∧ (∀ (b : Board) (i j : nat),
       wins_at ai b i = true →
       b !! j = Some Null → wins_at ai b j = false →
       (0 < child_score ai human 8 b true 0 j)%Z →
       ∃ k, (getOptimalMove ai human b).1 = Some k
            ∧ wins_at ai b k = true
            ∧ ∀ j', j' < k → wins_at ai b j' = false).
Proof.
  split; [|split].
  - intros fuel b p isMax depth alpha beta H.
    rewrite minimax_fuel_S. unfold evaluateBoard. by rewrite H.
  - intros fuel b p isMax depth alpha beta H1 H2.
    rewrite minimax_fuel_S. unfold evaluateBoard. by rewrite H1, H2.
  - intros b i j Hi Hj Hnj Hpos.
    assert (Hjw : checkForWin ai (set b j (Mark ai)) = false).
    { destruct (checkForWin ai (set b j (Mark ai))) eqn:E; [|done].
      rewrite <- Hnj. symmetry. by apply wins_at_true. }
    assert (H1 : checkForWin ai b = false).
    { destruct (checkForWin ai b) eqn:E; [|done].
      rewrite <- Hjw. symmetry. by apply checkForWin_set. }
    assert (H2 : checkForWin human b = false).
    { destruct (checkForWin human b) eqn:E; [|done]. exfalso.
      unfold child_score in Hpos. cbn [mover negb] in Hpos.
      rewrite unpruned_score_human_win in Hpos; [lia|done|].
      by apply checkForWin_set. }
    by apply (getOptimalMove_immediate_win ai human b i).
Qed.

Lemma depth_adjusted_scores_prefer_fastest_win_witness :
  wins_at PLAYER_X board_fast_and_slow_win 6 = true
  ∧ board_fast_and_slow_win !! 4 = Some Null
  ∧ wins_at PLAYER_X board_fast_and_slow_win 4 = false
  ∧ (0 < child_score PLAYER_X PLAYER_O 8 board_fast_and_slow_win true 0 4)%Z
  ∧ ∃ k, (getOptimalMove PLAYER_X PLAYER_O board_fast_and_slow_win).1 = Some k
         ∧ wins_at PLAYER_X board_fast_and_slow_win k = true
         ∧ ∀ j', j' < k → wins_at PLAYER_X board_fast_and_slow_win j' = false.
Proof.
  assert (H1 : wins_at PLAYER_X board_fast_and_slow_win 6 = true) by reflexivity.
  assert (H2 : board_fast_and_slow_win !! 4 = Some Null) by reflexivity.
  assert (H3 : wins_at PLAYER_X board_fast_and_slow_win 4 = false) by reflexivity.
  assert (H4 : (0 < child_score PLAYER_X PLAYER_O 8 board_fast_and_slow_win true 0 4)%Z)
    by (vm_compute; reflexivity).
  repeat (split; [assumption|]).
  exact (proj2 (proj2 (depth_adjusted_scores_prefer_fastest_win PLAYER_X PLAYER_O))
               board_fast_and_slow_win 6 4 H1 H2 H3 H4).
Defined.

(** C5, as amended.  When the engine has a completable combination, the
    Strategic policy returns the empty cell of such a combination, and so
    does the Expert policy on a board where no combination is complete
    yet.  When the engine has none and the opponent has one, the Strategic
    policy returns the empty cell of a completable combination of the
    opponent, and so does the Expert policy on a board where no
    combination is complete yet and the opponent's completable
    combinations all have the same empty cell. *)
Theorem win_then_block (ai human : player) (b : Board) :
  (∀ l g i, can_complete ai b i = true →
     ∃ k, (getStrategicMove ai human l b g).1.1 = Some k
          ∧ can_complete ai b k = true)
  ∧ (∀ i, checkForWin ai b = false → checkForWin human b = false →
       can_complete ai b i = true →
       ∃ k, (getOptimalMove ai human b).1 = Some k ∧ can_complete ai b k = true)
  ∧ (∀ l g i, (∀ k, can_complete ai b k = false) →
       can_complete human b i = true →
       ∃ k, (getStrategicMove ai human l b g).1.1 = Some k
            ∧ can_complete human b k = true)
  ∧ (∀ c, ai ≠ human →
       checkForWin ai b = false → checkForWin human b = false →
       (∀ k, can_complete ai b k = false) →
       can_complete human b c = true →
       (∀ k, can_complete human b k = true → k = c) →
       (getOptimalMove ai human b).1 = Some c).
Proof.
  split; [|split; [|split]].
  - intros l g i. apply getStrategicMove_win.
  - intros i H1 H2 Hi.
    destruct (getOptimalMove_immediate_win ai human b i H1 H2
                (can_complete_wins_at _ _ _ Hi)) as (k & Hk & Hw & _).
    exists k. split; [done|]. by rewrite <- wins_at_can_complete.
  - intros l g i. apply getStrategicMove_block.
  - intros c. apply getOptimalMove_block.
Qed.

Lemma win_then_block_witness :
  (∃ k, (getStrategicMove PLAYER_O PLAYER_X (getEmptyIndices board_win_or_block)
                          board_win_or_block (constant_rng float_0)).1.1 = Some k
        ∧ can_complete PLAYER_O board_win_or_block k = true)
  ∧ (∃ k, (getOptimalMove PLAYER_O PLAYER_X board_win_or_block).1 = Some k
          ∧ can_complete PLAYER_O board_win_or_block k = true)
  ∧ (∃ k, (getStrategicMove PLAYER_X PLAYER_O (getEmptyIndices board_single_threat)
                            board_single_threat (constant_rng float_0)).1.1 = Some k
          ∧ can_complete PLAYER_O board_single_threat k = true)
  ∧ (getOptimalMove PLAYER_X PLAYER_O board_single_threat).1 = Some 5.
Proof.
  assert (Hnone : ∀ k, can_complete PLAYER_X board_single_threat k = false).
  { intros k. do 9 (destruct k as [|k]; [reflexivity|]). reflexivity. }
  assert (Honly : ∀ k, can_complete PLAYER_O board_single_threat k = true → k = 5).
  { intros k. do 9 (destruct k as [|k]; [by vm_compute|]). by vm_compute. }
  split; [|split; [|split]].
  - apply (proj1 (win_then_block PLAYER_O PLAYER_X board_win_or_block) _ _ 5).
    reflexivity.
  - apply (proj1 (proj2 (win_then_block PLAYER_O PLAYER_X board_win_or_block)) 5);
      reflexivity.
  - apply (proj1 (proj2 (proj2 (win_then_block PLAYER_X PLAYER_O board_single_threat)))
             _ _ 5 Hnone).
    reflexivity.
  - apply (proj2 (proj2 (proj2 (win_then_block PLAYER_X PLAYER_O board_single_threat)))
             5); [discriminate|reflexivity|reflexivity|exact Hnone|reflexivity|exact Honly].
Defined.

(** C5, as stated, fails for the Expert policy.  On a board where only
    the opponent can complete a combination, and can at two cells, every
    move of the engine loses equally fast and the search returns the first
    empty cell, which blocks nothing; and on a board where a combination
    is already complete the search returns [null] although the engine has
    a completable combination. *)
Lemma expert_misses_win_and_block :
  (forallb (fun k => negb (can_complete PLAYER_X board_double_threat k)) (seq 0 9) = true
   ∧ can_complete PLAYER_O board_double_threat 2 = true
   ∧ can_complete PLAYER_O board_double_threat 7 = true
   ∧ (getOptimalMove PLAYER_X PLAYER_O board_double_threat).1 = Some 1
   ∧ can_complete PLAYER_O board_double_threat 1 = false)
  ∧ (can_complete PLAYER_O board_decided 5 = true
     ∧ (getOptimalMove PLAYER_O PLAYER_X board_decided).1 = None).
Proof. repeat split; by vm_compute. Qed.

(** C6, as amended.  On the board [[X,X,null,O,O,null,null,null,null]]
    with the engine playing O, both the Strategic and the Expert policy
    return index 5, which completes O's own row 3-4-5: a win comes before
    a block. *)
Theorem win_or_block_scenario_takes_the_win (g : rng) :
  (getStrategicMove PLAYER_O PLAYER_X (getEmptyIndices board_win_or_block)
                    board_win_or_block g).1.1 = Some 5
  ∧ (getOptimalMove PLAYER_O PLAYER_X board_win_or_block).1 = Some 5
  ∧ checkForWin PLAYER_O (set board_win_or_block 5 MO) = true.
Proof. split; [reflexivity|]. split; [by vm_compute|reflexivity]. Qed.

(** C6, as stated, fails: neither policy returns index 2. *)
Lemma win_or_block_scenario_does_not_block :
  (getStrategicMove PLAYER_O PLAYER_X (getEmptyIndices board_win_or_block)
                    board_win_or_block (constant_rng float_0)).1.1 ≠ Some 2
  ∧ (getOptimalMove PLAYER_O PLAYER_X board_win_or_block).1 ≠ Some 2.
Proof. split; by vm_compute. Qed.

(** C7, as amended.  [getBestAIMove] throws on no board.  On a board with
    no empty cell it returns [null], and [makeAIMove] then leaves the
    state as it is.  It does not validate the board: whatever the length
    of the array and the values in it, when a cell holds [null] it
    returns what the policy of the difficulty returns, [getStrategicMove]
    for ['medium'], [getOptimalMove] for ['hard'] and [getRandomMove] for
    every other difficulty, with the board as it was. *)
Theorem getBestAIMove_returns_null_and_never_throws (st : state) (g : rng) :
  is_thrown (getBestAIMove st g).1.1 = false
  ∧ (getEmptyIndices (board st) = [] →
       getBestAIMove st g = (Normal None, st, g) ∧ makeAIMove st g = (st, g))
  ∧ (getEmptyIndices (board st) ≠ [] →
       (difficulty st = "medium" →
          getBestAIMove st g
          = (Normal (getStrategicMove (aiPlayer st) (humanPlayer st)
                       (getEmptyIndices (board st)) (board st) g).1.1,
             st,
             (getStrategicMove (aiPlayer st) (humanPlayer st)
                (getEmptyIndices (board st)) (board st) g).2))
       ∧ (difficulty st = "hard" →
            getBestAIMove st g
            = (Normal (getOptimalMove (aiPlayer st) (humanPlayer st) (board st)).1,
               st, g))
       ∧ (difficulty st ≠ "medium" → difficulty st ≠ "hard" →
            getBestAIMove st g
            = (Normal (getRandomMove (getEmptyIndices (board st)) g).1, st,
               (getRandomMove (getEmptyIndices (board st)) g).2))).
Proof.
  split; [|split].
  - unfold getBestAIMove.
    destruct (length (getEmptyIndices (board st)) =? 0); [done|].
    destruct (String.eqb (difficulty st) "easy"); [by destruct (getRandomMove _ g)|].
    destruct (String.eqb (difficulty st) "medium").
    { by destruct (getStrategicMove _ _ _ _ g) as [[m b'] g']. }
    destruct (String.eqb (difficulty st) "hard").
    { by destruct (getOptimalMove _ _ _) as [m b']. }
    by destruct (getRandomMove _ g).
  - intros Hfull.
    assert (Hbest : getBestAIMove st g = (Normal None, st, g)).
    { unfold getBestAIMove. by rewrite Hfull. }
    split; [done|]. unfold makeAIMove. rewrite Hbest. by destruct (_ || _).
  - intros Hne.
    assert (Hlen : (length (getEmptyIndices (board st)) =? 0) = false).
    { apply Nat.eqb_neq. by destruct (getEmptyIndices (board st)). }
    assert (Hsame : with_board st (board st) = st) by (by destruct st).
    split; [|split].
    + intros Hd. unfold getBestAIMove. rewrite Hlen, Hd.
      cbn [String.eqb Ascii.eqb Bool.eqb andb].
      pose proof (getStrategicMove_frame (aiPlayer st) (humanPlayer st)
                    (getEmptyIndices (board st)) (board st) g) as Hf.
      destruct (getStrategicMove _ _ _ _ g) as [[m b'] g']. cbn [fst snd] in *.
      by rewrite Hf, Hsame.
    + intros Hd. unfold getBestAIMove. rewrite Hlen, Hd.
      cbn [String.eqb Ascii.eqb Bool.eqb andb].
      pose proof (getOptimalMove_frame (aiPlayer st) (humanPlayer st) (board st)) as Hf.
      destruct (getOptimalMove _ _ _) as [m b']. cbn [fst snd] in *.
      by rewrite Hf, Hsame.
    + intros Hm Hh. unfold getBestAIMove. rewrite Hlen.
      apply String.eqb_neq in Hm, Hh. rewrite Hm, Hh.
      destruct (String.eqb (difficulty st) "easy"); by destruct (getRandomMove _ g).
Qed.

Lemma getBestAIMove_returns_null_and_never_throws_witness :
  (getEmptyIndices (board (state_on "hard" board_full)) = []
   ∧ getBestAIMove (state_on "hard" board_full) (constant_rng float_0)
     = (Normal None, state_on "hard" board_full, constant_rng float_0)
   ∧ makeAIMove (state_on "hard" board_full) (constant_rng float_0)
     = (state_on "hard" board_full, constant_rng float_0))
  ∧ (getEmptyIndices (board (state_on "medium" board_short)) ≠ []
     ∧ difficulty (state_on "medium" board_short) = "medium"
     ∧ (getBestAIMove (state_on "medium" board_short) (constant_rng float_0)).1
       = (Normal (Some 0), state_on "medium" board_short))
  ∧ (getEmptyIndices (board (state_on "hard" board_stray_value)) ≠ []
     ∧ difficulty (state_on "hard" board_stray_value) = "hard"
     ∧ (getBestAIMove (state_on "hard" board_stray_value) (constant_rng float_0)).1
       = (Normal (getOptimalMove PLAYER_X PLAYER_O board_stray_value).1,
          state_on "hard" board_stray_value))
  ∧ (getEmptyIndices (board (state_on "easy" board_short)) ≠ []
     ∧ difficulty (state_on "easy" board_short) ≠ "medium"
     ∧ difficulty (state_on "easy" board_short) ≠ "hard"
     ∧ (getBestAIMove (state_on "easy" board_short) (constant_rng float_0)).1
       = (Normal (Some 0), state_on "easy" board_short)).
Proof.
  split; [|split; [|split]].
  - split; [reflexivity|].
    apply (proj1 (proj2 (getBestAIMove_returns_null_and_never_throws
                           (state_on "hard" board_full) (constant_rng float_0)))).
    reflexivity.
  - assert (H1 : getEmptyIndices (board (state_on "medium" board_short)) ≠ [])
      by discriminate.
    assert (H2 : difficulty (state_on "medium" board_short) = "medium") by reflexivity.
    split; [exact H1|]. split; [exact H2|].
    by rewrite (proj1 (proj2 (proj2 (getBestAIMove_returns_null_and_never_throws
                 (state_on "medium" board_short) (constant_rng float_0))) H1) H2).
  - assert (H1 : getEmptyIndices (board (state_on "hard" board_stray_value)) ≠ [])
      by discriminate.
    assert (H2 : difficulty (state_on "hard" board_stray_value) = "hard") by reflexivity.
    split; [exact H1|]. split; [exact H2|].
    by rewrite (proj1 (proj2 (proj2 (proj2 (getBestAIMove_returns_null_and_never_throws
                 (state_on "hard" board_stray_value) (constant_rng float_0))) H1)) H2).
  - assert (H1 : getEmptyIndices (board (state_on "easy" board_short)) ≠ [])
      by discriminate.
    assert (H2 : difficulty (state_on "easy" board_short) ≠ "medium") by discriminate.
    assert (H3 : difficulty (state_on "easy" board_short) ≠ "hard") by discriminate.
    split; [exact H1|]. split; [exact H2|]. split; [exact H3|].
    by rewrite (proj2 (proj2 (proj2 (proj2 (getBestAIMove_returns_null_and_never_throws
                 (state_on "easy" board_short) (constant_rng float_0))) H1)) H2 H3).
Defined.

(** C7, as stated, fails: on a full board the selector returns the
    sentinel [null] and throws nothing, and on a board of the wrong length
    or with a stray cell value it returns a move. *)
Lemma getBestAIMove_signals_no_error :
  (getBestAIMove (state_on "hard" board_full) (constant_rng float_0)).1.1 = Normal None
  ∧ (getBestAIMove (state_on "medium" board_short) (constant_rng float_0)).1.1
    = Normal (Some 0)
  ∧ (getBestAIMove (state_on "medium" board_stray_value) (constant_rng float_0)).1.1
    = Normal (Some 4).
Proof. repeat split; by vm_compute. Qed.

(** C8, as amended.  For every board with an empty cell, [getRandomMove]
    draws from the empty center and corner cells when the first random
    number is below the binary64 number [0.3] and there is such a cell,
    and from all the empty cells otherwise.  The result is the candidate
    at the index [Math.floor(r * n)] for the second random number [r] and
    the [n] candidates, and it is an empty cell of the board.  The choice
    is uniform up to the rounding of the binary64 product: a draw in the
    [k]-th of the [n] equal intervals, [k / n <= r < (k + 1) / n], selects
    the [k]-th candidate, except that it selects the next one when the
    product rounds up to [k + 1], which takes an exact product above
    [(k + 1) * (1 - 2 ^ -53)]. *)
Theorem casual_policy_draws_uniformly (b : Board) (g : rng) :
  getEmptyIndices b ≠ [] → unit_float (g 1%nat) →
  let candidates :=
    if float_ltb (g 0%nat) literal_0_3
       && (0 <? length (List.filter preferred (getEmptyIndices b)))
    then List.filter preferred (getEmptyIndices b) else getEmptyIndices b in
  (∀ i, i ∈ List.filter preferred (getEmptyIndices b)
        ↔ b !! i = Some Null ∧ (i = 4 ∨ In i [0; 2; 6; 8]))
  ∧ (∃ k i, candidates !! k = Some i
            ∧ (getRandomMove (getEmptyIndices b) g).1 = Some i
            ∧ Z.of_nat k = floor (times_length (g 1%nat) (length candidates))
            ∧ b !! i = Some Null)
  ∧ (∀ k, (Z.of_nat k < 2 ^ 53)%Z → in_slot k (length candidates) (g 1%nat) →
          (getRandomMove (getEmptyIndices b) g).1 = candidates !! k
          ∨ ((getRandomMove (getEmptyIndices b) g).1 = candidates !! S k
             ∧ rounds_up k (length candidates) (g 1%nat))).
Proof.
  intros Hne H1 candidates.
  change candidates with (casual_candidates b (g 0)).
  split; [apply elem_of_preferred|].
  rewrite getRandomMove_pick. cbn [fst]. split.
  - destruct (pick_Some (casual_candidates b (g 0)) (g 1) H1) as (k & i & Hk & Hp & Hf).
    { by apply casual_candidates_nonempty. }
    exists k, i. repeat split; try done.
    apply (casual_candidates_empty b (g 0)). apply list_elem_of_lookup. eauto.
  - intros k Hk Hslot. by apply pick_slot.
Qed.

Lemma casual_policy_draws_uniformly_witness :
  getEmptyIndices board_win_or_block ≠ []
  ∧ unit_float (constant_rng float_1_4 1%nat)
  ∧ (Z.of_nat 0 < 2 ^ 53)%Z
  ∧ in_slot 0 3 float_1_4
  ∧ (getRandomMove (getEmptyIndices board_win_or_block) (constant_rng float_1_4)).1
    = Some 2.
Proof.
  assert (H1 : getEmptyIndices board_win_or_block ≠ []) by discriminate.
  assert (H2 : unit_float (constant_rng float_1_4 1%nat)) by (vm_compute; done).
  assert (H3 : (Z.of_nat 0 < 2 ^ 53)%Z) by reflexivity.
  assert (H4 : in_slot 0 3 float_1_4) by (vm_compute; done).
  repeat (split; [assumption|]).
  destruct (proj2 (proj2 (casual_policy_draws_uniformly board_win_or_block
                            (constant_rng float_1_4) H1 H2)) 0%nat H3 H4)
    as [H|[H Hup]]; [exact H|].
  exfalso. revert Hup. vm_compute. done.
Defined.

(** C8, as stated, fails: the intervals of the draws that select the
    candidates are not exactly equal.  With the seven empty cells of
    [board_opened] as candidates, the draw [2573485501354569 / 2 ^ 52],
    a number of [Math.random], lies in the interval of the candidate at
    index 3, [3 / 7 <= r < 4 / 7]; the binary64 product [r * 7] rounds up
    to 4 and the candidate at index 4 is returned. *)
Lemma casual_policy_rounds_to_next_candidate :
  unit_float float_below_4_7
  ∧ in_slot 3 7 float_below_4_7
  ∧ getEmptyIndices board_opened = [1; 2; 3; 5; 6; 7; 8]
  ∧ float_ltb float_1_2 literal_0_3 = false
  ∧ (getRandomMove (getEmptyIndices board_opened)
                   (rng_of [float_1_2; float_below_4_7])).1 = Some 6
  ∧ getEmptyIndices board_opened !! 3%nat = Some 5.
Proof. repeat split; by vm_compute. Qed.

(** C9, as amended.  For every board with an empty cell on which neither
    player has completed a combination, the root call of [minimax]
    returns, with a non-null index that is an empty cell of the board, and
    that index is what [getOptimalMove] returns. *)
Theorem getOptimalMove_returns_empty_cell (ai human : player) (b : Board) (i : nat) :
  b !! i = Some Null →
  checkForWin ai b = false → checkForWin human b = false →
  ∃ r k, minimax_fuel ai human 10 b ai true 0 NegInf PosInf = Some (r, b)
         ∧ index r = Some k
         ∧ (getOptimalMove ai human b).1 = Some k
         ∧ b !! k = Some Null.
Proof.
  intros Hi H1 H2.
  destruct (unpruned_index_inner ai human 8 b true 0 H1 H2
              (getEmptyIndices_nonempty b i Hi)) as (k & Hk & Hnull & _).
  exists (unpruned ai human 9 b true 0), k.
  split; [apply minimax_fuel_root|]. split; [done|].
  split; [|done]. by rewrite getOptimalMove_unpruned.
Qed.

Lemma getOptimalMove_returns_empty_cell_witness :
  board_win_or_block !! 2 = Some Null
  ∧ checkForWin PLAYER_O board_win_or_block = false
  ∧ checkForWin PLAYER_X board_win_or_block = false
  ∧ ∃ r k, minimax_fuel PLAYER_O PLAYER_X 10 board_win_or_block PLAYER_O true 0
                        NegInf PosInf = Some (r, board_win_or_block)
           ∧ index r = Some k
           ∧ (getOptimalMove PLAYER_O PLAYER_X board_win_or_block).1 = Some k
           ∧ board_win_or_block !! k = Some Null.
Proof.
  repeat (split; [reflexivity|]).
  apply (getOptimalMove_returns_empty_cell PLAYER_O PLAYER_X board_win_or_block 2);
    reflexivity.
Defined.

(** C9, as stated, fails on a board that has an empty cell and a completed
    combination: the root call returns at once with the index [null]. *)
Lemma getOptimalMove_null_on_decided_board :
  board_decided !! 5 = Some Null
  ∧ minimax_fuel PLAYER_O PLAYER_X 10 board_decided PLAYER_O true 0 NegInf PosInf
    = Some (mkMove (Fin (-10)) None, board_decided)
  ∧ (getOptimalMove PLAYER_O PLAYER_X board_decided).1 = None.
Proof. repeat split. Qed.

(** C10.  For every difficulty other than ['easy'], ['medium'] and
    ['hard'] and every board with an empty cell, [getBestAIMove] returns
    what [getRandomMove] returns on the empty cells, as it does for
    ['easy']; for a number of [Math.random] (a binary64 number in
    [0, 1)) that is an empty cell of the board, not [null]. *)
Theorem unknown_difficulty_plays_casual (st : state) (g : rng) :
  difficulty st ≠ "easy" → difficulty st ≠ "medium" → difficulty st ≠ "hard" →
  getEmptyIndices (board st) ≠ [] →
  getBestAIMove st g
  = (Normal (getRandomMove (getEmptyIndices (board st)) g).1, st,
     (getRandomMove (getEmptyIndices (board st)) g).2)
  ∧ getBestAIMove (handleDifficultyChange st "easy") g
    = (Normal (getRandomMove (getEmptyIndices (board st)) g).1,
       handleDifficultyChange st "easy",
       (getRandomMove (getEmptyIndices (board st)) g).2)
  ∧ (unit_float (g 1%nat) →
     ∃ i, (getBestAIMove st g).1.1 = Normal (Some i) ∧ board st !! i = Some Null).
Proof.
  intros He Hm Hh Hne.
  assert (Hlen : (length (getEmptyIndices (board st)) =? 0) = false).
  { apply Nat.eqb_neq. by destruct (getEmptyIndices (board st)). }
  assert (Hst : getBestAIMove st g
    = (Normal (getRandomMove (getEmptyIndices (board st)) g).1, st,
       (getRandomMove (getEmptyIndices (board st)) g).2)).
  { unfold getBestAIMove. rewrite Hlen.
    apply String.eqb_neq in He, Hm, Hh. rewrite He, Hm, Hh.
    by destruct (getRandomMove _ g). }
  split; [done|]. split.
  - unfold getBestAIMove, handleDifficultyChange.
    destruct (negb (String.eqb "easy" (difficulty st))) eqn:E;
      cbn [String.eqb negb andb board difficulty]; rewrite Hlen.
    + cbn [String.eqb Ascii.eqb Bool.eqb andb]. by destruct (getRandomMove _ g).
    + apply negb_false_iff, String.eqb_eq in E. congruence.
  - intros H1. rewrite Hst. cbn [fst]. rewrite getRandomMove_pick. cbn [fst].
    destruct (pick_Some (casual_candidates (board st) (g 0)) (g 1) H1)
      as (k & i & Hk & Hp & _).
    { by apply casual_candidates_nonempty. }
    exists i. rewrite Hp. split; [done|].
    apply (casual_candidates_empty (board st) (g 0)). apply list_elem_of_lookup. eauto.
Qed.

Lemma unknown_difficulty_plays_casual_witness :
  getBestAIMove (state_on "expert" board_win_or_block) (constant_rng float_1_4)
  = (Normal (Some 2), state_on "expert" board_win_or_block,
     (getRandomMove (getEmptyIndices board_win_or_block) (constant_rng float_1_4)).2)
  ∧ (getBestAIMove (state_on "easy" board_win_or_block) (constant_rng float_1_4)).1.1
    = Normal (Some 2).
Proof.
  assert (H := unknown_difficulty_plays_casual
                 (state_on "expert" board_win_or_block) (constant_rng float_1_4)
                 ltac:(discriminate) ltac:(discriminate) ltac:(discriminate)
                 ltac:(discriminate)).
  destruct H as (H1 & H2 & _). split; [exact H1|].
  change (state_on "easy" board_win_or_block)
    with (handleDifficultyChange (state_on "expert" board_win_or_block) "easy").
  by rewrite H2.
Defined.

(** * Further properties of the code *)

(** ** The empty indices *)

Lemma filter_seq_sorted (f : nat → bool) (s n : nat) :
  StronglySorted lt (List.filter f (seq s n)).
Proof.
  revert s. induction n as [|n IH]; intros s; cbn [seq List.filter].
  - constructor.
  - destruct (f s); [|apply IH]. constructor; [apply IH|].
    apply List.Forall_forall. intros x [Hx%in_seq _]%filter_In. lia.
Qed.

(** X1.  [getEmptyIndices] returns the indices of the cells that hold
    [null], each once, in strictly ascending order. *)
Theorem getEmptyIndices_ascending (b : Board) :
  StronglySorted lt (getEmptyIndices b)
  ∧ NoDup (getEmptyIndices b)
  ∧ (∀ i, i ∈ getEmptyIndices b ↔ b !! i = Some Null)
  ∧ length (getEmptyIndices b) ≤ length b.
Proof.
  split; [rewrite getEmptyIndices_filter; apply filter_seq_sorted|].
  split.
  - rewrite getEmptyIndices_filter. apply NoDup_ListNoDup, List.NoDup_filter, seq_NoDup.
  - split; [apply elem_of_getEmptyIndices|].
    rewrite getEmptyIndices_filter.
    etrans; [apply filter_length_le|]. by rewrite length_seq.
Qed.

(** ** The fork heuristics as searches on copies of the board *)

Lemma findForkMove_loop_find (p : player) (l : list nat) (b : Board) :
  (∀ i, i ∈ l → b !! i = Some Null) →
  findForkMove_loop p l b = (List.find (fork_at p b) l, b).
Proof.
  induction l as [|i l IH]; intros Hnull; cbn [findForkMove_loop List.find]; [done|].
  rewrite set_revert by (apply Hnull; left).
  fold (fork_at p b i). destruct (fork_at p b i); [done|].
  apply IH. intros j Hj. apply Hnull. by right.
Qed.

Lemma findForkMove_find (p : player) (b : Board) :
  findForkMove p b = (List.find (fork_at p b) (getEmptyIndices b), b).
Proof. apply findForkMove_loop_find. intros i. apply elem_of_getEmptyIndices. Qed.

Lemma findBlockForkMove_loop_find (ai human : player) (l : list nat) (b : Board) :
  (∀ i, i ∈ l → b !! i = Some Null) →
  findBlockForkMove_loop ai human l b = (List.find (forces_defense ai human b) l, b).
Proof.
  induction l as [|i l IH]; intros Hnull;
    cbn [findBlockForkMove_loop List.find]; [done|].
  assert (Hi : b !! i = Some Null) by (apply Hnull; left).
  assert (Hl : findBlockForkMove_loop ai human l b
               = (List.find (forces_defense ai human b) l, b)).
  { apply IH. intros j Hj. apply Hnull. by right. }
  unfold forces_defense at 1.
  destruct (findWinningMove ai (set b i (Mark ai))) as [fd|] eqn:Efd.
  - apply findWinningMove_null in Efd.
    rewrite findForkMove_find. cbv zeta.
    rewrite (set_revert _ _ _ Efd), (set_revert _ _ _ Hi).
    destruct (List.find (fork_at human _) _); [exact Hl|done].
  - rewrite (set_revert _ _ _ Hi). exact Hl.
Qed.

Lemma findBlockForkMove_find (ai human : player) (b : Board) :
  findBlockForkMove ai human b
  = (match List.find (fork_at human b) (getEmptyIndices b) with
     | Some humanFork => Some humanFork
     | None => List.find (forces_defense ai human b) (getEmptyIndices b)
     end, b).
Proof.
  unfold findBlockForkMove. rewrite findForkMove_find.
  destruct (List.find (fork_at human b) (getEmptyIndices b)); [done|].
  apply findBlockForkMove_loop_find. intros i. apply elem_of_getEmptyIndices.
Qed.

(** X2.  [findForkMove] and [findBlockForkMove], which write tentative
    marks into the board and take them back, compute what a search over
    copies of the board computes: [findForkMove] returns the first empty
    cell, in ascending order, where the player's mark leaves at least two
    combinations with two of its marks and one empty cell, and [null] when
    there is none; [findBlockForkMove] returns the opponent's fork cell
    when there is one, and otherwise the first empty cell where the
    engine's mark forces a defense after which the opponent has no fork. *)
Theorem fork_heuristics_search_copies (ai human : player) (b : Board) :
  (∀ p, findForkMove p b = (List.find (fork_at p b) (getEmptyIndices b), b))
  ∧ findBlockForkMove ai human b
    = (match List.find (fork_at human b) (getEmptyIndices b) with
       | Some humanFork => Some humanFork
       | None => List.find (forces_defense ai human b) (getEmptyIndices b)
       end, b).
Proof.
  split; [intros p; apply findForkMove_find|apply findBlockForkMove_find].
Qed.

(** ** Every policy returns an empty cell *)

Lemma pick_elem (l : list nat) (r : float) (i : nat) : pick l r = Some i → i ∈ l.
Proof.
  unfold pick. destruct (_ <? _)%Z; [done|]. intros H.
  apply list_elem_of_lookup. eauto.
Qed.

Lemma find_elem (f : nat → bool) (l : list nat) (i : nat) :
  List.find f l = Some i → i ∈ l.
Proof. intros H. apply list_elem_of_In. by apply find_some in H as [? _]. Qed.

Lemma filter_includes_elem (l l' : list nat) (i : nat) :
  i ∈ List.filter (includes l) l' → i ∈ l.
Proof.
  rewrite !list_elem_of_In, filter_In. intros [_ H]. by apply includes_In.
Qed.

Lemma cornerEdgeMove_elem (l : list nat) (g : rng) (i : nat) :
  (cornerEdgeMove l g).1 = Some i → i ∈ l.
Proof.
  unfold cornerEdgeMove, random.
  destruct (0 <? length (List.filter (includes l) CORNERS)).
  { cbn [fst]. intros H%pick_elem. by eapply filter_includes_elem. }
  destruct (0 <? length (List.filter (includes l) EDGES)).
  { cbn [fst]. intros H%pick_elem. by eapply filter_includes_elem. }
  cbn [fst]. apply pick_elem.
Qed.

Lemma cornerEdgeMove_Some (l : list nat) (g : rng) :
  l ≠ [] → unit_float (g 0%nat) →
  ∃ i, (cornerEdgeMove l g).1 = Some i.
Proof.
  intros Hl H1. unfold cornerEdgeMove, random.
  destruct (List.filter (includes l) CORNERS) as [|c cs] eqn:Ec; cbn [length Nat.ltb Nat.leb].
  - destruct (List.filter (includes l) EDGES) as [|e es] eqn:Ee; cbn [length Nat.ltb Nat.leb].
    + destruct (pick_Some l (g 0) H1 Hl) as (k & i & _ & Hp & _). cbn [fst]. eauto.
    + destruct (pick_Some (e :: es) (g 0) H1) as (k & i & _ & Hp & _); [done|].
      cbn [fst]. eauto.
  - destruct (pick_Some (c :: cs) (g 0) H1) as (k & i & _ & Hp & _); [done|].
    cbn [fst]. eauto.
Qed.

Lemma findBlockForkMove_elem ai human (b : Board) (k : nat) :
  (findBlockForkMove ai human b).1 = Some k → k ∈ getEmptyIndices b.
Proof.
  unfold findBlockForkMove. rewrite findForkMove_find.
  destruct (List.find (fork_at human b) (getEmptyIndices b)) as [f|] eqn:Ef.
  { cbn [fst]. intros [= <-]. by apply find_elem in Ef. }
  rewrite findBlockForkMove_loop_find by (intros i; apply elem_of_getEmptyIndices).
  cbn [fst]. apply find_elem.
Qed.

Lemma getStrategicMove_elem ai human (b : Board) (g : rng) (k : nat) :
  (getStrategicMove ai human (getEmptyIndices b) b g).1.1 = Some k →
  b !! k = Some Null.
Proof.
  unfold getStrategicMove.
  destruct (findWinningMove ai b) as [w|] eqn:Ew.
  { cbn [fst]. intros [= <-]. by apply findWinningMove_null in Ew. }
  destruct (findWinningMove human b) as [w|] eqn:Eh.
  { cbn [fst]. intros [= <-]. by apply findWinningMove_null in Eh. }
  rewrite findForkMove_find.
  destruct (List.find (fork_at ai b) (getEmptyIndices b)) as [f|] eqn:Ef.
  { cbn [fst]. intros [= <-]. by apply find_elem, elem_of_getEmptyIndices in Ef. }
  pose proof (findBlockForkMove_elem ai human b k) as Hbf.
  pose proof (findBlockForkMove_frame ai human b) as Hfr.
  destruct (findBlockForkMove ai human b) as [[f|] b']; cbn in Hbf, Hfr; subst b'.
  { cbn [fst]. intros [= <-]. by apply elem_of_getEmptyIndices, Hbf. }
  destruct (includes (getEmptyIndices b) CENTER) eqn:Ec.
  { cbn [fst]. intros [= <-]. by apply elem_of_getEmptyIndices, list_elem_of_In, includes_In. }
  pose proof (cornerEdgeMove_elem (getEmptyIndices b) g k) as Hce.
  destruct (cornerEdgeMove (getEmptyIndices b) g) as [m g'].
  destruct (findOppositeCorner human b) as [oc|].
  - destruct (includes (getEmptyIndices b) oc) eqn:Eo.
    + cbn [fst]. intros [= <-]. by apply elem_of_getEmptyIndices, list_elem_of_In, includes_In.
    + cbn [fst]. intros H. by apply elem_of_getEmptyIndices, Hce.
  - cbn [fst]. intros H. by apply elem_of_getEmptyIndices, Hce.
Qed.

Lemma getRandomMove_elem (b : Board) (g : rng) (k : nat) :
  (getRandomMove (getEmptyIndices b) g).1 = Some k → b !! k = Some Null.
Proof.
  rewrite getRandomMove_pick. cbn [fst]. intros H%pick_elem.
  by apply casual_candidates_empty in H.
Qed.

Lemma getOptimalMove_elem ai human (b : Board) (k : nat) :
  (getOptimalMove ai human b).1 = Some k → b !! k = Some Null.
Proof.
  rewrite getOptimalMove_unpruned. cbn [fst]. intros H.
  by apply unpruned_move_first_optimal in H as [? _].
Qed.

Lemma getBestAIMove_board (st : state) (g : rng) :
  board (getBestAIMove st g).1.2 = board st.
Proof.
  unfold getBestAIMove.
  destruct (length (getEmptyIndices (board st)) =? 0); [done|].
  destruct (String.eqb (difficulty st) "easy"); [by destruct (getRandomMove _ g)|].
  destruct (String.eqb (difficulty st) "medium").
  { pose proof (getStrategicMove_frame (aiPlayer st) (humanPlayer st)
                  (getEmptyIndices (board st)) (board st) g) as Hf.
    by destruct (getStrategicMove _ _ _ _ g) as [[m b'] g']. }
  destruct (String.eqb (difficulty st) "hard").
  { pose proof (getOptimalMove_frame (aiPlayer st) (humanPlayer st) (board st)) as Hf.
    by destruct (getOptimalMove _ _ _) as [m b']. }
  by destruct (getRandomMove _ g).
Qed.

Lemma getBestAIMove_empty (st : state) (g : rng) :
  match (getBestAIMove st g).1.1 with
  | Normal (Some k) => board st !! k = Some Null
  | Normal None => True
  | Throw _ => False
  end.
Proof.
  unfold getBestAIMove.
  destruct (length (getEmptyIndices (board st)) =? 0); [done|].
  destruct (String.eqb (difficulty st) "easy").
  { pose proof (getRandomMove_elem (board st) g) as H.
    destruct (getRandomMove _ g) as [[k|] g']; cbn [fst snd] in *; auto. }
  destruct (String.eqb (difficulty st) "medium").
  { pose proof (getStrategicMove_elem (aiPlayer st) (humanPlayer st) (board st) g) as H.
    destruct (getStrategicMove _ _ _ _ g) as [[[k|] b'] g']; cbn [fst snd] in *; auto. }
  destruct (String.eqb (difficulty st) "hard").
  { pose proof (getOptimalMove_elem (aiPlayer st) (humanPlayer st) (board st)) as H.
    destruct (getOptimalMove _ _ _) as [[k|] b']; cbn [fst snd] in *; auto. }
  pose proof (getRandomMove_elem (board st) g) as H.
  destruct (getRandomMove _ g) as [[k|] g']; cbn [fst snd] in *; auto.
Qed.

(** X3.  Whatever the state, the difficulty and the random numbers,
    [getBestAIMove] returns [null] or the index of a cell that holds
    [null]: never an occupied cell, never an index outside the board. *)
Theorem getBestAIMove_never_occupied (st : state) (g : rng) :
  match (getBestAIMove st g).1.1 with
  | Normal (Some k) => board st !! k = Some Null
  | Normal None => True
  | Throw _ => False
  end.
Proof. apply getBestAIMove_empty. Qed.

Lemma getStrategicMove_Some (ai human : player) (b : Board) (g : rng) :
  getEmptyIndices b ≠ [] → unit_float (g 0%nat) →
  ∃ k, (getStrategicMove ai human (getEmptyIndices b) b g).1.1 = Some k.
Proof.
  intros Hne H1. unfold getStrategicMove.
  destruct (findWinningMove ai b); [by eexists|].
  destruct (findWinningMove human b); [by eexists|].
  destruct (findForkMove ai b) as [[f|] b1]; [by eexists|].
  destruct (findBlockForkMove ai human b1) as [[f|] b2]; [by eexists|].
  destruct (includes (getEmptyIndices b) CENTER); [by eexists|].
  destruct (cornerEdgeMove_Some (getEmptyIndices b) g Hne H1) as [i Hi].
  destruct (cornerEdgeMove (getEmptyIndices b) g) as [m g']. cbn [fst] in Hi. subst m.
  destruct (findOppositeCorner human b2) as [oc|]; [|by eexists].
  destruct (includes (getEmptyIndices b) oc); by eexists.
Qed.

(** X4.  On a board with an empty cell and with a number of
    [Math.random] (a binary64 number in [0, 1)), the rule cascade of
    [getStrategicMove] always ends with a move: it returns the index of
    an empty cell, never [null] or [undefined]. *)
Theorem getStrategicMove_finds_empty_cell (ai human : player) (b : Board) (g : rng) :
  getEmptyIndices b ≠ [] → unit_float (g 0%nat) →
  ∃ k, (getStrategicMove ai human (getEmptyIndices b) b g).1.1 = Some k
       ∧ b !! k = Some Null.
Proof.
  intros Hne H1.
  destruct (getStrategicMove_Some ai human b g Hne H1) as [k Hk].
  exists k. split; [done|]. by eapply getStrategicMove_elem.
Qed.

Lemma getStrategicMove_finds_empty_cell_witness :
  getEmptyIndices board_short ≠ []
  ∧ unit_float (constant_rng float_1_2 0%nat)
  ∧ ∃ k, (getStrategicMove PLAYER_X PLAYER_O (getEmptyIndices board_short)
                           board_short (constant_rng float_1_2)).1.1 = Some k
         ∧ board_short !! k = Some Null.
Proof.
  assert (H1 : getEmptyIndices board_short ≠ []) by discriminate.
  assert (H2 : unit_float (constant_rng float_1_2 0%nat)) by (vm_compute; done).
  repeat (split; [assumption|]).
  exact (getStrategicMove_finds_empty_cell PLAYER_X PLAYER_O board_short
           (constant_rng float_1_2) H1 H2).
Defined.

(** ** What the two move handlers do to the state *)

Lemma getBestAIMove_state (st : state) (g : rng) : (getBestAIMove st g).1.2 = st.
Proof.
  pose proof (getBestAIMove_board st g) as Hb. revert Hb.
  unfold getBestAIMove.
  destruct (length (getEmptyIndices (board st)) =? 0); [done|].
  destruct (String.eqb (difficulty st) "easy"); [by destruct (getRandomMove _ g)|].
  destruct (String.eqb (difficulty st) "medium").
  { destruct (getStrategicMove _ _ _ _ g) as [[m b'] g']. cbn. intros ->. by destruct st. }
  destruct (String.eqb (difficulty st) "hard").
  { destruct (getOptimalMove _ _ _) as [m b']. cbn. intros ->. by destruct st. }
  by destruct (getRandomMove _ g).
Qed.

Lemma makeMove_board (st : state) (k : nat) (p : player) :
  board st !! k = Some Null →
  board (makeMove st k p).1 = (if 8 <? k then board st else set (board st) k (Mark p))
  ∧ gameState (makeMove st k p).1 = gameState st
  ∧ currentPlayer (makeMove st k p).1 = currentPlayer st
  ∧ humanPlayer (makeMove st k p).1 = humanPlayer st
  ∧ aiPlayer (makeMove st k p).1 = aiPlayer st
  ∧ difficulty (makeMove st k p).1 = difficulty st.
Proof.
  intros Hk. unfold makeMove. rewrite (proj2 (get_null _ _) Hk).
  by destruct (8 <? k).
Qed.

(** [makeAIMove] either leaves the state alone or places the engine's
    mark at an index returned by [getBestAIMove] and goes on as
    [afterMove] says. *)
Lemma makeAIMove_cases (st : state) (g : rng) :
  (makeAIMove st g).1 = st
  ∨ (is_playing (gameState st) = true
     ∧ currentPlayer st = aiPlayer st
     ∧ ∃ k, board st !! k = Some Null
            ∧ (makeAIMove st g).1
              = afterMove (makeMove st k (aiPlayer st)).1 (aiPlayer st)).
Proof.
  unfold makeAIMove.
  destruct (is_playing (gameState st)) eqn:Ep; cbn [negb orb]; [|by left].
  destruct (player_eqb (currentPlayer st) (aiPlayer st)) eqn:Ec; cbn [negb]; [|by left].
  apply player_eqb_eq in Ec.
  pose proof (getBestAIMove_state st g) as Hst.
  pose proof (getBestAIMove_empty st g) as Hk.
  destruct (getBestAIMove st g) as [[c st1] g1]. cbn [fst snd] in *. subst st1.
  destruct c as [[k|]|e]; [|by left|by left].
  right. split; [done|]. split; [done|]. exists k. split; [done|].
  destruct (makeMove_board st k (aiPlayer st) Hk) as (_ & _ & _ & _ & Ha & _).
  destruct (makeMove st k (aiPlayer st)) as [st0 ok]. cbn [fst] in *. by rewrite Ha.
Qed.

Lemma handlePlayerInput_moved (st : state) (i : nat) :
  handlePlayerInput st i = st
  ∨ (is_playing (gameState st) = true
     ∧ currentPlayer st = humanPlayer st
     ∧ i ≤ 8 ∧ board st !! i = Some Null
     ∧ handlePlayerInput st i
       = afterMove (makeMove st i (humanPlayer st)).1 (humanPlayer st)).
Proof.
  unfold handlePlayerInput.
  destruct (is_playing (gameState st)) eqn:Ep; cbn [negb]; [|by left].
  destruct (Nat.ltb_spec 8 i); [by left|].
  destruct (player_eqb (currentPlayer st) (humanPlayer st)) eqn:Ec; cbn [negb]; [|by left].
  apply player_eqb_eq in Ec.
  destruct (is_null (get (board st) i)) eqn:En; cbn [negb]; [|by left].
  apply get_null in En.
  right. repeat (split; [done || lia|]).
  destruct (makeMove_board st i (humanPlayer st) En) as (_ & _ & _ & Hh & _).
  destruct (makeMove st i (humanPlayer st)) as [st0 ok]. cbn [fst] in *. by rewrite Hh.
Qed.

Lemma afterMove_fields (st : state) (p : player) :
  board (afterMove st p) = board st
  ∧ humanPlayer (afterMove st p) = humanPlayer st
  ∧ aiPlayer (afterMove st p) = aiPlayer st
  ∧ difficulty (afterMove st p) = difficulty st.
Proof.
  unfold afterMove, endGame, switchTurns.
  destruct (checkForWin p (board st)); [done|].
  by destruct (checkForDraw (board st)).
Qed.

Lemma afterMove_makeMove_board (st : state) (k : nat) (p : player) :
  board st !! k = Some Null →
  board (afterMove (makeMove st k p).1 p)
  = (if 8 <? k then board st else set (board st) k (Mark p)).
Proof.
  intros Hk. destruct (afterMove_fields (makeMove st k p).1 p) as [-> _].
  by apply makeMove_board.
Qed.

Lemma makeAIMove_board_cases (st : state) (g : rng) :
  board (makeAIMove st g).1 = board st
  ∨ ∃ k, board st !! k = Some Null
         ∧ board (makeAIMove st g).1 = set (board st) k (Mark (aiPlayer st)).
Proof.
  destruct (makeAIMove_cases st g) as [->|(_ & _ & k & Hk & ->)]; [by left|].
  rewrite afterMove_makeMove_board by done. destruct (8 <? k); [by left|]. right. eauto.
Qed.

Lemma handlePlayerInput_board_cases (st : state) (i : nat) :
  board (handlePlayerInput st i) = board st
  ∨ (board st !! i = Some Null
     ∧ board (handlePlayerInput st i) = set (board st) i (Mark (humanPlayer st))).
Proof.
  destruct (handlePlayerInput_moved st i) as [->|(_ & _ & Hi & Hn & ->)]; [by left|].
  rewrite afterMove_makeMove_board by done.
  destruct (Nat.ltb_spec 8 i); [lia|]. by right.
Qed.

Lemma makeAIMove_length (st : state) (g : rng) :
  length (board (makeAIMove st g).1) = length (board st).
Proof.
  destruct (makeAIMove_board_cases st g) as [->|(k & _ & ->)]; [done|].
  apply length_insert.
Qed.

Lemma handlePlayerInput_length (st : state) (i : nat) :
  length (board (handlePlayerInput st i)) = length (board st).
Proof.
  destruct (handlePlayerInput_board_cases st i) as [->|(_ & ->)]; [done|].
  apply length_insert.
Qed.

(** The two handlers keep the sides and the difficulty. *)
Lemma afterMove_makeMove_players (st : state) (k : nat) (p : player) :
  board st !! k = Some Null →
  humanPlayer (afterMove (makeMove st k p).1 p) = humanPlayer st
  ∧ aiPlayer (afterMove (makeMove st k p).1 p) = aiPlayer st
  ∧ difficulty (afterMove (makeMove st k p).1 p) = difficulty st.
Proof.
  intros Hk.
  destruct (afterMove_fields (makeMove st k p).1 p) as (_ & -> & -> & ->).
  by destruct (makeMove_board st k p Hk) as (_ & _ & _ & -> & -> & ->).
Qed.

Lemma makeAIMove_players (st : state) (g : rng) :
  humanPlayer (makeAIMove st g).1 = humanPlayer st
  ∧ aiPlayer (makeAIMove st g).1 = aiPlayer st
  ∧ difficulty (makeAIMove st g).1 = difficulty st.
Proof.
  destruct (makeAIMove_cases st g) as [->|(_ & _ & k & Hk & ->)]; [done|].
  by apply afterMove_makeMove_players.
Qed.

Lemma handlePlayerInput_players (st : state) (i : nat) :
  humanPlayer (handlePlayerInput st i) = humanPlayer st
  ∧ aiPlayer (handlePlayerInput st i) = aiPlayer st
  ∧ difficulty (handlePlayerInput st i) = difficulty st.
Proof.
  destruct (handlePlayerInput_moved st i) as [->|(_ & _ & _ & Hk & ->)]; [done|].
  by apply afterMove_makeMove_players.
Qed.

(** X5.  A call of [makeAIMove] or a click changes at most one cell of the
    board, and only from [null] to the mark of the player who moves: no
    mark is ever overwritten or removed, and the board keeps its
    length. *)
Theorem moves_only_fill_empty_cells (st : state) (g : rng) (i : nat) :
  (board (makeAIMove st g).1 = board st
   ∨ ∃ k, board st !! k = Some Null
          ∧ board (makeAIMove st g).1 = set (board st) k (Mark (aiPlayer st)))
  ∧ (board (handlePlayerInput st i) = board st
     ∨ (board st !! i = Some Null
        ∧ board (handlePlayerInput st i) = set (board st) i (Mark (humanPlayer st))))
  ∧ length (board (makeAIMove st g).1) = length (board st)
  ∧ length (board (handlePlayerInput st i)) = length (board st).
Proof.
  split; [apply makeAIMove_board_cases|].
  split; [apply handlePlayerInput_board_cases|].
  split; [apply makeAIMove_length|apply handlePlayerInput_length].
Qed.

(** ** The recorded outcome agrees with the board *)

Lemma forallb_not_null (b : Board) :
  forallb (fun c => negb (is_null c)) b = true ↔ getEmptyIndices b = [].
Proof.
  rewrite forallb_forall. split.
  - intros H. destruct (getEmptyIndices b) as [|i l] eqn:E; [done|]. exfalso.
    assert (Hi : i ∈ getEmptyIndices b) by (rewrite E; left).
    apply elem_of_getEmptyIndices in Hi.
    specialize (H Null). rewrite <- list_elem_of_In in H.
    assert (Null ∈ b) by (apply list_elem_of_lookup; eauto). by specialize (H ltac:(done)).
  - intros E c Hc. destruct c; try done. exfalso.
    apply list_elem_of_In, list_elem_of_lookup in Hc as [i Hi].
    apply elem_of_getEmptyIndices in Hi. rewrite E in Hi. by apply not_elem_of_nil in Hi.
Qed.

Lemma checkForDraw_true (b : Board) :
  checkForDraw b = true
  ↔ getEmptyIndices b = [] ∧ checkForWin PLAYER_X b = false
    ∧ checkForWin PLAYER_O b = false.
Proof.
  unfold checkForDraw. rewrite !andb_true_iff, !negb_true_iff, forallb_not_null. tauto.
Qed.

Lemma other_neq (p : player) : Mark p ≠ Mark (other p).
Proof. by destruct p. Qed.

Lemma checkForWin_other_set (p : player) (b : Board) (k : nat) :
  b !! k = Some Null → checkForWin (other p) b = false →
  checkForWin (other p) (set b k (Mark p)) = false.
Proof.
  intros Hk Hno. destruct (checkForWin (other p) (set b k (Mark p))) eqn:E; [|done].
  apply checkForWin_set_inv in E; [congruence|done|apply other_neq].
Qed.

(** After a move of [p] on a board without a completed combination,
    [afterMove] records what the board shows. *)
Lemma afterMove_outcome (st : state) (p : player) :
  is_playing (gameState st) = true →
  checkForWin (other p) (board st) = false →
  outcome_ok (afterMove st p).
Proof.
  intros Hplay Hother. unfold afterMove, outcome_ok.
  destruct (checkForWin p (board st)) eqn:Ew.
  { unfold endGame, with_gameState. cbn [gameState board].
    destruct p; cbn [gameState board other] in *; done. }
  destruct (checkForDraw (board st)) eqn:Ed.
  { unfold endGame, with_gameState. by cbn [gameState board]. }
  unfold switchTurns. cbn [gameState board].
  destruct (gameState st); try done.
  assert (Hx : checkForWin PLAYER_X (board st) = false) by (by destruct p).
  assert (Ho : checkForWin PLAYER_O (board st) = false) by (by destruct p).
  split; [done|]. split; [done|]. intros Hempty.
  assert (checkForDraw (board st) = true) by (by apply checkForDraw_true).
  congruence.
Qed.

Lemma outcome_ok_playing (st : state) (p : player) :
  outcome_ok st → is_playing (gameState st) = true →
  checkForWin p (board st) = false ∧ getEmptyIndices (board st) ≠ [].
Proof.
  unfold outcome_ok. destruct (gameState st); try done.
  intros (Hx & Ho & He) _. by destruct p.
Qed.

Lemma outcome_ok_after (st : state) (k : nat) (p : player) :
  outcome_ok st → is_playing (gameState st) = true →
  board st !! k = Some Null →
  outcome_ok (afterMove (makeMove st k p).1 p).
Proof.
  intros Hok Hp Hk.
  destruct (makeMove_board st k p Hk) as (Hb & Hg & _).
  apply afterMove_outcome; [by rewrite Hg|]. rewrite Hb.
  destruct (outcome_ok_playing st (other p) Hok Hp) as [Hno _].
  destruct (8 <? k); [done|]. by apply checkForWin_other_set.
Qed.

Lemma checkForWin_all_null (p : player) (b : Board) :
  checkForWin p (List.map (fun _ => Null) b) = false.
Proof.
  destruct (checkForWin p _) eqn:E; [|done]. exfalso.
  apply checkForWin_true in E as (combo & Hin & H).
  destruct (WINNING_COMBINATIONS_triple _ Hin) as (x & y & z & -> & _).
  specialize (H x ltac:(by left)). unfold get in H.
  change (List.map (fun _ : cell => Null) b) with ((fun _ : cell => Null) <$> b) in H.
  rewrite list_lookup_fmap in H. by destruct (b !! x).
Qed.

Lemma outcome_ok_startNewRound (st : state) :
  board st ≠ [] → outcome_ok (startNewRound st).
Proof.
  intros Hb. unfold outcome_ok, startNewRound. cbn [gameState board].
  rewrite !checkForWin_all_null. split; [done|]. split; [done|].
  apply (getEmptyIndices_nonempty _ 0).
  change (List.map (fun _ : cell => Null) (board st))
    with ((fun _ : cell => Null) <$> board st).
  rewrite list_lookup_fmap. by destruct (board st).
Qed.

Lemma outcome_ok_makeAIMove (st : state) (g : rng) :
  outcome_ok st → outcome_ok (makeAIMove st g).1.
Proof.
  intros Hok.
  destruct (makeAIMove_cases st g) as [->|(Hp & _ & k & Hk & ->)]; [done|].
  by apply outcome_ok_after.
Qed.

Lemma outcome_ok_handlePlayerInput (st : state) (i : nat) :
  outcome_ok st → outcome_ok (handlePlayerInput st i).
Proof.
  intros Hok.
  destruct (handlePlayerInput_moved st i) as [->|(Hp & _ & _ & Hk & ->)]; [done|].
  by apply outcome_ok_after.
Qed.

(** X6.  The recorded game state always agrees with the board: while it
    is [PLAYING] no combination is complete and a cell is empty;
    [X_WINS] and [O_WINS] are recorded only with a completed combination
    of that player and none of the other; [DRAW] only on a board that
    [checkForDraw] accepts.  [startNewRound] establishes this on any
    board with a cell, and [makeAIMove] and every click keep it. *)
Theorem outcome_agrees_with_board :
  (∀ st, board st ≠ [] → outcome_ok (startNewRound st))
  ∧ (∀ st g, outcome_ok st → outcome_ok (makeAIMove st g).1)
  ∧ (∀ st i, outcome_ok st → outcome_ok (handlePlayerInput st i)).
Proof.
  split; [exact outcome_ok_startNewRound|].
  split; [exact outcome_ok_makeAIMove|exact outcome_ok_handlePlayerInput].
Qed.

Lemma outcome_agrees_with_board_witness :
  board initializeState ≠ []
  ∧ outcome_ok (startNewRound initializeState)
  ∧ outcome_ok (handlePlayerInput (startNewRound initializeState) 4)
  ∧ outcome_ok (makeAIMove (handlePlayerInput (startNewRound initializeState) 4)
                           (constant_rng float_0)).1.
Proof.
  assert (H0 : board initializeState ≠ []) by discriminate.
  pose proof (proj1 outcome_agrees_with_board initializeState H0) as H1.
  pose proof (proj2 (proj2 outcome_agrees_with_board) _ 4 H1) as H2.
  pose proof (proj1 (proj2 outcome_agrees_with_board) _ (constant_rng float_0) H2) as H3.
  done.
Defined.

(** ** The marks on the board alternate *)

Lemma count_insert (f : cell → bool) (b : Board) (k : nat) (c v : cell) :
  b !! k = Some c → f c = false →
  count f (<[k := v]> b) = count f b + (if f v then 1 else 0).
Proof.
  unfold count. revert k. induction b as [|x b IH]; intros k Hk Hc; [done|].
  destruct k as [|k]; cbn in Hk.
  - injection Hk as ->. change (<[0 := v]> (c :: b)) with (v :: b).
    cbn [List.filter]. rewrite Hc. destruct (f v); cbn [length]; lia.
  - specialize (IH k Hk Hc). change (<[S k := v]> (x :: b)) with (x :: <[k := v]> b).
    cbn [List.filter]. destruct (f x); cbn [length]; lia.
Qed.

Lemma marks_set (p q : player) (b : Board) (k : nat) :
  b !! k = Some Null →
  marks p (set b k (Mark q)) = marks p b + (if player_eqb q p then 1 else 0).
Proof. intros Hk. unfold marks, set. by rewrite (count_insert _ _ _ Null). Qed.

Lemma marks_all_null (p : player) (b : Board) :
  marks p (List.map (fun _ => Null) b) = 0.
Proof. unfold marks, count. induction b; [done|]. by cbn. Qed.

(** The current player's mark on an empty cell keeps the balance,
    whatever [afterMove] decides. *)
Lemma balanced_after (st : state) (k : nat) :
  balanced st → is_playing (gameState st) = true →
  board st !! k = Some Null → k ≤ 8 →
  balanced (afterMove (makeMove st k (currentPlayer st)).1 (currentPlayer st)).
Proof.
  unfold balanced. intros Hb Hp Hk Hle. rewrite Hp in Hb.
  destruct (makeMove_board st k (currentPlayer st) Hk) as (Eb & Eg & Ec & _).
  destruct (Nat.ltb_spec 8 k); [lia|].
  set (st1 := (makeMove st k (currentPlayer st)).1) in *.
  assert (HX : marks PLAYER_X (board st1)
               = marks PLAYER_X (board st)
                 + (if player_eqb (currentPlayer st) PLAYER_X then 1 else 0))
    by (rewrite Eb; by apply marks_set).
  assert (HO : marks PLAYER_O (board st1)
               = marks PLAYER_O (board st)
                 + (if player_eqb (currentPlayer st) PLAYER_O then 1 else 0))
    by (rewrite Eb; by apply marks_set).
  unfold afterMove, endGame, switchTurns, with_gameState.
  destruct (checkForWin (currentPlayer st) (board st1));
    [|destruct (checkForDraw (board st1))];
    cbn [gameState board currentPlayer is_playing].
  - destruct (currentPlayer st); cbn [is_playing player_eqb] in *; lia.
  - destruct (currentPlayer st); cbn [is_playing player_eqb] in *; lia.
  - rewrite Eg, Hp, Ec. destruct (currentPlayer st); cbn [other player_eqb] in *; lia.
Qed.

Lemma balanced_startNewRound (st : state) : balanced (startNewRound st).
Proof.
  unfold balanced, startNewRound.
  cbn [gameState board currentPlayer is_playing]. by rewrite !marks_all_null.
Qed.

Lemma balanced_handlePlayerInput (st : state) (i : nat) :
  balanced st → balanced (handlePlayerInput st i).
Proof.
  intros Hb.
  destruct (handlePlayerInput_moved st i) as [->|(Hp & Hc & Hi & Hk & ->)]; [done|].
  rewrite <- Hc. by apply balanced_after.
Qed.

Lemma balanced_makeAIMove (st : state) (g : rng) :
  length (board st) ≤ 9 → balanced st → balanced (makeAIMove st g).1.
Proof.
  intros Hlen Hb.
  destruct (makeAIMove_cases st g) as [->|(Hp & Hc & k & Hk & ->)]; [done|].
  rewrite <- Hc. apply balanced_after; try done.
  apply lookup_lt_Some in Hk. lia.
Qed.

(** X7.  The marks alternate: while a round is [PLAYING], X has as many
    marks as O when X is to move and one more when O is to move; once
    it is over X has as many marks as O or one more.  [startNewRound]
    establishes this, every click keeps it, and so does [makeAIMove] on
    a board of at most nine cells. *)
Theorem marks_alternate :
  (∀ st, balanced (startNewRound st))
  ∧ (∀ st i, balanced st → balanced (handlePlayerInput st i))
  ∧ (∀ st g, length (board st) ≤ 9 → balanced st → balanced (makeAIMove st g).1).
Proof.
  split; [exact balanced_startNewRound|].
  split; [exact balanced_handlePlayerInput|exact balanced_makeAIMove].
Qed.

Lemma marks_alternate_witness :
  balanced (startNewRound initializeState)
  ∧ balanced (handlePlayerInput (startNewRound initializeState) 4)
  ∧ length (board (handlePlayerInput (startNewRound initializeState) 4)) ≤ 9
  ∧ balanced (makeAIMove (handlePlayerInput (startNewRound initializeState) 4)
                         (constant_rng float_0)).1.
Proof.
  pose proof (proj1 marks_alternate initializeState) as H1.
  pose proof (proj1 (proj2 marks_alternate) _ 4 H1) as H2.
  assert (H0 : length (board (handlePlayerInput (startNewRound initializeState) 4)) ≤ 9)
    by (vm_compute; lia).
  pose proof (proj2 (proj2 marks_alternate) _ (constant_rng float_0) H0 H2) as H3.
  done.
Defined.

(** ** Rounds at difficulty ['hard'], whoever opens *)

Lemma round_from_players (st st' : state) :
  round_from st st' →
  humanPlayer st' = humanPlayer st ∧ aiPlayer st' = aiPlayer st
  ∧ difficulty st' = difficulty st.
Proof.
  induction 1 as [st|st g st' _ IH|st i st' _ IH]; [done| |].
  - destruct (makeAIMove_players st g) as (E1 & E2 & E3).
    destruct IH as (-> & -> & ->). by rewrite E1, E2, E3.
  - destruct (handlePlayerInput_players st i) as (E1 & E2 & E3).
    destruct IH as (-> & -> & ->). by rewrite E1, E2, E3.
Qed.

Lemma explore_here (n : nat) (st : state) :
  explore n st = true →
  not_lost st = true ∧ difficulty st = "hard" ∧ humanPlayer st ≠ aiPlayer st.
Proof.
  intros H.
  assert (H' : not_lost st && String.eqb (difficulty st) "hard"
               && negb (player_eqb (humanPlayer st) (aiPlayer st)) = true).
  { destruct n; cbn [explore] in H; by apply andb_true_iff in H as [? _]. }
  apply andb_true_iff in H' as [[H1 H2]%andb_true_iff H3].
  split; [done|]. split; [by apply String.eqb_eq|].
  intros E. rewrite E in H3. by destruct (aiPlayer st).
Qed.

Lemma explore_step (n : nat) (st : state) :
  explore n st = true → is_playing (gameState st) = true →
  ∃ m, n = S m
       ∧ (currentPlayer st = aiPlayer st →
          explore m (makeAIMove st (constant_rng float_0)).1 = true)
       ∧ (currentPlayer st ≠ aiPlayer st →
          ∀ i, i ∈ getEmptyIndices (board st) →
               explore m (handlePlayerInput st i) = true).
Proof.
  intros H Hp. destruct n as [|m]; cbn [explore] in H;
    apply andb_true_iff in H as [_ H]; rewrite Hp in H; [done|].
  exists m. split; [done|]. split.
  - intros Hc. rewrite Hc in H.
    assert (Hpp : player_eqb (aiPlayer st) (aiPlayer st) = true) by (by destruct (aiPlayer st)).
    by rewrite Hpp in H.
  - intros Hc i Hi.
    destruct (player_eqb (currentPlayer st) (aiPlayer st)) eqn:E;
      [by apply player_eqb_eq in E|].
    rewrite forallb_forall in H. by apply H, list_elem_of_In.
Qed.

(** Every state of the round is covered by the exploration. *)
Lemma explore_sound (st st' : state) :
  round_from st st' → ∀ n, explore n st = true → not_lost st' = true.
Proof.
  induction 1 as [st|st g st' _ IH|st i st' _ IH]; intros n Hn.
  - by apply explore_here in Hn as [? _].
  - destruct (explore_here n st Hn) as (_ & Hd & Hne).
    destruct (makeAIMove_cases st g) as [E|(Hp & Hc & _)].
    { rewrite E in IH. by apply (IH n). }
    destruct (explore_step n st Hn Hp) as (m & _ & Hai & _).
    apply (IH m). rewrite (makeAIMove_hard st g (constant_rng float_0) Hd). by apply Hai.
  - destruct (explore_here n st Hn) as (_ & Hd & Hne).
    destruct (handlePlayerInput_moved st i) as [E|(Hp & Hc & _ & Hk & _)].
    { rewrite E in IH. by apply (IH n). }
    destruct (explore_step n st Hn Hp) as (m & _ & _ & Hcl).
    apply (IH m), Hcl; [congruence|]. by apply elem_of_getEmptyIndices.
Qed.

Lemma hard_round_explored_X : explore 9 (hardRound PLAYER_X) = true.
Proof. vm_compute. reflexivity. Qed.

Lemma hard_round_explored_O : explore 9 (hardRound PLAYER_O) = true.
Proof. vm_compute. reflexivity. Qed.

Lemma not_lost_true (st : state) :
  not_lost st = true →
  checkForWin (humanPlayer st) (board st) = false
  ∧ gameState st ≠ won_by (humanPlayer st).
Proof.
  unfold not_lost. intros [H1%negb_true_iff H2]%andb_true_iff. split; [done|].
  intros E. rewrite E in H2. by destruct (humanPlayer st).
Qed.

(** X8.  The human never wins a round at difficulty ['hard'], whether the
    human plays X and opens or plays O: in every state that calls of
    [makeAIMove] and clicks on any cells, in any order, lead to, no
    winning combination holds three marks of the human and the recorded
    game state is not the human's win. *)
Theorem human_never_wins_hard_round (human : player) (st : state) :
  round_from (hardRound human) st →
  humanPlayer st = human
  ∧ checkForWin human (board st) = false
  ∧ gameState st ≠ won_by human.
Proof.
  intros Hr.
  assert (Hh : humanPlayer st = human).
  { destruct (round_from_players _ _ Hr) as (-> & _). by destruct human. }
  split; [done|]. rewrite <- Hh. apply not_lost_true.
  destruct human.
  - exact (explore_sound _ _ Hr 9 hard_round_explored_X).
  - exact (explore_sound _ _ Hr 9 hard_round_explored_O).
Qed.

Lemma human_never_wins_hard_round_witness :
  round_from (hardRound PLAYER_X)
             (makeAIMove (handlePlayerInput (hardRound PLAYER_X) 4) (constant_rng float_0)).1
  ∧ checkForWin PLAYER_X
      (board (makeAIMove (handlePlayerInput (hardRound PLAYER_X) 4) (constant_rng float_0)).1)
    = false.
Proof.
  pose proof (round_click (hardRound PLAYER_X) 4 _
                (round_ai (handlePlayerInput (hardRound PLAYER_X) 4) (constant_rng float_0) _
                   (round_here _))) as Hr.
  split; [exact Hr|].
  exact (proj1 (proj2 (human_never_wins_hard_round PLAYER_X _ Hr))).
Defined.

(** ** Keyboard focus *)

Lemma handleKeyboardNavigation_bound (key : string) (k : nat) :
  k ≤ 8 → handleKeyboardNavigation key k ≤ 8.
Proof.
  intros Hk. unfold handleKeyboardNavigation.
  destruct (negb (existsb (String.eqb key) navigationKeys)); [done|].
  assert (Hr : k / 3 < 3) by (apply Nat.Div0.div_lt_upper_bound; lia).
  pose proof (Nat.mod_upper_bound k 3) as Hc.
  pose proof (Nat.mod_upper_bound (k / 3 + 2) 3).
  pose proof (Nat.mod_upper_bound (k / 3 + 1) 3).
  pose proof (Nat.mod_upper_bound (k mod 3 + 2) 3).
  pose proof (Nat.mod_upper_bound (k mod 3 + 1) 3).
  cbv zeta beta.
  repeat match goal with
         | |- context [String.eqb key ?s] => destruct (String.eqb key s); [lia|]
         end.
  done.
Qed.

Lemma handleKeyboardNavigation_arrows (k : nat) :
  k ≤ 8 →
  handleKeyboardNavigation "ArrowDown" (handleKeyboardNavigation "ArrowUp" k) = k
  ∧ handleKeyboardNavigation "ArrowUp" (handleKeyboardNavigation "ArrowDown" k) = k
  ∧ handleKeyboardNavigation "ArrowRight" (handleKeyboardNavigation "ArrowLeft" k) = k
  ∧ handleKeyboardNavigation "ArrowLeft" (handleKeyboardNavigation "ArrowRight" k) = k
  ∧ handleKeyboardNavigation "ArrowUp" k mod 3 = k mod 3
  ∧ handleKeyboardNavigation "ArrowDown" k mod 3 = k mod 3
  ∧ handleKeyboardNavigation "ArrowLeft" k / 3 = k / 3
  ∧ handleKeyboardNavigation "ArrowRight" k / 3 = k / 3.
Proof.
  intros Hk. do 9 (destruct k as [|k]; [by vm_compute|]). lia.
Qed.

(** What each key does to an index on the board. *)
Lemma handleKeyboardNavigation_keys (k : nat) :
  k ≤ 8 →
  handleKeyboardNavigation "ArrowUp" k = (if k <? 3 then k + 6 else k - 3)
  ∧ handleKeyboardNavigation "ArrowDown" k = (if 5 <? k then k - 6 else k + 3)
  ∧ handleKeyboardNavigation "ArrowLeft" k = (if k mod 3 =? 0 then k + 2 else k - 1)
  ∧ handleKeyboardNavigation "ArrowRight" k = (if k mod 3 =? 2 then k - 2 else k + 1)
  ∧ handleKeyboardNavigation "Home" k = 0
  ∧ handleKeyboardNavigation "End" k = 8
  ∧ handleKeyboardNavigation "PageUp" k = k mod 3
  ∧ handleKeyboardNavigation "PageDown" k = 6 + k mod 3
  ∧ handleKeyboardNavigation "Enter" k = k
  ∧ handleKeyboardNavigation " " k = k.
Proof.
  intros Hk. do 9 (destruct k as [|k]; [by vm_compute|]). lia.
Qed.

Lemma handleKeyboardNavigation_other (key : string) (k : nat) :
  ¬ In key navigationKeys → handleKeyboardNavigation key k = k.
Proof.
  intros Hkey. unfold handleKeyboardNavigation.
  destruct (existsb (String.eqb key) navigationKeys) eqn:E; [|done].
  exfalso. apply Hkey. apply existsb_exists in E as (x & Hx & Heq).
  apply String.eqb_eq in Heq. by subst x.
Qed.

(** X9.  With the focus on one of the nine cells, no key moves it off
    the board, and each key does what its name says: ArrowUp and
    ArrowDown move by one row and wrap around within the column (from the
    top row to the bottom row and back), ArrowLeft and ArrowRight move by
    one column and wrap around within the row, Home and End go to the
    first and the last cell, PageUp and PageDown to the top and the
    bottom of the column; Enter, the space bar and every other key leave
    the index as it is.  Hence ArrowUp and ArrowDown, and ArrowLeft and
    ArrowRight, undo each other. *)
Theorem keyboard_focus_stays_on_board (key : string) (k : nat) :
  k ≤ 8 →
  handleKeyboardNavigation key k ≤ 8
  ∧ handleKeyboardNavigation "ArrowUp" k = (if k <? 3 then k + 6 else k - 3)
  ∧ handleKeyboardNavigation "ArrowDown" k = (if 5 <? k then k - 6 else k + 3)
  ∧ handleKeyboardNavigation "ArrowLeft" k = (if k mod 3 =? 0 then k + 2 else k - 1)
  ∧ handleKeyboardNavigation "ArrowRight" k = (if k mod 3 =? 2 then k - 2 else k + 1)
  ∧ handleKeyboardNavigation "Home" k = 0
  ∧ handleKeyboardNavigation "End" k = 8
  ∧ handleKeyboardNavigation "PageUp" k = k mod 3
  ∧ handleKeyboardNavigation "PageDown" k = 6 + k mod 3
  ∧ handleKeyboardNavigation "Enter" k = k
  ∧ handleKeyboardNavigation " " k = k
  ∧ (¬ In key navigationKeys → handleKeyboardNavigation key k = k)
  ∧ handleKeyboardNavigation "ArrowDown" (handleKeyboardNavigation "ArrowUp" k) = k
  ∧ handleKeyboardNavigation "ArrowUp" (handleKeyboardNavigation "ArrowDown" k) = k
  ∧ handleKeyboardNavigation "ArrowRight" (handleKeyboardNavigation "ArrowLeft" k) = k
  ∧ handleKeyboardNavigation "ArrowLeft" (handleKeyboardNavigation "ArrowRight" k) = k
  ∧ handleKeyboardNavigation "ArrowUp" k mod 3 = k mod 3
  ∧ handleKeyboardNavigation "ArrowDown" k mod 3 = k mod 3
  ∧ handleKeyboardNavigation "ArrowLeft" k / 3 = k / 3
  ∧ handleKeyboardNavigation "ArrowRight" k / 3 = k / 3.
Proof.
  intros Hk. split; [by apply handleKeyboardNavigation_bound|].
  destruct (handleKeyboardNavigation_keys k Hk)
    as (H1 & H2 & H3 & H4 & H5 & H6 & H7 & H8 & H9 & H10).
  do 10 (split; [assumption|]).
  split; [apply handleKeyboardNavigation_other|].
  by apply handleKeyboardNavigation_arrows.
Qed.

Lemma keyboard_focus_stays_on_board_witness :
  2 ≤ 8 ∧ handleKeyboardNavigation "ArrowRight" 2 = 0
  ∧ handleKeyboardNavigation "ArrowUp" 2 = 8
  ∧ handleKeyboardNavigation "ArrowLeft" (handleKeyboardNavigation "ArrowRight" 2) = 2.
Proof.
  assert (H : 2 ≤ 8) by lia.
  destruct (keyboard_focus_stays_on_board "ArrowRight" 2 H)
    as (_ & H1 & _ & _ & H2 & _ & _ & _ & _ & _ & _ & _ & _ & _ & _ & H3 & _).
  done.
Defined.

Lemma find_sorted_first (fromIndex : nat) (l : list nat) :
  StronglySorted lt l →
  match List.find (fun index => fromIndex <? index) l with
  | Some t => t ∈ l ∧ fromIndex < t ∧ ∀ x, x ∈ l → fromIndex < x → t ≤ x
  | None => ∀ x, x ∈ l → x ≤ fromIndex
  end.
Proof.
  induction 1 as [|a l Hs IH Hall]; cbn [List.find].
  { intros x Hx. by apply not_elem_of_nil in Hx. }
  rewrite Forall_forall in Hall.
  destruct (Nat.ltb_spec fromIndex a) as [Hlt|Hge].
  - split; [left|]. split; [done|]. intros x Hx _.
    apply elem_of_cons in Hx as [->|Hx]; [done|]. specialize (Hall x Hx). lia.
  - destruct (List.find _ l) as [t|].
    + destruct IH as (Ht & Hft & Hmin). split; [by right|]. split; [done|].
      intros x Hx Hfx. apply elem_of_cons in Hx as [->|Hx]; [lia|]. by apply Hmin.
    + intros x Hx. apply elem_of_cons in Hx as [->|Hx]; [done|]. by apply IH.
Qed.

Lemma head_sorted_least (l : list nat) (t : nat) :
  StronglySorted lt l → head l = Some t → t ∈ l ∧ ∀ x, x ∈ l → t ≤ x.
Proof.
  destruct 1 as [|a l Hs Hall]; [done|]. cbn. intros [= ->]. split; [left|].
  rewrite Forall_forall in Hall. intros x Hx.
  apply elem_of_cons in Hx as [->|Hx]; [done|]. specialize (Hall x Hx). lia.
Qed.

(** X10.  [focusNextEmptyCell] sets the index only when a cell is empty,
    and then to the first empty cell after [fromIndex], or, when there is
    none after it, to the first empty cell of the board. *)
Theorem focusNextEmptyCell_next (b : Board) (fromIndex : nat) :
  match focusNextEmptyCell b fromIndex with
  | Some t =>
      b !! t = Some Null
      ∧ ((fromIndex < t ∧ ∀ i, fromIndex < i < t → b !! i ≠ Some Null)
         ∨ ((∀ i, fromIndex < i → b !! i ≠ Some Null)
            ∧ ∀ i, i < t → b !! i ≠ Some Null))
  | None => ∀ i, b !! i ≠ Some Null
  end.
Proof.
  unfold focusNextEmptyCell.
  assert (Hs : StronglySorted lt (getEmptyIndices b))
    by (rewrite getEmptyIndices_filter; apply filter_seq_sorted).
  destruct (getEmptyIndices b) as [|a l] eqn:E.
  { cbn. intros i Hi%elem_of_getEmptyIndices. rewrite E in Hi.
    by apply not_elem_of_nil in Hi. }
  cbn [length Nat.eqb]. rewrite <- E in *.
  pose proof (find_sorted_first fromIndex _ Hs) as Hf.
  destruct (List.find _ (getEmptyIndices b)) as [t|].
  - destruct Hf as (Ht & Hlt & Hmin). split; [by apply elem_of_getEmptyIndices|].
    left. split; [done|]. intros i [Hi1 Hi2] Hi%elem_of_getEmptyIndices.
    specialize (Hmin i Hi Hi1). lia.
  - destruct (head (getEmptyIndices b)) as [t|] eqn:Eh; [|by rewrite E in Eh].
    destruct (head_sorted_least _ t Hs Eh) as [Ht Hmin].
    split; [by apply elem_of_getEmptyIndices|]. right. split.
    + intros i Hi1 Hi%elem_of_getEmptyIndices. specialize (Hf i Hi). lia.
    + intros i Hi1 Hi%elem_of_getEmptyIndices. specialize (Hmin i Hi). lia.
Qed.

(** ** Winning cells and forks *)

(** A completable combination has one empty cell and the mover's mark in
    the other two. *)
Lemma completable_cells (p : player) (b : Board) (combo : list nat) :
  In combo WINNING_COMBINATIONS → completable p b combo = true →
  ∃ e, In e combo ∧ get b e = Null
       ∧ ∀ i, In i combo → i ≠ e → get b i = Mark p.
Proof.
  intros Hin Hc.
  destruct (WINNING_COMBINATIONS_triple _ Hin) as (x & y & z & -> & Hxy & Hyz & Hxz).
  apply completable_triple in Hc as [(Hx & Hy & Hz)|[(Hx & Hy & Hz)|(Hx & Hy & Hz)]].
  - exists x. split; [by left|]. split; [done|].
    intros i [<-|[<-|[<-|[]]]] Hne; done.
  - exists y. split; [right; by left|]. split; [done|].
    intros i [<-|[<-|[<-|[]]]] Hne; done.
  - exists z. split; [right; right; by left|]. split; [done|].
    intros i [<-|[<-|[<-|[]]]] Hne; done.
Qed.

Lemma completable_ext (p : player) (b b' : Board) (combo : list nat) :
  (∀ i, In i combo → get b' i = get b i) →
  completable p b' combo = completable p b combo.
Proof.
  intros H. unfold completable. by rewrite (map_ext_in _ _ _ H).
Qed.

(** Two different winning combinations share at most one cell. *)
Lemma lines_meet_once (c1 c2 : list nat) (x y : nat) :
  In c1 WINNING_COMBINATIONS → In c2 WINNING_COMBINATIONS → c1 ≠ c2 →
  In x c1 → In x c2 → In y c1 → In y c2 → x = y.
Proof.
  intros H1 H2 Hne.
  cbn in H1. repeat (destruct H1 as [<-|H1]); try done;
    cbn in H2; repeat (destruct H2 as [<-|H2]); try done; cbn; lia.
Qed.

Lemma filter_two {A} (f : A → bool) (l : list A) :
  List.NoDup l → 2 ≤ length (List.filter f l) →
  ∃ x y, x ≠ y ∧ In x l ∧ In y l ∧ f x = true ∧ f y = true.
Proof.
  intros Hnd Hlen. pose proof (List.NoDup_filter f Hnd) as Hnd'.
  assert (Hin : ∀ x, In x (List.filter f l) → In x l ∧ f x = true)
    by (intros x; apply filter_In).
  destruct (List.filter f l) as [|x [|y rest]]; cbn in Hlen; [lia|lia|].
  exists x, y. inversion Hnd' as [|? ? Hx _]; subst.
  destruct (Hin x ltac:(by left)) as [? ?].
  destruct (Hin y ltac:(right; by left)) as [? ?].
  repeat split; try done. intros ->. apply Hx. by left.
Qed.

Lemma WINNING_COMBINATIONS_NoDup : List.NoDup WINNING_COMBINATIONS.
Proof.
  unfold WINNING_COMBINATIONS.
  repeat (constructor; [cbn; intros H; repeat (destruct H as [H|H]; [done|]); done|]).
  constructor.
Qed.

Lemma findWinningMove_None (p : player) (b : Board) :
  findWinningMove p b = None ↔ ∀ k, can_complete p b k = false.
Proof.
  pose proof (findWinningMove_spec p b) as H. split.
  - intros E. by rewrite E in H.
  - intros Hno. destruct (findWinningMove p b) as [k|]; [|done].
    by rewrite Hno in H.
Qed.

(** X11.  On a board where [p] has no complete combination,
    [findWinningMove] finds a winning cell whenever there is one: the
    index it returns is an empty cell where [p]'s mark completes a
    combination, and it returns [null] only when no empty cell does. *)
Theorem findWinningMove_finds_every_win (p : player) (b : Board) :
  checkForWin p b = false →
  (∀ k, findWinningMove p b = Some k →
        b !! k = Some Null ∧ checkForWin p (set b k (Mark p)) = true)
  ∧ (findWinningMove p b = None
     ↔ ∀ k, b !! k = Some Null → checkForWin p (set b k (Mark p)) = false).
Proof.
  intros Hno. split.
  - intros k Hk. pose proof (findWinningMove_spec p b) as H. rewrite Hk in H.
    by apply can_complete_wins_at, wins_at_true in H.
  - rewrite findWinningMove_None. split.
    + intros H k Hk. specialize (H k). rewrite <- wins_at_can_complete in H by done.
      unfold wins_at in H. by rewrite (proj2 (get_null _ _) Hk) in H.
    + intros H k. rewrite <- wins_at_can_complete by done. unfold wins_at.
      destruct (is_null (get b k)) eqn:E; [|done]. apply get_null in E. by apply H.
Qed.

Lemma findWinningMove_finds_every_win_witness :
  checkForWin PLAYER_O board_win_or_block = false
  ∧ findWinningMove PLAYER_O board_win_or_block = Some 5
  ∧ checkForWin PLAYER_O (set board_win_or_block 5 (Mark PLAYER_O)) = true.
Proof.
  assert (H : checkForWin PLAYER_O board_win_or_block = false) by reflexivity.
  split; [exact H|]. split; [reflexivity|].
  exact (proj2 (proj1 (findWinningMove_finds_every_win PLAYER_O board_win_or_block H)
                  5 eq_refl)).
Defined.

(** After [p]'s mark at a fork cell of a board on which [p] could not
    complete any combination, two combinations through that cell are
    completable, at different cells. *)
Lemma fork_at_two_cells (p : player) (b : Board) (k : nat) :
  (∀ i, can_complete p b i = false) →
  b !! k = Some Null → fork_at p b k = true →
  ∃ c1 c2 e1 e2,
    e1 ≠ e2
    ∧ In c1 WINNING_COMBINATIONS ∧ In c2 WINNING_COMBINATIONS
    ∧ completable p (set b k (Mark p)) c1 = true
    ∧ completable p (set b k (Mark p)) c2 = true
    ∧ In e1 c1 ∧ In e2 c2
    ∧ (set b k (Mark p)) !! e1 = Some Null
    ∧ (set b k (Mark p)) !! e2 = Some Null.
Proof.
  intros Hno Hk Hfork. unfold fork_at in Hfork. apply Nat.leb_le in Hfork.
  destruct (filter_two _ _ WINNING_COMBINATIONS_NoDup Hfork)
    as (c1 & c2 & Hne & Hin1 & Hin2 & Hc1 & Hc2).
  set (b' := set b k (Mark p)) in *.
  assert (Hgk : get b' k = Mark p).
  { unfold b'. rewrite get_set by done. by rewrite Nat.eqb_refl. }
  assert (Hthrough : ∀ c, In c WINNING_COMBINATIONS → completable p b' c = true →
            ∃ e, In e c ∧ In k c ∧ e ≠ k ∧ b' !! e = Some Null).
  { intros c Hin Hc.
    destruct (completable_cells p b' c Hin Hc) as (e & He & Hnull & Hrest).
    assert (Hek : e ≠ k) by (intros ->; congruence).
    exists e. split; [done|]. split; [|split; [done|by apply get_Null_inv]].
    destruct (in_dec Nat.eq_dec k c) as [Hkc|Hkc]; [done|]. exfalso.
    assert (Hsame : ∀ i, In i c → get b' i = get b i).
    { intros i Hi. unfold b'. rewrite get_set by done.
      destruct (Nat.eqb_spec i k) as [->|_]; done. }
    rewrite (completable_ext p b b' c Hsame) in Hc.
    assert (Hcan : can_complete p b e = true).
    { apply can_complete_true. split; [|by exists c].
      apply get_Null_inv. by rewrite <- Hsame. }
    by rewrite Hno in Hcan. }
  destruct (Hthrough c1 Hin1 Hc1) as (e1 & He1 & Hk1 & Hek1 & Hn1).
  destruct (Hthrough c2 Hin2 Hc2) as (e2 & He2 & Hk2 & Hek2 & Hn2).
  exists c1, c2, e1, e2. repeat split; try done.
  intros ->. apply Hek1. by apply (lines_meet_once c1 c2 e2 k).
Qed.

(** X12.  A fork found by [findForkMove] is a double threat.  When
    [findWinningMove] finds nothing for [p] (as in the Strategic policy,
    which looks for a fork only then) and [findForkMove] returns [k],
    then [k] is empty, after [p]'s mark at [k] there are two different
    cells where [p] wins at once, and whatever is written into one other
    empty cell, [p] still has a cell where it wins at once. *)
Theorem fork_move_threatens_twice (p : player) (b : Board) (k : nat) :
  findWinningMove p b = None →
  (findForkMove p b).1 = Some k →
  b !! k = Some Null
  ∧ (∃ e1 e2, e1 ≠ e2
              ∧ wins_at p (set b k (Mark p)) e1 = true
              ∧ wins_at p (set b k (Mark p)) e2 = true)
  ∧ ∀ j v, j ≠ k → b !! j = Some Null →
           ∃ w, wins_at p (set (set b k (Mark p)) j v) w = true.
Proof.
  intros Hnone Hfork.
  pose proof (proj1 (findWinningMove_None p b) Hnone) as Hno.
  rewrite findForkMove_find in Hfork. cbn [fst] in Hfork.
  pose proof (find_elem _ _ _ Hfork) as Hk%elem_of_getEmptyIndices.
  apply find_some in Hfork as [_ Hfork].
  destruct (fork_at_two_cells p b k Hno Hk Hfork)
    as (c1 & c2 & e1 & e2 & Hne & Hin1 & Hin2 & Hc1 & Hc2 & He1 & He2 & Hn1 & Hn2).
  set (b' := set b k (Mark p)) in *.
  split; [done|]. split.
  - exists e1, e2. split; [done|].
    split; apply can_complete_wins_at, can_complete_true; (split; [done|]).
    + by exists c1.
    + by exists c2.
  - intros j v Hjk Hj.
    assert (Hj' : b' !! j = Some Null)
      by (by apply elem_of_getEmptyIndices_set).
    assert (Hkeep : ∀ c e, In c WINNING_COMBINATIONS → completable p b' c = true →
              In e c → b' !! e = Some Null → e ≠ j →
              wins_at p (set b' j v) e = true).
    { intros c e Hin Hc He Hn Hej.
      destruct (completable_cells p b' c Hin Hc) as (e' & He' & Hnull & Hrest).
      assert (Hjc : ∀ i, In i c → i ≠ j).
      { intros i Hi ->. apply get_Null in Hj', Hn.
        destruct (decide (j = e')) as [->|Hje].
        - destruct (decide (e = e')) as [->|Hee]; [done|].
          specialize (Hrest e He Hee). congruence.
        - specialize (Hrest j Hi Hje). congruence. }
      assert (Hsame : ∀ i, In i c → get (set b' j v) i = get b' i).
      { intros i Hi. rewrite get_set by done.
        destruct (Nat.eqb_spec i j) as [->|_]; [by destruct (Hjc j Hi)|done]. }
      assert (Hn' : set b' j v !! e = Some Null)
        by (unfold set; by rewrite list_lookup_insert_ne).
      apply wins_at_true. split; [done|].
      apply (completable_win p _ c e); try done.
      by rewrite (completable_ext p b' _ c Hsame). }
    destruct (decide (e1 = j)) as [->|H1].
    + exists e2. by apply (Hkeep c2).
    + exists e1. by apply (Hkeep c1).
Qed.

Lemma fork_move_threatens_twice_witness :
  findWinningMove PLAYER_X board_diagonal = None
  ∧ (findForkMove PLAYER_X board_diagonal).1 = Some 2
  ∧ ∃ w, wins_at PLAYER_X
           (set (set board_diagonal 2 (Mark PLAYER_X)) 1 (Mark PLAYER_O)) w = true.
Proof.
  assert (H1 : findWinningMove PLAYER_X board_diagonal = None) by reflexivity.
  assert (H2 : (findForkMove PLAYER_X board_diagonal).1 = Some 2) by reflexivity.
  split; [exact H1|]. split; [exact H2|].
  assert (H3 : 1 ≠ 2) by lia.
  assert (H4 : board_diagonal !! 1 = Some Null) by reflexivity.
  exact (proj2 (proj2 (fork_move_threatens_twice PLAYER_X board_diagonal 2 H1 H2))
           1 (Mark PLAYER_O) H3 H4).
Defined.

(** ** The policies do not depend on which mark the engine plays *)

Lemma other_involutive (p : player) : other (other p) = p.
Proof. by destruct p. Qed.

Lemma is_player_swap (p : player) (c : cell) :
  is_player (other p) (swap_cell c) = is_player p c.
Proof. by destruct c as [|[]|], p. Qed.

Lemma is_null_swap (c : cell) : is_null (swap_cell c) = is_null c.
Proof. by destruct c. Qed.

Lemma get_swap (b : Board) (i : nat) : get (swap_board b) i = swap_cell (get b i).
Proof.
  unfold get, swap_board. change (List.map swap_cell b) with (swap_cell <$> b).
  rewrite list_lookup_fmap. by destruct (b !! i).
Qed.

Lemma set_swap (b : Board) (i : nat) (v : cell) :
  set (swap_board b) i (swap_cell v) = swap_board (set b i v).
Proof.
  unfold set, swap_board. change (List.map swap_cell) with (fmap (M:=list) swap_cell).
  by rewrite list_fmap_insert.
Qed.

Lemma set_swap_mark (b : Board) (i : nat) (p : player) :
  set (swap_board b) i (Mark (other p)) = swap_board (set b i (Mark p)).
Proof. apply (set_swap b i (Mark p)). Qed.

Lemma set_swap_null (b : Board) (i : nat) :
  set (swap_board b) i Null = swap_board (set b i Null).
Proof. apply (set_swap b i Null). Qed.

Lemma existsb_eq {A} (f g : A → bool) (l : list A) :
  (∀ x, f x = g x) → existsb f l = existsb g l.
Proof. intros H. induction l as [|x l IH]; [done|]. cbn. by rewrite H, IH. Qed.

Lemma forallb_eq {A} (f g : A → bool) (l : list A) :
  (∀ x, f x = g x) → forallb f l = forallb g l.
Proof. intros H. induction l as [|x l IH]; [done|]. cbn. by rewrite H, IH. Qed.

Lemma find_eq {A} (f g : A → bool) (l : list A) :
  (∀ x, f x = g x) → List.find f l = List.find g l.
Proof. intros H. induction l as [|x l IH]; [done|]. cbn. by rewrite H, IH. Qed.

Lemma checkForWin_swap (p : player) (b : Board) :
  checkForWin (other p) (swap_board b) = checkForWin p b.
Proof.
  unfold checkForWin. apply existsb_eq. intros combo. apply forallb_eq.
  intros i. by rewrite get_swap, is_player_swap.
Qed.

Lemma getEmptyIndices_swap (b : Board) :
  getEmptyIndices (swap_board b) = getEmptyIndices b.
Proof.
  rewrite !getEmptyIndices_filter. unfold swap_board at 2. rewrite length_map.
  apply List.filter_ext. intros i. by rewrite get_swap, is_null_swap.
Qed.

Lemma evaluateBoard_swap (ai human : player) (b : Board) :
  evaluateBoard (other ai) (other human) (swap_board b) = evaluateBoard ai human b.
Proof. unfold evaluateBoard. by rewrite !checkForWin_swap. Qed.

Lemma count_map (f : cell → bool) (g : cell → cell) (l : list cell) :
  count f (List.map g l) = count (fun c => f (g c)) l.
Proof.
  unfold count. induction l as [|x l IH]; [done|]. cbn [List.map List.filter].
  destruct (f (g x)); cbn [length]; by rewrite IH.
Qed.

Lemma positions_swap (b : Board) (combo : list nat) :
  List.map (get (swap_board b)) combo = List.map swap_cell (List.map (get b) combo).
Proof. rewrite List.map_map. apply List.map_ext. intros i. apply get_swap. Qed.

Lemma completable_swap (p : player) (b : Board) (combo : list nat) :
  completable (other p) (swap_board b) combo = completable p b combo.
Proof.
  unfold completable. cbv zeta. rewrite positions_swap, !count_map.
  unfold count.
  rewrite (List.filter_ext _ (is_player p) (is_player_swap p)).
  by rewrite (List.filter_ext _ is_null is_null_swap).
Qed.

Lemma indexOf_null_swap (positions : list cell) :
  indexOf_null (List.map swap_cell positions) = indexOf_null positions.
Proof.
  induction positions as [|c l IH]; [done|]. cbn [List.map indexOf_null].
  by rewrite is_null_swap, IH.
Qed.

Lemma findWinningMove_swap (p : player) (b : Board) :
  findWinningMove (other p) (swap_board b) = findWinningMove p b.
Proof.
  unfold findWinningMove. induction WINNING_COMBINATIONS as [|combo rest IH]; [done|].
  cbn [findWinningMove_in].
  by rewrite completable_swap, positions_swap, indexOf_null_swap, IH.
Qed.

Lemma fork_at_swap (p : player) (b : Board) (i : nat) :
  fork_at (other p) (swap_board b) i = fork_at p b i.
Proof.
  unfold fork_at. rewrite set_swap_mark.
  by rewrite (List.filter_ext _ _ (completable_swap p (set b i (Mark p)))).
Qed.

Lemma forces_defense_swap (ai human : player) (b : Board) (i : nat) :
  forces_defense (other ai) (other human) (swap_board b) i = forces_defense ai human b i.
Proof.
  unfold forces_defense. rewrite set_swap_mark, findWinningMove_swap.
  destruct (findWinningMove ai (set b i (Mark ai))) as [fd|]; [|done].
  cbv zeta. rewrite set_swap_mark, getEmptyIndices_swap.
  by rewrite (find_eq _ _ _ (fork_at_swap human _)).
Qed.

Lemma findOppositeCorner_swap (human : player) (b : Board) :
  findOppositeCorner (other human) (swap_board b) = findOppositeCorner human b.
Proof.
  unfold findOppositeCorner. f_equal. apply find_eq. intros [corner opposite].
  by rewrite !get_swap, is_player_swap, is_null_swap.
Qed.

Lemma getStrategicMove_swap (ai human : player) (l : list nat) (b : Board) (g : rng) :
  getStrategicMove (other ai) (other human) l (swap_board b) g
  = ((getStrategicMove ai human l b g).1.1,
     swap_board (getStrategicMove ai human l b g).1.2,
     (getStrategicMove ai human l b g).2).
Proof.
  unfold getStrategicMove. rewrite !findWinningMove_swap.
  destruct (findWinningMove ai b); [done|].
  destruct (findWinningMove human b); [done|].
  rewrite !findForkMove_find, getEmptyIndices_swap.
  rewrite (find_eq _ _ _ (fork_at_swap ai b)).
  destruct (List.find (fork_at ai b) (getEmptyIndices b)); [done|].
  rewrite !findBlockForkMove_find, getEmptyIndices_swap.
  rewrite (find_eq _ _ _ (fork_at_swap human b)).
  rewrite (find_eq _ _ _ (forces_defense_swap ai human b)).
  destruct (match List.find (fork_at human b) (getEmptyIndices b) with
            | Some humanFork => Some humanFork
            | None => List.find (forces_defense ai human b) (getEmptyIndices b)
            end); [done|].
  destruct (includes l CENTER); [done|].
  rewrite findOppositeCorner_swap.
  destruct (findOppositeCorner human b) as [oc|].
  - destruct (includes l oc); [done|]. by destruct (cornerEdgeMove l g).
  - by destruct (cornerEdgeMove l g).
Qed.

Lemma minimax_loop_swap (rec rec' : Board → num → num → option (move * Board))
    (p : player) (isMax : bool) (l : list nat) (b : Board) (best : move)
    (alpha beta : num) :
  (∀ b alpha beta, rec' (swap_board b) alpha beta = swap_result <$> rec b alpha beta) →
  minimax_loop rec' (other p) isMax l (swap_board b) best alpha beta
  = swap_result <$> minimax_loop rec p isMax l b best alpha beta.
Proof.
  intros Hrec. revert b best alpha beta.
  induction l as [|i l IH]; intros b best alpha beta; cbn [minimax_loop]; [done|].
  rewrite set_swap_mark, Hrec.
  destruct (rec (set b i (Mark p)) alpha beta) as [[result b1]|]; [|done].
  cbn [fmap option_fmap option_map swap_result fst snd].
  rewrite set_swap_null.
  destruct (num_leb _ _); [done|]. apply IH.
Qed.

Lemma minimax_fuel_swap (ai human : player) (fuel : nat) (b : Board) (p : player)
    (isMax : bool) (depth : nat) (alpha beta : num) :
  minimax_fuel (other ai) (other human) fuel (swap_board b) (other p) isMax depth
               alpha beta
  = swap_result <$> minimax_fuel ai human fuel b p isMax depth alpha beta.
Proof.
  revert b p isMax depth alpha beta.
  induction fuel as [|fuel IH]; intros b p isMax depth alpha beta; [done|].
  cbn [minimax_fuel]. rewrite evaluateBoard_swap, getEmptyIndices_swap.
  repeat (case_match; [done|]).
  apply minimax_loop_swap. intros b' alpha' beta'.
  destruct isMax; apply IH.
Qed.

Lemma minimax_swap (ai human : player) (b : Board) (p : player) (isMax : bool)
    (depth : nat) (alpha beta : num) :
  minimax (other ai) (other human) (swap_board b) (other p) isMax depth alpha beta
  = swap_result (minimax ai human b p isMax depth alpha beta).
Proof.
  unfold minimax. rewrite minimax_fuel_swap.
  by destruct (minimax_fuel ai human _ b p isMax depth alpha beta) as [[r b']|].
Qed.

(** X13.  The policies do not depend on which mark the engine plays: on
    the board with the two marks exchanged and the two sides exchanged,
    the Expert search and the Strategic cascade return the same index
    (and the same scores all through the search), and leave the board
    with the marks exchanged. *)
Theorem policies_ignore_which_mark (ai human : player) (b : Board) :
  (∀ p isMax depth alpha beta,
     minimax (other ai) (other human) (swap_board b) (other p) isMax depth alpha beta
     = swap_result (minimax ai human b p isMax depth alpha beta))
  ∧ getOptimalMove (other ai) (other human) (swap_board b)
    = ((getOptimalMove ai human b).1, swap_board (getOptimalMove ai human b).2)
  ∧ (∀ l g,
       getStrategicMove (other ai) (other human) l (swap_board b) g
       = ((getStrategicMove ai human l b g).1.1,
          swap_board (getStrategicMove ai human l b g).1.2,
          (getStrategicMove ai human l b g).2)).
Proof.
  split; [intros; apply minimax_swap|]. split; [|intros; apply getStrategicMove_swap].
  unfold getOptimalMove. rewrite minimax_swap.
  by destruct (minimax ai human b ai true 0 NegInf PosInf).
Qed.

(** ** Every state of the page *)

Lemma handleDifficultyChange_fields (st : state) (d : string) :
  gameState (handleDifficultyChange st d) = gameState st
  ∧ humanPlayer (handleDifficultyChange st d) = humanPlayer st
  ∧ aiPlayer (handleDifficultyChange st d) = aiPlayer st
  ∧ currentPlayer (handleDifficultyChange st d) = currentPlayer st
  ∧ board (handleDifficultyChange st d) = board st.
Proof. unfold handleDifficultyChange. by destruct (_ && _). Qed.

Lemma handleHumanPlayerChange_cases (st : state) (p : player) :
  handleHumanPlayerChange st p = st
  ∨ handleHumanPlayerChange st p
    = startNewRound (mkState (gameState st) p (other p) (currentPlayer st)
                             (difficulty st) (board st)).
Proof.
  unfold handleHumanPlayerChange.
  destruct (existsb _ _); [by left|]. destruct (negb _); [by right|by left].
Qed.

(** X14.  In every state that the handlers of the page lead to from the
    initial one, the engine plays the mark the human does not, the board
    has nine cells, the recorded game state agrees with the board, and
    the marks alternate with X first. *)
Theorem reachable_states_are_consistent (st : state) :
  reachable st →
  aiPlayer st = other (humanPlayer st)
  ∧ length (board st) = 9
  ∧ outcome_ok st
  ∧ balanced st.
Proof.
  induction 1 as [|st d _ IH|st p _ IH|st _ IH|st g _ IH|st i _ IH].
  - repeat split; done.
  - destruct IH as (H1 & H2 & H3 & H4).
    destruct (handleDifficultyChange_fields st d) as (Eg & Eh & Ea & Ec & Eb).
    unfold outcome_ok, balanced. rewrite Eg, Eh, Ea, Ec, Eb. done.
  - destruct IH as (H1 & H2 & H3 & H4).
    destruct (handleHumanPlayerChange_cases st p) as [->| ->]; [done|].
    split; [done|]. split; [by rewrite <- H2; apply length_map|].
    split; [|apply balanced_startNewRound].
    apply outcome_ok_startNewRound. cbn [board]. by destruct (board st).
  - destruct IH as (H1 & H2 & H3 & H4).
    split; [done|]. split; [by rewrite <- H2; apply length_map|].
    split; [|apply balanced_startNewRound].
    apply outcome_ok_startNewRound. by destruct (board st).
  - destruct IH as (H1 & H2 & H3 & H4).
    destruct (makeAIMove_players st g) as (-> & -> & _).
    rewrite makeAIMove_length.
    split; [done|]. split; [done|].
    split; [by apply outcome_ok_makeAIMove|]. apply balanced_makeAIMove; [lia|done].
  - destruct IH as (H1 & H2 & H3 & H4).
    destruct (handlePlayerInput_players st i) as (-> & -> & _).
    rewrite handlePlayerInput_length.
    split; [done|]. split; [done|].
    split; [by apply outcome_ok_handlePlayerInput|by apply balanced_handlePlayerInput].
Qed.

Lemma reachable_states_are_consistent_witness :
  reachable (makeAIMove (handlePlayerInput initializeState 4) (constant_rng float_1_2)).1
  ∧ length (board (makeAIMove (handlePlayerInput initializeState 4)
                              (constant_rng float_1_2)).1) = 9.
Proof.
  pose proof (reach_ai _ (constant_rng float_1_2)
                (reach_click _ 4 reach_init)) as Hr.
  split; [exact Hr|].
  exact (proj1 (proj2 (reachable_states_are_consistent _ Hr))).
Defined.

(** ** The engine always replies *)

Lemma getBestAIMove_Some (st : state) (g : rng) :
  getEmptyIndices (board st) ≠ [] →
  checkForWin (aiPlayer st) (board st) = false →
  checkForWin (humanPlayer st) (board st) = false →
  unit_rng g →
  ∃ k, (getBestAIMove st g).1.1 = Normal (Some k).
Proof.
  intros Hne Hai Hhu Hg.
  assert (Hrandom : ∃ k, (getRandomMove (getEmptyIndices (board st)) g).1 = Some k).
  { rewrite getRandomMove_pick. cbn [fst].
    destruct (pick_Some (casual_candidates (board st) (g 0)) (g 1) (Hg 1))
      as (_ & i & _ & Hp & _); [by apply casual_candidates_nonempty|]. eauto. }
  unfold getBestAIMove.
  destruct (Nat.eqb_spec (length (getEmptyIndices (board st))) 0) as [E|_].
  { by destruct (getEmptyIndices (board st)). }
  destruct (String.eqb (difficulty st) "easy").
  { destruct Hrandom as [k Hk].
    destruct (getRandomMove _ g) as [m g']. cbn [fst] in *. subst m. eauto. }
  destruct (String.eqb (difficulty st) "medium").
  { destruct (getStrategicMove_Some (aiPlayer st) (humanPlayer st) (board st) g Hne (Hg 0))
      as [k Hk].
    destruct (getStrategicMove _ _ _ _ g) as [[m b'] g']. cbn [fst] in *. subst m. eauto. }
  destruct (String.eqb (difficulty st) "hard").
  { destruct (unpruned_index_inner (aiPlayer st) (humanPlayer st) 8 (board st) true 0
                Hai Hhu Hne) as (k & Hk & _).
    rewrite getOptimalMove_unpruned. exists k. cbn [fst]. do 2 f_equal. exact Hk. }
  destruct Hrandom as [k Hk].
  destruct (getRandomMove _ g) as [m g']. cbn [fst] in *. subst m. eauto.
Qed.

(** X15.  The engine always replies.  In a state whose record agrees with
    the board, while the round is [PLAYING] and it is the engine's turn
    on a board of at most nine cells, [makeAIMove] with random numbers
    in [0, 1) puts the engine's mark into an empty cell, whatever the
    difficulty, and then the round is over or it is the other side's
    turn. *)
Theorem engine_always_replies (st : state) (g : rng) :
  outcome_ok st → gameState st = PLAYING → currentPlayer st = aiPlayer st →
  length (board st) ≤ 9 → unit_rng g →
  ∃ k, board st !! k = Some Null
       ∧ board (makeAIMove st g).1 = set (board st) k (Mark (aiPlayer st))
       ∧ (gameState (makeAIMove st g).1 ≠ PLAYING
          ∨ currentPlayer (makeAIMove st g).1 = other (aiPlayer st)).
Proof.
  intros Hok Hplay Hcur Hlen Hg.
  assert (Hp : is_playing (gameState st) = true) by (by rewrite Hplay).
  destruct (outcome_ok_playing st (aiPlayer st) Hok Hp) as [Hai Hne].
  destruct (outcome_ok_playing st (humanPlayer st) Hok Hp) as [Hhu _].
  destruct (getBestAIMove_Some st g Hne Hai Hhu Hg) as [k Hk].
  pose proof (getBestAIMove_empty st g) as Hnull. rewrite Hk in Hnull.
  pose proof (getBestAIMove_state st g) as Hst.
  assert (Hm : (makeAIMove st g).1
               = afterMove (makeMove st k (aiPlayer st)).1 (aiPlayer st)).
  { unfold makeAIMove. rewrite Hp, Hcur.
    assert (Hpp : player_eqb (aiPlayer st) (aiPlayer st) = true)
      by (by destruct (aiPlayer st)).
    rewrite Hpp. cbn [negb orb].
    destruct (getBestAIMove st g) as [[c st1] g1]. cbn [fst snd] in *. subst c st1.
    destruct (makeMove_board st k (aiPlayer st) Hnull) as (_ & _ & _ & _ & Ha & _).
    destruct (makeMove st k (aiPlayer st)) as [st0 ok]. cbn [fst] in *. by rewrite Ha. }
  exists k. split; [done|]. rewrite Hm.
  assert (Hk8 : k ≤ 8) by (apply lookup_lt_Some in Hnull; lia).
  split.
  - rewrite afterMove_makeMove_board by done.
    destruct (Nat.ltb_spec 8 k); [lia|done].
  - destruct (makeMove_board st k (aiPlayer st) Hnull) as (_ & Eg & Ec & _).
    unfold afterMove, endGame, switchTurns, with_gameState.
    destruct (checkForWin (aiPlayer st) (board (makeMove st k (aiPlayer st)).1));
      [left; cbn [gameState]; by destruct (aiPlayer st)|].
    destruct (checkForDraw (board (makeMove st k (aiPlayer st)).1)); [by left|].
    right. cbn [currentPlayer]. by rewrite Ec, Hcur.
Qed.

Lemma engine_always_replies_witness :
  outcome_ok (handlePlayerInput initializeState 4)
  ∧ gameState (handlePlayerInput initializeState 4) = PLAYING
  ∧ currentPlayer (handlePlayerInput initializeState 4)
    = aiPlayer (handlePlayerInput initializeState 4)
  ∧ length (board (handlePlayerInput initializeState 4)) ≤ 9
  ∧ unit_rng (constant_rng float_1_2)
  ∧ ∃ k, board (handlePlayerInput initializeState 4) !! k = Some Null
         ∧ board (makeAIMove (handlePlayerInput initializeState 4)
                             (constant_rng float_1_2)).1
           = set (board (handlePlayerInput initializeState 4)) k
                 (Mark (aiPlayer (handlePlayerInput initializeState 4))).
Proof.
  assert (H1 : outcome_ok (handlePlayerInput initializeState 4))
    by (repeat split; done).
  assert (H2 : gameState (handlePlayerInput initializeState 4) = PLAYING)
    by reflexivity.
  assert (H3 : currentPlayer (handlePlayerInput initializeState 4)
               = aiPlayer (handlePlayerInput initializeState 4)) by reflexivity.
  assert (H4 : length (board (handlePlayerInput initializeState 4)) ≤ 9)
    by (vm_compute; lia).
  assert (H5 : unit_rng (constant_rng float_1_2))
    by (intros n; vm_compute; done).
  repeat (split; [assumption|]).
  destruct (engine_always_replies _ _ H1 H2 H3 H4 H5) as (k & Hk & Hb & _).
  exists k. by split.
Defined.

(** ** The search with any window *)

(** X16.  The contract of the alpha-beta search at every node, not only
    at the root: called at a depth of at most 9 with any window
    [alpha < beta], [minimax] returns the board as it was and, when the
    unpruned score of the node lies inside the window, exactly the
    unpruned result, score and index; when that score is at most [alpha]
    the returned score is at most [alpha], and when it is at least
    [beta] the returned score is at least [beta]. *)
Theorem alpha_beta_window_contract (ai human : player) (b : Board) (isMax : bool)
    (depth : nat) (alpha beta : num) :
  depth ≤ 9 → num_lt alpha beta →
  ∃ r, minimax ai human b (mover ai human isMax) isMax depth alpha beta = (r, b)
       ∧ window_ok alpha beta (unpruned ai human (9 - depth) b isMax depth) r.
Proof.
  intros Hd Hab.
  destruct (minimax_fuel_spec ai human (9 - depth) b isMax depth alpha beta
              ltac:(lia) Hab) as (r & Hr & Hw).
  exists r. split; [|done]. unfold minimax. by rewrite Hr.
Qed.

Lemma alpha_beta_window_contract_witness :
  2 ≤ 9 ∧ num_lt (Fin (-1)) (Fin 1)
  ∧ ∃ r, minimax PLAYER_X PLAYER_O board_diagonal (mover PLAYER_X PLAYER_O false)
                 false 2 (Fin (-1)) (Fin 1) = (r, board_diagonal)
         ∧ window_ok (Fin (-1)) (Fin 1)
                     (unpruned PLAYER_X PLAYER_O (9 - 2) board_diagonal false 2) r.
Proof.
  assert (H1 : 2 ≤ 9) by lia.
  assert (H2 : num_lt (Fin (-1)) (Fin 1)) by reflexivity.
  split; [exact H1|]. split; [exact H2|].
  exact (alpha_beta_window_contract PLAYER_X PLAYER_O board_diagonal false 2
           (Fin (-1)) (Fin 1) H1 H2).
Defined.

(** ** The opposite corner *)

(** X17.  An index returned by [findOppositeCorner] is a corner that is
    empty and whose opposite corner holds the human's mark; it is
    therefore among the empty indices, so the membership test that
    [getStrategicMove] makes on it never fails. *)
Theorem findOppositeCorner_is_free_corner (human : player) (b : Board) (k : nat) :
  findOppositeCorner human b = Some k →
  In k CORNERS
  ∧ b !! k = Some Null
  ∧ get b (8 - k) = Mark human
  ∧ includes (getEmptyIndices b) k = true.
Proof.
  unfold findOppositeCorner. intros H.
  destruct (List.find _ opposites) as [[corner opposite]|] eqn:E; [|done].
  cbn in H. injection H as ->.
  apply find_some in E as [Hin [Hp Hn]%andb_true_iff].
  apply is_player_Mark in Hp. apply get_null in Hn.
  assert (Hc : In k CORNERS ∧ corner = 8 - k).
  { cbn in Hin. cbn.
    destruct Hin as [[= <- <-]|[[= <- <-]|[[= <- <-]|[[= <- <-]|[]]]]]; split; tauto || done. }
  destruct Hc as [Hc ->]. split; [done|]. split; [done|]. split; [done|].
  by apply includes_In, list_elem_of_In, elem_of_getEmptyIndices.
Qed.

Lemma findOppositeCorner_is_free_corner_witness :
  findOppositeCorner PLAYER_X (set board_diagonal 8 Null) = Some 8
  ∧ includes (getEmptyIndices (set board_diagonal 8 Null)) 8 = true.
Proof.
  assert (H : findOppositeCorner PLAYER_X (set board_diagonal 8 Null) = Some 8)
    by reflexivity.
  split; [exact H|].
  exact (proj2 (proj2 (proj2
    (findOppositeCorner_is_free_corner PLAYER_X (set board_diagonal 8 Null) 8 H)))).
Defined.

